(** * Freeway reinforcement-learning agents: a shallow embedding

    The agents of [freeway/src/agents.py] and
    [marianna/project01-rl/src/agents.py] are embedded as pure functions
    over explicit agent records.

    Conventions of the embedding.
    - Python floats are idealised as exact rationals ([Qc], canonical
      fractions with Leibniz equality); rounding, [inf] and [nan] are not
      represented ([inf] and [nan] arise in [adam] at step count [0] and
      in the mean of an empty slice).
    - A state is a Python [bytes] object: a [string] of 8-bit characters.
    - A list of states passed to [np.array] becomes a fixed-width bytes
      array: an item read back from it has lost its trailing NUL bytes
      ([np_array_bytes]).
    - A [defaultdict] is a finite map ([gmap]) together with its default
      factory; reading a missing key stores the default ([dd_get]).
    - A numpy row [np.zeros(n)] is a [list Qc] of length [n].
    - Python exceptions are explicit: every method returns a [result].
    - [np.random] is made explicit: each call to [act] consumes one
      [draws] record holding the uniform sample used by the weighted
      [np.random.choice] and the raw integer used by the uniform one. *)

From Stdlib Require Import QArith Qcanon Qround.
From stdpp Require Import gmap strings list fin_maps.

Open Scope Qc_scope.

(** ** Numbers *)

Definition Qc_eqb (x y : Qc) : bool :=
  match x ?= y with Eq => true | _ => false end.

Definition Qc_ltb (x y : Qc) : bool :=
  match x ?= y with Lt => true | _ => false end.

Definition Qc_leb (x y : Qc) : bool :=
  match x ?= y with Gt => false | _ => true end.

(** Python [int] to [float] conversion. *)
Definition of_nat (n : nat) : Qc := Q2Qc (inject_Z (Z.of_nat n)).

(** ** Exceptions *)

Inductive exn : Set :=
| ZeroDivisionError
| ValueError
| IndexError
| UnboundLocalError
| NotFittedError.

Inductive result (A : Type) : Type :=
| Ok (a : A)
| Raise (e : exn).
Arguments Ok {A} a.
Arguments Raise {A} e.

Definition bind {A B : Type} (r : result A) (k : A -> result B) : result B :=
  match r with
  | Ok a => k a
  | Raise e => Raise e
  end.

Declare Scope py_scope.
Delimit Scope py_scope with py.
Notation "'do' x <- r ; k" := (bind r (fun x => k))
  (at level 10, x pattern, r at level 100, k at level 200) : py_scope.
Open Scope py_scope.

Definition completes {A : Type} (r : result A) : Prop :=
  exists a, r = Ok a.

(** ** Python and numpy primitives *)

(** [x / y] on Python numbers. *)
Definition py_div (x y : Qc) : result Qc :=
  if Qc_eqb y 0 then Raise ZeroDivisionError else Ok (x / y).

(** [d[k]] on a [defaultdict] whose factory returns [dflt]: the value
    read, and the dictionary afterwards (a missing key is created). *)
Definition dd_get {V : Type} (dflt : V) (d : gmap string V) (k : string)
  : V * gmap string V :=
  match d !! k with
  | Some v => (v, d)
  | None => (dflt, <[k := dflt]> d)
  end.

(** The same for the inner [defaultdict(lambda: 0)] keyed by actions. *)
Definition dd_get_nat (d : gmap nat nat) (k : nat) : nat * gmap nat nat :=
  match d !! k with
  | Some v => (v, d)
  | None => (0%nat, <[k := 0%nat]> d)
  end.

(** Reading without creating, used only in statements. *)
Definition peek {V : Type} (dflt : V) (d : gmap string V) (k : string) : V :=
  default dflt (d !! k).

Definition np_zeros (n : nat) : list Qc := replicate n 0.

(** [arr[i]] for a non-negative index. *)
Definition getitem (arr : list Qc) (i : nat) : result Qc :=
  match arr !! i with
  | Some x => Ok x
  | None => Raise IndexError
  end.

(** [arr[i] = x] for a non-negative index. *)
Definition setitem (arr : list Qc) (i : nat) (x : Qc) : result (list Qc) :=
  if decide (i < length arr)%nat then Ok (<[i := x]> arr)
  else Raise IndexError.

Fixpoint max_from (m : Qc) (l : list Qc) : Qc :=
  match l with
  | [] => m
  | x :: l' => max_from (if Qc_ltb m x then x else m) l'
  end.

Fixpoint min_from (m : Qc) (l : list Qc) : Qc :=
  match l with
  | [] => m
  | x :: l' => min_from (if Qc_ltb x m then x else m) l'
  end.

(** [arr.max()], [arr.min()]: a zero-size array raises [ValueError]. *)
Definition np_max (arr : list Qc) : result Qc :=
  match arr with
  | [] => Raise ValueError
  | x :: l => Ok (max_from x l)
  end.

Definition np_min (arr : list Qc) : result Qc :=
  match arr with
  | [] => Raise ValueError
  | x :: l => Ok (min_from x l)
  end.

(** [arr.argmax()]: the first index holding the maximum. *)
Fixpoint argmax_from (best : nat) (m : Qc) (i : nat) (l : list Qc) : nat :=
  match l with
  | [] => best
  | x :: l' =>
      if Qc_ltb m x then argmax_from i x (S i) l'
      else argmax_from best m (S i) l'
  end.

Definition np_argmax (arr : list Qc) : result nat :=
  match arr with
  | [] => Raise ValueError
  | x :: l => Ok (argmax_from 0 x 1 l)
  end.

(** ** Random draws *)

Record draws : Type := Draws {
  u : Qc;      (* the sample of [random_sample()], in [0, 1) *)
  k : nat      (* the raw integer behind [randint(0, n)] *)
}.

(** [cdf.searchsorted(x, side='right')] on the running sums of [p]. *)
Fixpoint searchsorted_right (acc : Qc) (p : list Qc) (x : Qc) : nat :=
  match p with
  | [] => 0
  | q :: p' =>
      ((if Qc_leb (acc + q) x then 1 else 0)
       + searchsorted_right (acc + q) p' x)%nat
  end.

Definition sum_list_Qc (p : list Qc) : Qc := foldr Qcplus 0 p.

(** [np.random.choice(np.arange(n), p=p)]: numpy checks that the
    population is not empty, that [p] has the size of the population, that
    no probability is negative and that they sum to one, then inverts the
    cumulative distribution at the uniform sample. *)
Definition choice_p (n : nat) (p : list Qc) (x : Qc) : result nat :=
  if (n =? 0)%nat then Raise ValueError
  else if negb (length p =? n)%nat then Raise ValueError
  else if existsb (fun q => Qc_ltb q 0) p then Raise ValueError
  else if negb (Qc_eqb (sum_list_Qc p) 1) then Raise ValueError
  else Ok (searchsorted_right 0 p x).

(** [np.random.choice(n)] for an integer [n]: [randint(0, n)]. *)
Definition choice_int (n : nat) (raw : nat) : result nat :=
  if (n =? 0)%nat then Raise ValueError else Ok (raw mod n)%nat.

(** [for x in xs: body] threading a state through a fallible body. *)
Fixpoint for_each {X St : Type} (body : St -> X -> result St) (xs : list X)
  (st : St) : result St :=
  match xs with
  | [] => Ok st
  | x :: xs' => do st' <- body st x; for_each body xs' st'
  end.

(** [reversed(range(n))]. *)
Definition reversed_range (n : nat) : list nat := rev (seq 0 n).

(** [xs[i]] on a Python list or one-dimensional array. *)
Definition index {X : Type} (xs : list X) (i : nat) : result X :=
  match xs !! i with
  | Some x => Ok x
  | None => Raise IndexError
  end.

(** An item read back from [np.array(xs)] when [xs] holds [bytes]: the
    array has a fixed-width bytes dtype, and an item read from it has lost
    every trailing NUL byte. *)
Fixpoint np_bytes_item (s : string) : string :=
  match s with
  | EmptyString => EmptyString
  | String c s' =>
      match np_bytes_item s' with
      | EmptyString =>
          if Ascii.eqb c Ascii.zero then EmptyString
          else String c EmptyString
      | String _ _ as rest => String c rest
      end
  end.

(** [np.array(xs)] for a list of [bytes], as the list of the items read
    back from it. *)
Definition np_array_bytes (xs : list string) : list string :=
  np_bytes_item <$> xs.

(** Element-wise [a op b] on one-dimensional arrays, with numpy
    broadcasting of an array of one entry. *)
Definition array_op (f : Qc -> Qc -> Qc) (a b : list Qc)
  : result (list Qc) :=
  if (length a =? length b)%nat then Ok (zip_with f a b)
  else match a, b with
       | [x], _ => Ok (f x <$> b)
       | _, [y] => Ok ((fun x => f x y) <$> a)
       | _, _ => Raise ValueError
       end.

(** [w += x] on an array [w]: the sum must have the shape of [w]. *)
Definition array_iadd (w x : list Qc) : result (list Qc) :=
  do r <- array_op Qcplus w x;
  if (length r =? length w)%nat then Ok r else Raise ValueError.

(** ** Feature vectors of the linear-approximation agents *)

(** [np.frombuffer(state, dtype=np.uint8, count=-1)]. *)
Definition frombuffer (state : string) : list Qc :=
  map (fun c => of_nat (Ascii.nat_of_ascii c))
      (String.list_ascii_of_string state).

(** [np.mean(arr)] (on an empty slice numpy gives [nan], which the
    rationals do not have; the quotient by zero is [0] here). *)
Definition np_mean (arr : list Qc) : Qc :=
  sum_list_Qc arr / of_nat (length arr).

Definition np_count_nonzero (arr : list Qc) : Qc :=
  of_nat (length (List.filter (fun x => negb (Qc_eqb x 0)) arr)).

(** [np.dot(a, b)] on one-dimensional arrays. *)
Definition np_dot (a b : list Qc) : result Qc :=
  if negb (length a =? length b)%nat then Raise ValueError
  else Ok (sum_list_Qc (zip_with Qcmult a b)).

(** The body shared by [createFeature] and [get_features]. The fitted
    [StandardScaler] is represented by its [transform] method. *)
Definition feature_vector (transform : list Qc -> result (list Qc))
  (feat_type : string) (state : string) (action : nat) : result (list Qc) :=
  if String.eqb feat_type "all" then
    do feat_state <- transform (frombuffer state);
    Ok (feat_state ++ [of_nat action; 1])
  else if String.eqb feat_type "mean" then
    let st := frombuffer state in
    let feat_state :=
      take 2 st ++ [np_mean (drop 2 st); np_count_nonzero (drop 2 st)] in
    do feat_state <- transform feat_state;
    Ok (feat_state ++ [of_nat action; 1])
  else Raise UnboundLocalError.

(** [StandardScaler(with_mean=False)] before [fit]. *)
Definition unfitted_scaler : list Qc -> result (list Qc) :=
  fun _ => Raise NotFittedError.

(** [[f(a) for a in range(n)]] for a fallible [f]. *)
Definition comprehension {X : Type} (f : nat -> result X) (n : nat)
  : result (list X) :=
  for_each (fun acc a => do x <- f a; Ok (acc ++ [x])) (seq 0 n) [].

(** [Nsa[state][action] += 1] on the nested [defaultdict]. *)
Definition incr_Nsa (nsa : gmap string (gmap nat nat)) (state : string)
  (action : nat) : gmap string (gmap nat nat) :=
  let '(inner, nsa1) := dd_get ∅ nsa state in
  let '(n, inner1) := dd_get_nat inner action in
  <[state := <[action := S n]> inner1]> nsa1.

(** Reading [Nsa[state][action]] without creating, used in statements. *)
Definition Nsa_peek (nsa : gmap string (gmap nat nat)) (state : string)
  (action : nat) : nat :=
  default 0%nat (peek ∅ nsa state !! action).

(** Reading [Q[state][action]] without creating, used in statements. *)
Definition Q_peek (n : nat) (q : gmap string (list Qc)) (state : string)
  (action : nat) : option Qc :=
  peek (np_zeros n) q state !! action.

(** Modelled from the spec: the episode container consumed by
    [MonteCarloControl.update_policy] of [freeway/src/agents.py]; its
    class is not part of the agents files. It exposes the ordered
    sequences [S], [A], [R], a [length] and the two summaries returned by
    [get_final_score()] and [get_total_reward()]. *)
Module Episode.
Record t : Type := mk {
  S : list string;
  A : list nat;
  R : list Qc;
  length : nat;
  get_final_score : Qc;
  get_total_reward : Qc
}.
End Episode.

(** Modelled from the spec: the episode container consumed by
    [MonteCarloControl.update_policy] of
    [marianna/project01-rl/src/agents.py]: iterating it yields the
    transitions [(state, action, reward, next_state)]. *)
Module Transitions.
Record t : Type := mk {
  items : list (string * nat * Qc * string);
  length : nat;
  get_final_score : Qc;
  get_total_reward : Qc
}.
End Transitions.

(** ** freeway/src/agents.py *)

Module Freeway.

(** *** class MonteCarloControl *)

Module MonteCarloControl.

Record agent : Type := mk {
  gamma : Qc;
  available_actions : nat;
  N0 : Qc;
  Q : gmap string (list Qc);
  Nsa : gmap string (gmap nat nat);
  state_visits : gmap string nat;
  pi : gmap string nat
}.

(** The default factory of [pi]: [defaultdict(lambda: 1)  # Forward Bias]. *)
Definition pi_default : nat := 1.

Definition init (gamma : Qc) (available_actions : nat) (N0 : Qc) : agent :=
  mk gamma available_actions N0 ∅ ∅ ∅ ∅.

Definition act (self : agent) (state : string) (rnd : draws)
  : result (nat * agent) :=
  let '(visits, sv) := dd_get 0%nat (state_visits self) state in
  do epsilon <- py_div (N0 self) (N0 self + of_nat visits);
  do c <- choice_p 2 [1 - epsilon; epsilon] (u rnd);
  do (action, pi') <-
    (if negb (c =? 0)%nat then
       do a <- choice_int (available_actions self) (k rnd);
       Ok (a, pi self)
     else Ok (dd_get pi_default (pi self) state));
  Ok (action,
      mk (gamma self) (available_actions self) (N0 self) (Q self)
         (Nsa self) sv pi').

(** One iteration of the loop of [update_policy], at time [t]; the arrays
    [S], [A], [R] built by [np.array] hold the entries of the episode, the
    states as they are read back from a bytes array. *)
Definition update_step (episode : Episode.t) (st : Qc * agent) (t : nat)
  : result (Qc * agent) :=
  let '(G, self) := st in
  do s_t <- index (np_array_bytes (Episode.S episode)) t;
  let '(visits, sv) := dd_get 0%nat (state_visits self) s_t in
  let sv' := <[s_t := S visits]> sv in
  do a_t <- index (Episode.A episode) t;
  let nsa' := incr_Nsa (Nsa self) s_t a_t in
  do alpha <- py_div 1 (of_nat (Nsa_peek nsa' s_t a_t));
  do r <- index (Episode.R episode) (t + 1);
  let G := gamma self * G + r in
  let '(row, q1) := dd_get (np_zeros (available_actions self))
                           (Q self) s_t in
  do cur <- getitem row a_t;
  do row' <- setitem row a_t (cur + alpha * (G - cur));
  do best <- np_argmax row';
  Ok (G, mk (gamma self) (available_actions self) (N0 self)
            (<[s_t := row']> q1) nsa' sv' (<[s_t := best]> (pi self))).

Definition update_policy (self : agent) (episode : Episode.t)
  : result (Qc * Qc * agent) :=
  do (_, self') <-
    for_each (update_step episode)
             (reversed_range (Episode.length episode - 1)) (0, self);
  Ok (Episode.get_final_score episode, Episode.get_total_reward episode,
      self').

End MonteCarloControl.

(** *** class Baseline *)

Module Baseline.

Definition act (state : string) : nat := 1.

End Baseline.

(** *** class MonteCarloControlFixedEpsilon *)

Module MonteCarloControlFixedEpsilon.

Record agent : Type := mk {
  gamma : Qc;
  available_actions : nat;
  epsilon : Qc;
  Q : gmap string (list Qc);
  Nsa : gmap string (gmap nat nat);
  state_visits : gmap string nat;
  pi : gmap string nat
}.

Definition pi_default : nat := 1.

Definition init (gamma : Qc) (available_actions : nat) (epsilon : Qc)
  : agent :=
  mk gamma available_actions epsilon ∅ ∅ ∅ ∅.

Definition act (self : agent) (state : string) (rnd : draws)
  : result (nat * agent) :=
  do c <- choice_p 2 [1 - epsilon self; epsilon self] (u rnd);
  do (action, pi') <-
    (if negb (c =? 0)%nat then
       do a <- choice_int (available_actions self) (k rnd);
       Ok (a, pi self)
     else Ok (dd_get pi_default (pi self) state));
  Ok (action,
      mk (gamma self) (available_actions self) (epsilon self) (Q self)
         (Nsa self) (state_visits self) pi').

(** One iteration of the loop of [update_policy], at time [t]; the
    states are read back from [np.array(episode.S)]. *)
Definition update_step (episode : Episode.t) (st : Qc * agent) (t : nat)
  : result (Qc * agent) :=
  let '(G, self) := st in
  do s_t <- index (np_array_bytes (Episode.S episode)) t;
  let '(visits, sv) := dd_get 0%nat (state_visits self) s_t in
  let sv' := <[s_t := S visits]> sv in
  do a_t <- index (Episode.A episode) t;
  let nsa' := incr_Nsa (Nsa self) s_t a_t in
  do alpha <- py_div 1 (of_nat (Nsa_peek nsa' s_t a_t));
  do r <- index (Episode.R episode) (t + 1);
  let G := gamma self * G + r in
  let '(row, q1) := dd_get (np_zeros (available_actions self))
                           (Q self) s_t in
  do cur <- getitem row a_t;
  do row' <- setitem row a_t (cur + alpha * (G - cur));
  do best <- np_argmax row';
  Ok (G, mk (gamma self) (available_actions self) (epsilon self)
            (<[s_t := row']> q1) nsa' sv' (<[s_t := best]> (pi self))).

Definition update_policy (self : agent) (episode : Episode.t)
  : result (Qc * Qc * agent) :=
  do (_, self') <-
    for_each (update_step episode)
             (reversed_range (Episode.length episode - 1)) (0, self);
  Ok (Episode.get_final_score episode, Episode.get_total_reward episode,
      self').

End MonteCarloControlFixedEpsilon.

(** *** class QLearning *)

Module QLearning.

Record agent : Type := mk {
  gamma : Qc;
  available_actions : nat;
  N0 : Qc;
  Q : gmap string (list Qc);
  state_visits : gmap string nat;
  Nsa : gmap string (gmap nat nat)
}.

Definition init (gamma : Qc) (available_actions : nat) (N0 : Qc) : agent :=
  mk gamma available_actions N0 ∅ ∅ ∅.

Definition act (self : agent) (state : string) (rnd : draws)
  : result (nat * agent) :=
  let '(visits, sv) := dd_get 0%nat (state_visits self) state in
  do epsilon <- py_div (N0 self) (N0 self + of_nat visits);
  do c <- choice_p 2 [1 - epsilon; epsilon] (u rnd);
  do (action, q) <-
    (if negb (c =? 0)%nat then
       do a <- choice_int (available_actions self) (k rnd);
       Ok (a, Q self)
     else
       let '(row, q1) := dd_get (np_zeros (available_actions self))
                                (Q self) state in
       let greedy := (do a <- np_argmax row; Ok (a, q1)) in
       do mx <- np_max row;
       if Qc_eqb mx 0 then
         do mn <- np_min row;
         if Qc_eqb mn 0 then Ok (1%nat, q1) else greedy
       else greedy);
  let sv' := <[state := S visits]> sv in
  let nsa' := incr_Nsa (Nsa self) state action in
  Ok (action,
      mk (gamma self) (available_actions self) (N0 self) q sv' nsa').

Definition update_Q (self : agent) (old_state new_state : string)
  (action : nat) (reward : Qc) : result agent :=
  let '(inner, nsa1) := dd_get ∅ (Nsa self) old_state in
  let '(n, inner1) := dd_get_nat inner action in
  let nsa' := <[old_state := inner1]> nsa1 in
  do alpha <- py_div 1 (of_nat n);
  let '(row_old, q1) := dd_get (np_zeros (available_actions self))
                               (Q self) old_state in
  do cur <- getitem row_old action;
  let '(row_new, q2) := dd_get (np_zeros (available_actions self))
                               q1 new_state in
  do mx <- np_max row_new;
  do cur' <- getitem row_old action;
  do row_old' <-
    setitem row_old action (cur + alpha * (reward + gamma self * mx - cur'));
  Ok (mk (gamma self) (available_actions self) (N0 self)
         (<[old_state := row_old']> q2) (state_visits self) nsa').

End QLearning.

(** *** class QLearningLinearApprox *)

Module QLearningLinearApprox.

Record agent : Type := mk {
  alpha : Qc;
  gamma : Qc;
  available_actions : nat;
  N0 : Qc;
  fixed_alpha : bool;
  feat_type : string;
  W : list Qc;
  state_visits : gmap string nat;
  Nsa : gmap string (gmap nat nat);
  scaler : list Qc -> result (list Qc)
}.

Definition init (alpha gamma : Qc) (available_actions : nat) (N0 : Qc)
  (weights_length : nat) (fixed_alpha : bool) (feat_type : string) : agent :=
  mk alpha gamma available_actions N0 fixed_alpha feat_type
     (np_zeros (weights_length + 2)) ∅ ∅ unfitted_scaler.

Definition createFeature (self : agent) (state : string) (action : nat)
  : result (list Qc) :=
  feature_vector (scaler self) (feat_type self) state action.

Definition getApproximation (self : agent) (state : string) (action : nat)
  : result Qc :=
  do feature <- createFeature self state action;
  np_dot feature (W self).

Definition act (self : agent) (state : string) (rnd : draws)
  : result (nat * agent) :=
  let '(visits, sv) := dd_get 0%nat (state_visits self) state in
  do epsilon <- py_div (N0 self) (N0 self + of_nat visits);
  do c <- choice_p (available_actions self) [1 - epsilon; epsilon] (u rnd);
  do action <-
    (if negb (c =? 0)%nat then choice_int (available_actions self) (k rnd)
     else if (visits =? 0)%nat then Ok 1%nat
     else
       do approx <- comprehension (getApproximation self state)
                                  (available_actions self);
       np_argmax approx);
  let sv' := <[state := S visits]> sv in
  let nsa' := incr_Nsa (Nsa self) state action in
  Ok (action,
      mk (alpha self) (gamma self) (available_actions self) (N0 self)
         (fixed_alpha self) (feat_type self) (W self) sv' nsa'
         (scaler self)).

Definition update_W (self : agent) (old_state new_state : string)
  (action : nat) (reward : Qc) : result agent :=
  do (alpha', nsa') <-
    (if fixed_alpha self then Ok (alpha self, Nsa self)
     else
       let '(inner, nsa1) := dd_get ∅ (Nsa self) old_state in
       let '(n, inner1) := dd_get_nat inner action in
       do a <- py_div 1 (of_nat n);
       Ok (a, <[old_state := inner1]> nsa1));
  do approx <- comprehension (getApproximation self new_state)
                             (available_actions self);
  do max_value <- np_max approx;
  do q_old <- getApproximation self old_state action;
  do feature <- createFeature self old_state action;
  let scale := alpha' * (reward + gamma self * max_value - q_old) in
  do w' <- array_op Qcplus (W self) (Qcmult scale <$> feature);
  Ok (mk (alpha self) (gamma self) (available_actions self) (N0 self)
         (fixed_alpha self) (feat_type self) w' (state_visits self) nsa'
         (scaler self)).

End QLearningLinearApprox.

(** *** class SarsaLFAADAM *)

Module SarsaLFAADAM.

(** The moment accumulators [m] and [v] start as the Python number [0]
    and become arrays once a gradient array has been added to them. *)
Inductive ndarray : Type :=
| Scalar (x : Qc)
| Array (xs : list Qc).

Definition nd_map (f : Qc -> Qc) (a : ndarray) : ndarray :=
  match a with
  | Scalar x => Scalar (f x)
  | Array xs => Array (map f xs)
  end.

(** Element-wise binary operations with numpy broadcasting. *)
Definition nd_op (f : Qc -> Qc -> Qc) (a b : ndarray) : result ndarray :=
  match a, b with
  | Scalar x, Scalar y => Ok (Scalar (f x y))
  | Scalar x, Array ys => Ok (Array (map (f x) ys))
  | Array xs, Scalar y => Ok (Array (map (fun x => f x y) xs))
  | Array xs, Array ys =>
      if (length xs =? length ys)%nat then Ok (Array (zip_with f xs ys))
      else match xs, ys with
           | [x], _ => Ok (Array (map (f x) ys))
           | _, [y] => Ok (Array (map (fun x => f x y) xs))
           | _, _ => Raise ValueError
           end
  end.

Record agent : Type := mk {
  gamma : Qc;
  available_actions : nat;
  N0 : Qc;
  alpha : Qc;
  lamb : Qc;
  weights : list Qc;
  scaler : list Qc -> result (list Qc);
  state_visits : gmap string nat;
  feat_type : string;
  m : ndarray;
  v : ndarray;
  beta_1 : Qc;
  beta_2 : Qc;
  epsilon : Qc
}.

(** [self.alpha = x]. *)
Definition set_alpha (self : agent) (x : Qc) : agent :=
  mk (gamma self) (available_actions self) (N0 self) x
     (lamb self) (weights self) (scaler self) (state_visits self)
     (feat_type self) (m self) (v self) (beta_1 self) (beta_2 self)
     (epsilon self).

(** [rand] is the array returned by [np.random.rand(2 + state_size)].
    The record is built with [self.alpha = alpha]; the assignment
    [self.alpha = 0.001] of the Adam block follows. The other literals are
    [0.9], [0.999] and [10e-5]. *)
Definition init (gamma : Qc) (state_size : nat) (available_actions : nat)
  (N0 : Qc) (alpha : Qc) (lamb : Qc) (rand : list Qc) : agent :=
  let self := mk gamma available_actions N0 alpha lamb rand unfitted_scaler
                 ∅ "all" (Scalar 0) (Scalar 0)
                 (Q2Qc (9 # 10)) (Q2Qc (999 # 1000)) (Q2Qc (10 # 100000)) in
  set_alpha self (Q2Qc (1 # 1000)).

Definition set_moments (self : agent) (m' v' : ndarray) : agent :=
  mk (gamma self) (available_actions self) (N0 self) (alpha self)
     (lamb self) (weights self) (scaler self) (state_visits self)
     (feat_type self) m' v' (beta_1 self) (beta_2 self) (epsilon self).

(** [trainScaler(env, mask, feat_type)] stores the mode and, in the two
    supported modes, fits the scaler on observations sampled from the
    environment. The samples are not part of the agents file: [fitted] is
    the [transform] of the scaler once fitted on them. *)
Definition trainScaler (self : agent)
  (fitted : list Qc -> result (list Qc)) (feat_type' : string) : agent :=
  mk (gamma self) (available_actions self) (N0 self) (alpha self)
     (lamb self) (weights self)
     (if String.eqb feat_type' "all" || String.eqb feat_type' "mean"
      then fitted else scaler self)
     (state_visits self) feat_type' (m self) (v self) (beta_1 self)
     (beta_2 self) (epsilon self).

Section Adam.

(** [np.sqrt] on one number; the rationals have no square root, so it is
    a parameter of the model. *)
Variable np_sqrt : Qc -> Qc.

(** The two moment updates of [adam]. *)
Definition adam_moments (self : agent) (g : ndarray)
  : result (ndarray * ndarray) :=
  do m' <- nd_op Qcplus (nd_map (Qcmult (beta_1 self)) (m self))
                        (nd_map (Qcmult (1 - beta_1 self)) g);
  do v' <- nd_op Qcplus (nd_map (Qcmult (beta_2 self)) (v self))
                        (nd_map (Qcmult (1 - beta_2 self))
                                (nd_map (fun x => x ^ 2) g));
  Ok (m', v').

(** [np.sqrt(v_hat) + self.epsilon]. *)
Definition adam_denominator (self : agent) (v_hat : ndarray) : ndarray :=
  nd_map (fun x => x + epsilon self) (nd_map np_sqrt v_hat).

(** [t] is the update step count. At [t = 0] the two bias corrections
    divide by [1 - 1]: numpy answers [inf] or [nan] without raising, the
    rationals answer [0]. *)
Definition adam (self : agent) (g : ndarray) (t : nat)
  : result (ndarray * agent) :=
  do (m', v') <- adam_moments self g;
  let self := set_moments self m' v' in
  let m_hat := nd_map (fun x => x / (1 - beta_1 self ^ t)) (m self) in
  let v_hat := nd_map (fun x => x / (1 - beta_2 self ^ t)) (v self) in
  do step <- nd_op Qcdiv (nd_map (Qcmult (alpha self)) m_hat)
                         (adam_denominator self v_hat);
  Ok (step, self).

End Adam.

Definition get_features (self : agent) (state : string) (action : nat)
  : result (list Qc) :=
  feature_vector (scaler self) (feat_type self) state action.

Definition qw (self : agent) (state : string) (action : nat) : result Qc :=
  do feature <- get_features self state action;
  np_dot feature (weights self).

Definition act (self : agent) (state : string) (rnd : draws)
  : result (nat * agent) :=
  let '(visits, sv) := dd_get 0%nat (state_visits self) state in
  do eps <- py_div (N0 self) (N0 self + of_nat visits);
  do c <- choice_p (available_actions self) [1 - eps; eps] (u rnd);
  do action <-
    (if negb (c =? 0)%nat then choice_int (available_actions self) (k rnd)
     else if (visits =? 0)%nat then Ok 1%nat
     else
       do approx <- comprehension (qw self state) (available_actions self);
       np_argmax approx);
  let sv' := <[state := S visits]> sv in
  Ok (action,
      mk (gamma self) (available_actions self) (N0 self) (alpha self)
         (lamb self) (weights self) (scaler self) sv' (feat_type self)
         (m self) (v self) (beta_1 self) (beta_2 self) (epsilon self)).

(** [E] is passed on to [adam] as its step count. *)
Definition update (np_sqrt : Qc -> Qc) (self : agent) (old_s new_s : string)
  (old_a new_a : nat) (reward : Qc) (E : nat) : result agent :=
  do q_new <- qw self new_s new_a;
  do q_old <- qw self old_s old_a;
  let delta := reward + gamma self * q_new - q_old in
  do g <- get_features self new_s new_a;
  do (step, self) <- adam np_sqrt self (Array g) E;
  do x <- nd_op Qcminus (nd_map (Qcmult delta) step)
                        (Array (Qcmult (lamb self) <$> weights self));
  do w' <- (match x with
            | Scalar y => array_iadd (weights self) [y]
            | Array ys => array_iadd (weights self) ys
            end);
  Ok (mk (gamma self) (available_actions self) (N0 self) (alpha self)
         (lamb self) w' (scaler self) (state_visits self) (feat_type self)
         (m self) (v self) (beta_1 self) (beta_2 self) (epsilon self)).

End SarsaLFAADAM.

(** *** class SarsaLambda *)

Module SarsaLambda.

(** The trace table [E] is iterated by [update_Q], so it keeps the
    insertion order of a Python dictionary. *)
Definition traces : Type := list (string * list Qc).

Fixpoint E_lookup (e : traces) (s : string) : option (list Qc) :=
  match e with
  | [] => None
  | (s', row) :: e' => if String.eqb s' s then Some row else E_lookup e' s
  end.

(** [E[s] = row]: an existing key keeps its place, a new one goes last. *)
Fixpoint E_store (e : traces) (s : string) (row : list Qc) : traces :=
  match e with
  | [] => [(s, row)]
  | (s', row') :: e' =>
      if String.eqb s' s then (s', row) :: e'
      else (s', row') :: E_store e' s row
  end.

Record agent : Type := mk {
  gamma : Qc;
  available_actions : nat;
  N0 : Qc;
  lambd : Qc;
  Q : gmap string (list Qc);
  state_visits : gmap string nat;
  Nsa : gmap string (gmap nat nat);
  E : traces
}.

Definition init (gamma : Qc) (available_actions : nat) (N0 : Qc)
  (lambd : Qc) : agent :=
  mk gamma available_actions N0 lambd ∅ ∅ ∅ [].

Definition act (self : agent) (state : string) (rnd : draws)
  : result (nat * agent) :=
  let '(visits, sv) := dd_get 0%nat (state_visits self) state in
  do epsilon <- py_div (N0 self) (N0 self + of_nat visits);
  do c <- choice_p 2 [1 - epsilon; epsilon] (u rnd);
  do (action, q) <-
    (if negb (c =? 0)%nat then
       do a <- choice_int (available_actions self) (k rnd);
       Ok (a, Q self)
     else
       let '(row, q1) := dd_get (np_zeros (available_actions self))
                                (Q self) state in
       let greedy := (do a <- np_argmax row; Ok (a, q1)) in
       do mx <- np_max row;
       if Qc_eqb mx 0 then
         do mn <- np_min row;
         if Qc_eqb mn 0 then Ok (1%nat, q1) else greedy
       else greedy);
  let sv' := <[state := S visits]> sv in
  let nsa' := incr_Nsa (Nsa self) state action in
  let e_row := default (np_zeros (available_actions self))
                       (E_lookup (E self) state) in
  do e_cur <- getitem e_row action;
  do e_row' <- setitem e_row action (e_cur + 1);
  Ok (action,
      mk (gamma self) (available_actions self) (N0 self) (lambd self)
         q sv' nsa' (E_store (E self) state e_row')).

(** [self.Q[s][a] += x]. *)
Definition Q_iadd (n : nat) (q : gmap string (list Qc)) (s : string)
  (a : nat) (x : Qc) : result (gmap string (list Qc)) :=
  let '(row, q1) := dd_get (np_zeros n) q s in
  do cur <- getitem row a;
  do row' <- setitem row a (cur + x);
  Ok (<[s := row']> q1).

(** The body of the inner loop of [update_Q], on the row [E[s]]. *)
Definition trace_body (self : agent) (alpha delta : Qc)
  (old_s : string) (old_a : nat)
  (st : gmap string (list Qc) * list Qc) (a : nat)
  : result (gmap string (list Qc) * list Qc) :=
  let '(q, e_row) := st in
  do e_sa <- getitem e_row a;
  do q' <- Q_iadd (available_actions self) q old_s old_a
                  (alpha * delta * e_sa);
  do e_sa' <- getitem e_row a;
  do e_row' <- setitem e_row a (gamma self * lambd self * e_sa');
  Ok (q', e_row').

(** The body of the outer loop of [update_Q], on one key of [E]. *)
Definition state_body (self : agent) (alpha delta : Qc)
  (old_s : string) (old_a : nat)
  (st : gmap string (list Qc) * traces) (entry : string * list Qc)
  : result (gmap string (list Qc) * traces) :=
  let '(q, done) := st in
  let '(s, e_row) := entry in
  do (q', e_row') <-
    for_each (trace_body self alpha delta old_s old_a)
             (seq 0 (available_actions self)) (q, e_row);
  Ok (q', done ++ [(s, e_row')]).

Definition update_Q (self : agent) (old_s new_s : string)
  (old_a new_a : nat) (reward : Qc) : result agent :=
  let '(row_new, q1) := dd_get (np_zeros (available_actions self))
                               (Q self) new_s in
  do q_new <- getitem row_new new_a;
  let '(row_old, q2) := dd_get (np_zeros (available_actions self))
                               q1 old_s in
  do q_old <- getitem row_old old_a;
  let delta := reward + gamma self * q_new - q_old in
  let '(inner, nsa1) := dd_get ∅ (Nsa self) old_s in
  let '(n, inner1) := dd_get_nat inner old_a in
  let nsa' := <[old_s := inner1]> nsa1 in
  do alpha <- py_div 1 (of_nat n);
  do (q', e') <-
    for_each (state_body self alpha delta old_s old_a) (E self) (q2, []);
  Ok (mk (gamma self) (available_actions self) (N0 self) (lambd self)
         q' (state_visits self) nsa' e').

Definition reset_E (self : agent) : agent :=
  mk (gamma self) (available_actions self) (N0 self) (lambd self)
     (Q self) (state_visits self) (Nsa self) [].

End SarsaLambda.

(** *** class SarsaLFA *)

Module SarsaLFA.

Record agent : Type := mk {
  gamma : Qc;
  available_actions : nat;
  N0 : Qc;
  alpha : Qc;
  lamb : Qc;
  weights : list Qc;
  scaler : list Qc -> result (list Qc);
  state_visits : gmap string nat;
  feat_type : string
}.

(** [rand] is the array returned by [np.random.rand(2 + state_size)]. *)
Definition init (gamma : Qc) (state_size : nat) (available_actions : nat)
  (N0 : Qc) (alpha : Qc) (lamb : Qc) (rand : list Qc) : agent :=
  mk gamma available_actions N0 alpha lamb rand unfitted_scaler ∅ "all".

Definition get_features (self : agent) (state : string) (action : nat)
  : result (list Qc) :=
  feature_vector (scaler self) (feat_type self) state action.

Definition qw (self : agent) (state : string) (action : nat) : result Qc :=
  do feature <- get_features self state action;
  np_dot feature (weights self).

Definition act (self : agent) (state : string) (rnd : draws)
  : result (nat * agent) :=
  let '(visits, sv) := dd_get 0%nat (state_visits self) state in
  do epsilon <- py_div (N0 self) (N0 self + of_nat visits);
  do c <- choice_p (available_actions self) [1 - epsilon; epsilon] (u rnd);
  do action <-
    (if negb (c =? 0)%nat then choice_int (available_actions self) (k rnd)
     else if (visits =? 0)%nat then Ok 1%nat
     else
       do approx <- comprehension (qw self state) (available_actions self);
       np_argmax approx);
  let sv' := <[state := S visits]> sv in
  Ok (action,
      mk (gamma self) (available_actions self) (N0 self) (alpha self)
         (lamb self) (weights self) (scaler self) sv' (feat_type self)).

(** The argument [E] of the source is not used. *)
Definition update (self : agent) (old_s new_s : string)
  (old_a new_a : nat) (reward : Qc) : result agent :=
  do q_new <- qw self new_s new_a;
  do q_old <- qw self old_s old_a;
  let delta := reward + gamma self * q_new - q_old in
  do feature <- get_features self new_s new_a;
  do x <- array_op Qcminus (Qcmult (alpha self * delta) <$> feature)
                           (Qcmult (lamb self) <$> weights self);
  do w' <- array_iadd (weights self) x;
  Ok (mk (gamma self) (available_actions self) (N0 self) (alpha self)
         (lamb self) w' (scaler self) (state_visits self) (feat_type self)).

End SarsaLFA.

End Freeway.

(** ** marianna/project01-rl/src/agents.py *)

Module Marianna.

(** *** class MonteCarloControl *)

Module MonteCarloControl.

Record agent : Type := mk {
  gamma : Qc;
  available_actions : nat;
  Q : gmap string (list Qc);
  Returns : gmap string (gmap nat (list Qc));
  pi : gmap string nat;
  N0 : Qc
}.

Definition pi_default : nat := 1.

Definition init (gamma : Qc) (available_actions : nat) (N0 : Qc) : agent :=
  mk gamma available_actions ∅ ∅ ∅ N0.

(** [sum([len(v) for k, v in self.Returns[state].items()])]. *)
Definition visits_on_state (returns : gmap nat (list Qc)) : nat :=
  map_fold (fun _ v acc => (acc + length v)%nat) 0%nat returns.

Definition act (self : agent) (state : string) (rnd : draws)
  : result (nat * agent) :=
  let '(inner, returns) := dd_get ∅ (Returns self) state in
  do epsilon <- py_div (N0 self) (N0 self + of_nat (visits_on_state inner));
  do c <- choice_p (available_actions self) [1 - epsilon; epsilon] (u rnd);
  do (action, pi') <-
    (if negb (c =? 0)%nat then
       do a <- choice_int (available_actions self) (k rnd);
       Ok (a, pi self)
     else Ok (dd_get pi_default (pi self) state));
  Ok (action,
      mk (gamma self) (available_actions self) (Q self) returns pi'
         (N0 self)).

(** One iteration of the loop of [update_policy], at time [t]; [S], [A]
    and [R] are the three projections of the transitions, the states as
    they are read back from the bytes array [S]. *)
Definition update_step (episode : Transitions.t) (st : Qc * agent) (t : nat)
  : result (Qc * agent) :=
  let '(G, self) := st in
  let S_ :=
    np_array_bytes ((fun tr => tr.1.1.1) <$> Transitions.items episode) in
  let A_ := (fun tr => tr.1.1.2) <$> Transitions.items episode in
  let R_ := (fun tr => tr.1.2) <$> Transitions.items episode in
  do r <- index R_ (t + 1);
  let G := gamma self * G + r in
  do s_t <- index S_ t;
  let '(inner, returns1) := dd_get ∅ (Returns self) s_t in
  do a_t <- index A_ t;
  let collected := default [] (inner !! a_t) ++ [G] in
  let returns' := <[s_t := <[a_t := collected]> inner]> returns1 in
  do mean <- py_div (sum_list_Qc collected) (of_nat (length collected));
  let '(row, q1) := dd_get (np_zeros (available_actions self))
                           (Q self) s_t in
  do row' <- setitem row a_t mean;
  do best <- np_argmax row';
  Ok (G, mk (gamma self) (available_actions self) (<[s_t := row']> q1)
            returns' (<[s_t := best]> (pi self)) (N0 self)).

Definition update_policy (self : agent) (episode : Transitions.t)
  : result (Qc * Qc * agent) :=
  do (_, self') <-
    for_each (update_step episode)
             (reversed_range (Transitions.length episode - 1)) (0, self);
  Ok (Transitions.get_final_score episode,
      Transitions.get_total_reward episode, self').

End MonteCarloControl.

(** *** class QLearning *)

Module QLearning.

Record agent : Type := mk {
  gamma : Qc;
  available_actions : nat;
  N0 : Qc;
  Q : gmap string (list Qc);
  state_visits : gmap string nat;
  Nsa : gmap string (gmap nat nat)
}.

Definition init (gamma : Qc) (available_actions : nat) (N0 : Qc) : agent :=
  mk gamma available_actions N0 ∅ ∅ ∅.

Definition act (self : agent) (state : string) (rnd : draws)
  : result (nat * agent) :=
  let '(visits, sv) := dd_get 0%nat (state_visits self) state in
  do epsilon <- py_div (N0 self) (N0 self + of_nat visits);
  do c <- choice_p (available_actions self) [1 - epsilon; epsilon] (u rnd);
  do (action, q) <-
    (if negb (c =? 0)%nat then
       do a <- choice_int (available_actions self) (k rnd);
       Ok (a, Q self)
     else
       let '(row, q1) := dd_get (np_zeros (available_actions self))
                                (Q self) state in
       let greedy := (do a <- np_argmax row; Ok (a, q1)) in
       do mx <- np_max row;
       if Qc_eqb mx 0 then
         do mn <- np_min row;
         if Qc_eqb mn 0 then Ok (1%nat, q1) else greedy
       else greedy);
  let sv' := <[state := S visits]> sv in
  let nsa' := incr_Nsa (Nsa self) state action in
  Ok (action,
      mk (gamma self) (available_actions self) (N0 self) q sv' nsa').

Definition update_Q (self : agent) (old_state new_state : string)
  (action : nat) (reward : Qc) : result agent :=
  let '(inner, nsa1) := dd_get ∅ (Nsa self) old_state in
  let '(n, inner1) := dd_get_nat inner action in
  let nsa' := <[old_state := inner1]> nsa1 in
  do alpha <- py_div 1 (of_nat n);
  let '(row_old, q1) := dd_get (np_zeros (available_actions self))
                               (Q self) old_state in
  do cur <- getitem row_old action;
  let '(row_new, q2) := dd_get (np_zeros (available_actions self))
                               q1 new_state in
  do mx <- np_max row_new;
  do cur' <- getitem row_old action;
  do row_old' <-
    setitem row_old action (cur + alpha * (reward + gamma self * mx - cur'));
  Ok (mk (gamma self) (available_actions self) (N0 self)
         (<[old_state := row_old']> q2) (state_visits self) nsa').

End QLearning.

End Marianna.

(** * Vocabulary of the statements *)

(** Every stored row has one entry per action. *)
Definition rows_ok (n : nat) (q : gmap string (list Qc)) : Prop :=
  forall s row, q !! s = Some row -> length row = n.

(** The Q-learning rule relating the table [q] before [update_Q] to the
    table [q'] after it: the entry of [(old_state, action)] moves by
    [alpha * (reward + gamma * max_a Q[new_state][a] - Q[old_state][action])]
    with [alpha = 1 / Nsa[old_state][action]], and no other entry changes. *)
Definition q_learning_rule (gamma : Qc) (n : nat)
  (q q' : gmap string (list Qc)) (nsa : gmap string (gmap nat nat))
  (old_state new_state : string) (action : nat) (reward : Qc) : Prop :=
  exists q_old mx,
    Q_peek n q old_state action = Some q_old /\
    np_max (peek (np_zeros n) q new_state) = Ok mx /\
    Q_peek n q' old_state action =
      Some (q_old + 1 / of_nat (Nsa_peek nsa old_state action)
                    * (reward + gamma * mx - q_old)) /\
    forall s a, (s, a) <> (old_state, action) ->
                Q_peek n q' s a = Q_peek n q s a.

(** The fixed-point reading of the rule at [reward = 0], [gamma = 0],
    [new_state = old_state]. *)
Definition fixed_point_rule (n : nat) (q q' : gmap string (list Qc))
  (nsa : gmap string (gmap nat nat)) (old_state : string) (action : nat)
  : Prop :=
  exists q_old q_new,
    Q_peek n q old_state action = Some q_old /\
    Q_peek n q' old_state action = Some q_new /\
    q_new - q_old
      = 1 / of_nat (Nsa_peek nsa old_state action) * (0 - q_old) /\
    (q_new = q_old <-> q_old = 0) /\
    (0 < q_old -> 0 <= q_new /\ q_new < q_old) /\
    (q_old < 0 -> q_old < q_new /\ q_new <= 0).

(** A pair recorded once: [Nsa["s"][1] = 1]. *)
Definition recorded_once : gmap string (gmap nat nat) :=
  {[ "s" := {[ 1%nat := 1%nat ]} ]}.

(** A table whose entry [Q["s"][1]] is [4], recorded twice. *)
Definition table_with_four : gmap string (list Qc) :=
  {[ "s" := [0; Q2Qc 4; 0] ]}.

Definition recorded_twice : gmap string (gmap nat nat) :=
  {[ "s" := {[ 1%nat := 2%nat ]} ]}.

(** Reading [Returns[state][action]] without creating. *)
Definition Returns_peek (returns : gmap string (gmap nat (list Qc)))
  (state : string) (action : nat) : list Qc :=
  default [] (peek ∅ returns state !! action).

(** [epsilon = N0 / (N0 + visits)]. *)
Definition epsilon_of (N0 : Qc) (visits : nat) : Qc :=
  N0 / (N0 + of_nat visits).

(** The visit of [state] and of the pair [(state, action)] is counted
    exactly once, and no other counter moves. *)
Definition counted_once (sv sv' : gmap string nat)
  (nsa nsa' : gmap string (gmap nat nat)) (state : string) (action : nat)
  : Prop :=
  peek 0%nat sv' state = S (peek 0%nat sv state) /\
  Nsa_peek nsa' state action = S (Nsa_peek nsa state action) /\
  (forall s, s <> state -> peek 0%nat sv' s = peek 0%nat sv s) /\
  (forall s a, (s, a) <> (state, action) ->
     Nsa_peek nsa' s a = Nsa_peek nsa s a).

Definition visited_once (sv sv' : gmap string nat) (state : string) : Prop :=
  peek 0%nat sv' state = S (peek 0%nat sv state) /\
  (forall s, s <> state -> peek 0%nat sv' s = peek 0%nat sv s).

(** An agent that has seen ["s"] once and learnt nothing about it. *)
Definition seen_once : gmap string nat := {[ "s" := 1%nat ]}.

Definition raises {A : Type} (r : result A) : Prop :=
  exists e, r = Raise e.

Definition nd_all (P : Qc -> Prop) (a : Freeway.SarsaLFAADAM.ndarray)
  : Prop :=
  match a with
  | Freeway.SarsaLFAADAM.Scalar x => P x
  | Freeway.SarsaLFAADAM.Array xs => Forall P xs
  end.

(** A stand-in for [np.sqrt] on the rationals, exact on the squares of
    the integers: the integer square root of the integer part. *)
Definition sqrt_floor (x : Qc) : Qc := Q2Qc (inject_Z (Z.sqrt (Qfloor x))).

(** One SARSA transition on a fresh agent with [gamma = lambd = 1/2]:
    [act] in ["s"] draws action [0], [act] in ["t"] draws action [2], and
    the transition is learnt with reward [1]. *)
Definition sarsa_transition
  : result (Freeway.SarsaLambda.agent * Freeway.SarsaLambda.agent) :=
  let self := Freeway.SarsaLambda.init (Q2Qc (1 # 2)) 3 1 (Q2Qc (1 # 2)) in
  do (old_a, self) <- Freeway.SarsaLambda.act self "s" (Draws 0 0);
  do (new_a, before) <- Freeway.SarsaLambda.act self "t" (Draws 0 2);
  do after <- Freeway.SarsaLambda.update_Q before "s" "t" old_a new_a 1;
  Ok (before, after).

(** The fractions of a row, for comparison by computation. *)
Definition fractions (row : list Qc) : list Q := this <$> row.

(** ** Vocabulary of the further properties *)

(** The discounted sum [r0 + gamma * (r1 + gamma * (r2 + ...))]. *)
Fixpoint discounted_return (gamma : Qc) (rs : list Qc) : Qc :=
  match rs with
  | [] => 0
  | r :: rs' => r + gamma * discounted_return gamma rs'
  end.

(** The freeway view of a marianna episode: the three projections of its
    transitions. *)
Definition episode_of (tr : Transitions.t) : Episode.t :=
  Episode.mk ((fun x => x.1.1.1) <$> Transitions.items tr)
             ((fun x => x.1.1.2) <$> Transitions.items tr)
             ((fun x => x.1.2) <$> Transitions.items tr)
             (Transitions.length tr)
             (Transitions.get_final_score tr)
             (Transitions.get_total_reward tr).

(** A freeway agent and a marianna agent that have learnt the same: equal
    rows and policy, [Nsa] counting the returns collected, and every value
    with collected returns equal to their mean. *)
Definition copies_agree (f : Freeway.MonteCarloControl.agent)
  (m : Marianna.MonteCarloControl.agent) : Prop :=
  let n := Freeway.MonteCarloControl.available_actions f in
  Freeway.MonteCarloControl.gamma f = Marianna.MonteCarloControl.gamma m /\
  n = Marianna.MonteCarloControl.available_actions m /\
  rows_ok n (Freeway.MonteCarloControl.Q f) /\
  (forall s, peek (np_zeros n) (Freeway.MonteCarloControl.Q f) s
             = peek (np_zeros n) (Marianna.MonteCarloControl.Q m) s) /\
  Freeway.MonteCarloControl.pi f = Marianna.MonteCarloControl.pi m /\
  (forall s a, Nsa_peek (Freeway.MonteCarloControl.Nsa f) s a
               = length (Returns_peek (Marianna.MonteCarloControl.Returns m)
                                      s a)) /\
  (forall s a,
     Returns_peek (Marianna.MonteCarloControl.Returns m) s a <> [] ->
     Q_peek n (Marianna.MonteCarloControl.Q m) s a
     = Some (sum_list_Qc (Returns_peek (Marianna.MonteCarloControl.Returns m)
                                       s a)
             / of_nat (length (Returns_peek
                                 (Marianna.MonteCarloControl.Returns m) s a)))).

(** An episode that meets the pair [("a", 0)] twice. *)
Definition revisiting_episode : Transitions.t :=
  Transitions.mk
    [("a", 0%nat, Q2Qc 5, "b"); ("b", 1%nat, Q2Qc 7, "a");
     ("a", 0%nat, Q2Qc 4, "c"); ("c", 2%nat, Q2Qc 8, "d")]
    4 (Q2Qc 3) (Q2Qc 24).

(** An episode that comes back to the state ["a"] and takes another
    action there: no pair is met twice. *)
Definition returning_episode : Transitions.t :=
  Transitions.mk
    [("a", 0%nat, Q2Qc 5, "b"); ("b", 1%nat, Q2Qc 7, "a");
     ("a", 2%nat, Q2Qc 4, "c"); ("c", 2%nat, Q2Qc 8, "d")]
    4 (Q2Qc 3) (Q2Qc 24).

(** The [SarsaLFAADAM] agents a program can hold: one returned by the
    constructor, or one left by a call of [trainScaler], or by a returning
    call of [act], [adam] or [update], on such an agent. *)
Inductive constructed (np_sqrt : Qc -> Qc)
  : Freeway.SarsaLFAADAM.agent -> Prop :=
| constructed_init (gamma : Qc) (state_size n : nat) (N0 alpha lamb : Qc)
    (rand : list Qc) :
    constructed np_sqrt
      (Freeway.SarsaLFAADAM.init gamma state_size n N0 alpha lamb rand)
| constructed_trainScaler (self : Freeway.SarsaLFAADAM.agent)
    (fitted : list Qc -> result (list Qc)) (feat_type : string) :
    constructed np_sqrt self ->
    constructed np_sqrt
      (Freeway.SarsaLFAADAM.trainScaler self fitted feat_type)
| constructed_act (self self' : Freeway.SarsaLFAADAM.agent)
    (state : string) (rnd : draws) (action : nat) :
    constructed np_sqrt self ->
    Freeway.SarsaLFAADAM.act self state rnd = Ok (action, self') ->
    constructed np_sqrt self'
| constructed_adam (self self' : Freeway.SarsaLFAADAM.agent)
    (g step : Freeway.SarsaLFAADAM.ndarray) (t : nat) :
    constructed np_sqrt self ->
    Freeway.SarsaLFAADAM.adam np_sqrt self g t = Ok (step, self') ->
    constructed np_sqrt self'
| constructed_update (self self' : Freeway.SarsaLFAADAM.agent)
    (old_s new_s : string) (old_a new_a : nat) (reward : Qc) (E : nat) :
    constructed np_sqrt self ->
    Freeway.SarsaLFAADAM.update np_sqrt self old_s new_s old_a new_a reward E
    = Ok self' ->
    constructed np_sqrt self'.

(** Every entry of [pi] is the argmax of the row of its state. *)
Definition policy_greedy (self : Freeway.MonteCarloControl.agent) : Prop :=
  forall s b,
    Freeway.MonteCarloControl.pi self !! s = Some b ->
    np_argmax (peek (np_zeros
                       (Freeway.MonteCarloControl.available_actions self))
                    (Freeway.MonteCarloControl.Q self) s) = Ok b.

(** Every trace multiplied by [c]. *)
Definition decay_traces (c : Qc) (e : list (string * list Qc))
  : list (string * list Qc) :=
  (fun p : string * list Qc => (p.1, Qcmult c <$> p.2)) <$> e.

(** The sum of all traces. *)
Definition total_trace (e : list (string * list Qc)) : Qc :=
  sum_list_Qc ((fun p : string * list Qc => sum_list_Qc p.2) <$> e).

(** Every trace row has one entry per action. *)
Definition traces_ok (n : nat) (e : list (string * list Qc)) : Prop :=
  Forall (fun p : string * list Qc => length p.2 = n) e.

(** The table [q] with [Q[s][a]] set to [v]. *)
Definition credited (n : nat) (q : gmap string (list Qc)) (s : string)
  (a : nat) (v : Qc) : gmap string (list Qc) :=
  <[s := <[a := v]> (peek (np_zeros n) q s)]> q.

(** An agent with two live traces, [E["s"][0] = 1] and [E["t"][2] = 1/2],
    whose pair [("s", 0)] has been recorded twice. *)
Definition two_traces : Freeway.SarsaLambda.agent :=
  Freeway.SarsaLambda.mk (Q2Qc (1 # 2)) 3 1 (Q2Qc (1 # 2))
    {[ "s" := [Q2Qc 4; 0; 0] ]} ∅
    {[ "s" := {[ 0%nat := 2%nat ]} ]}
    [("s", [1; 0; 0]); ("t", [0; 0; Q2Qc (1 # 2)])].

(** An agent whose scaler has been fitted on data of unit variance
    ([StandardScaler(with_mean=False)] then divides by one). *)
Definition fitted_agent : Freeway.QLearningLinearApprox.agent :=
  Freeway.QLearningLinearApprox.mk (Q2Qc (1 # 2)) (Q2Qc (1 # 2)) 2 1 true
    "mean" [1; 0; 0; 0; 0; 0] ∅ ∅ (fun x => Ok x).

(** That agent after learning one transition between three-byte states. *)
Definition fitted_agent_after : Freeway.QLearningLinearApprox.agent :=
  match Freeway.QLearningLinearApprox.update_W fitted_agent "abc" "bcd" 1 1
  with
  | Ok self' => self'
  | Raise _ => fitted_agent
  end.



(** The fixed-[epsilon] agent holding the tables of a [MonteCarloControl]
    agent. *)
Definition with_fixed_epsilon (eps : Qc)
  (a : Freeway.MonteCarloControl.agent)
  : Freeway.MonteCarloControlFixedEpsilon.agent :=
  Freeway.MonteCarloControlFixedEpsilon.mk
    (Freeway.MonteCarloControl.gamma a)
    (Freeway.MonteCarloControl.available_actions a) eps
    (Freeway.MonteCarloControl.Q a) (Freeway.MonteCarloControl.Nsa a)
    (Freeway.MonteCarloControl.state_visits a)
    (Freeway.MonteCarloControl.pi a).


(** * Properties *)

(** ** Numbers *)

Lemma Qc_eqb_eq (x y : Qc) : Qc_eqb x y = true <-> x = y.
Proof.
  unfold Qc_eqb. rewrite Qceq_alt. destruct (x ?= y); split; congruence.
Qed.

Lemma Qc_eqb_neq (x y : Qc) : Qc_eqb x y = false <-> x <> y.
Proof.
  rewrite <- Qc_eqb_eq. destruct (Qc_eqb x y); split; congruence.
Qed.

Lemma Qc_eqb_refl (x : Qc) : Qc_eqb x x = true.
Proof. now apply Qc_eqb_eq. Qed.

Lemma Qc_ltb_lt (x y : Qc) : Qc_ltb x y = true <-> x < y.
Proof.
  unfold Qc_ltb. rewrite Qclt_alt. destruct (x ?= y); split; congruence.
Qed.

Lemma Qc_ltb_ge (x y : Qc) : Qc_ltb x y = false <-> y <= x.
Proof.
  split; intros H.
  - apply Qcnot_lt_le. rewrite <- Qc_ltb_lt. congruence.
  - destruct (Qc_ltb x y) eqn:E; [|reflexivity].
    apply Qc_ltb_lt in E. now apply Qcle_not_lt in H.
Qed.

Lemma Qc_leb_le (x y : Qc) : Qc_leb x y = true <-> x <= y.
Proof.
  unfold Qc_leb. rewrite Qcle_alt. destruct (x ?= y); split; congruence.
Qed.

Lemma Qc_leb_gt (x y : Qc) : Qc_leb x y = false <-> y < x.
Proof.
  split; intros H.
  - apply Qcnot_le_lt. rewrite <- Qc_leb_le. congruence.
  - destruct (Qc_leb x y) eqn:E; [|reflexivity].
    apply Qc_leb_le in E. now apply Qcle_not_lt in E.
Qed.

Lemma Q2Qc_le (a b : Q) : (a <= b)%Q -> Q2Qc a <= Q2Qc b.
Proof. intros H. unfold Qcle. simpl. now rewrite !Qred_correct. Qed.

Lemma Q2Qc_lt (a b : Q) : (a < b)%Q -> Q2Qc a < Q2Qc b.
Proof. intros H. unfold Qclt. simpl. now rewrite !Qred_correct. Qed.

Lemma of_nat_0 : of_nat 0 = 0.
Proof. now apply Qc_is_canon. Qed.

Lemma of_nat_nonneg (n : nat) : 0 <= of_nat n.
Proof. apply Q2Qc_le. unfold Qle. simpl. lia. Qed.

Lemma of_nat_S_pos (n : nat) : 0 < of_nat (S n).
Proof. apply Q2Qc_lt. unfold Qlt. simpl. lia. Qed.

Lemma of_nat_S_neq (n : nat) : of_nat (S n) <> 0.
Proof.
  intros H. pose proof (of_nat_S_pos n) as P. rewrite H in P.
  now apply Qclt_not_eq in P.
Qed.

Lemma of_nat_S_ge_1 (n : nat) : 1 <= of_nat (S n).
Proof. apply Q2Qc_le. unfold Qle. simpl. lia. Qed.

Lemma py_div_ok (x y : Qc) : y <> 0 -> py_div x y = Ok (x / y).
Proof.
  intros H. unfold py_div. apply Qc_eqb_neq in H. now rewrite H.
Qed.

Lemma py_div_zero (x : Qc) : py_div x 0 = Raise ZeroDivisionError.
Proof. unfold py_div. now rewrite Qc_eqb_refl. Qed.

(** ** The numpy primitives on small inputs *)

Example np_argmax_first_maximum :
  np_argmax [0; Q2Qc 3; Q2Qc 3; 1] = Ok 1%nat.
Proof. reflexivity. Qed.

Example np_max_empty : np_max [] = Raise ValueError.
Proof. reflexivity. Qed.

Example choice_p_exploit :
  choice_p 2 [Q2Qc (3 # 4); Q2Qc (1 # 4)] (Q2Qc (1 # 2)) = Ok 0%nat.
Proof. reflexivity. Qed.

Example choice_p_explore :
  choice_p 2 [Q2Qc (3 # 4); Q2Qc (1 # 4)] (Q2Qc (4 # 5)) = Ok 1%nat.
Proof. reflexivity. Qed.

Example choice_p_negative :
  choice_p 2 [Q2Qc (3 # 2); Q2Qc (-1 # 2)] 0 = Raise ValueError.
Proof. reflexivity. Qed.

Example choice_p_three_actions :
  choice_p 3 [Q2Qc (3 # 4); Q2Qc (1 # 4)] 0 = Raise ValueError.
Proof. reflexivity. Qed.

Example reversed_range_2 : reversed_range 2 = [1; 0]%nat.
Proof. reflexivity. Qed.

(** ** Dictionaries and rows *)

Lemma dd_get_eq {V : Type} (dflt : V) (d : gmap string V) (k : string) :
  dd_get dflt d k = (peek dflt d k, <[k := peek dflt d k]> d).
Proof.
  unfold dd_get, peek. destruct (d !! k) eqn:E; simpl; [|reflexivity].
  now rewrite insert_id.
Qed.

Lemma dd_get_nat_eq (d : gmap nat nat) (k : nat) :
  dd_get_nat d k = (default 0%nat (d !! k), <[k := default 0%nat (d !! k)]> d).
Proof.
  unfold dd_get_nat. destruct (d !! k) eqn:E; simpl; [|reflexivity].
  now rewrite insert_id.
Qed.

Lemma peek_insert_eq {V : Type} (dflt v : V) (d : gmap string V) (k : string) :
  peek dflt (<[k := v]> d) k = v.
Proof. unfold peek. now rewrite lookup_insert_eq. Qed.

Lemma peek_insert_ne {V : Type} (dflt v : V) (d : gmap string V)
  (k k' : string) :
  k <> k' -> peek dflt (<[k := v]> d) k' = peek dflt d k'.
Proof. intros H. unfold peek. now rewrite lookup_insert_ne. Qed.

(** Creating a missing entry is invisible to later reads. *)
Lemma peek_create {V : Type} (dflt : V) (d : gmap string V) (k k' : string) :
  peek dflt (<[k := peek dflt d k]> d) k' = peek dflt d k'.
Proof.
  destruct (decide (k = k')) as [->|H].
  - apply peek_insert_eq.
  - now apply peek_insert_ne.
Qed.

Lemma np_zeros_length (n : nat) : length (np_zeros n) = n.
Proof. apply length_replicate. Qed.

Lemma np_zeros_lookup (n i : nat) : (i < n)%nat -> np_zeros n !! i = Some 0.
Proof. intros H. unfold np_zeros. now apply lookup_replicate_2. Qed.

Lemma rows_ok_empty (n : nat) : rows_ok n ∅.
Proof. intros s row H. now rewrite lookup_empty in H. Qed.

Lemma rows_ok_peek (n : nat) (q : gmap string (list Qc)) (s : string) :
  rows_ok n q -> length (peek (np_zeros n) q s) = n.
Proof.
  intros H. unfold peek. destruct (q !! s) eqn:E; simpl.
  - now apply (H s).
  - apply np_zeros_length.
Qed.

Lemma rows_ok_insert (n : nat) (q : gmap string (list Qc)) (s : string)
  (row : list Qc) :
  rows_ok n q -> length row = n -> rows_ok n (<[s := row]> q).
Proof.
  intros H L s' row' E. destruct (decide (s = s')) as [->|Hne].
  - rewrite lookup_insert_eq in E. congruence.
  - rewrite lookup_insert_ne in E by assumption. now apply (H s').
Qed.

Lemma getitem_ok (arr : list Qc) (i : nat) (x : Qc) :
  arr !! i = Some x -> getitem arr i = Ok x.
Proof. intros H. unfold getitem. now rewrite H. Qed.

Lemma setitem_ok (arr : list Qc) (i : nat) (x : Qc) :
  (i < length arr)%nat -> setitem arr i x = Ok (<[i := x]> arr).
Proof. intros H. unfold setitem. now rewrite decide_True. Qed.

Lemma Nsa_peek_pos (nsa : gmap string (gmap nat nat)) (s : string)
  (a n : nat) :
  Nsa_peek nsa s a = S n ->
  exists inner, nsa !! s = Some inner /\ inner !! a = Some (S n).
Proof.
  unfold Nsa_peek, peek. intros H.
  destruct (nsa !! s) as [inner|] eqn:E; simpl in H.
  - exists inner. split; [reflexivity|].
    destruct (inner !! a); simpl in H; congruence.
  - rewrite lookup_empty in H. discriminate.
Qed.

(** ** The maximum of a row *)

Lemma max_from_ge (l : list Qc) (m : Qc) : m <= max_from m l.
Proof.
  revert m. induction l as [|x l IH]; intros m; simpl.
  - apply Qcle_refl.
  - destruct (Qc_ltb m x) eqn:E.
    + apply Qc_ltb_lt in E. eapply Qcle_trans; [|apply IH].
      now apply Qclt_le_weak.
    + apply IH.
Qed.

Lemma max_from_upper (l : list Qc) (m : Qc) :
  Forall (fun x => x <= max_from m l) l.
Proof.
  revert m. induction l as [|x l IH]; intros m; simpl; constructor.
  - destruct (Qc_ltb m x) eqn:E.
    + apply max_from_ge.
    + apply Qc_ltb_ge in E. eapply Qcle_trans; [exact E|apply max_from_ge].
  - apply IH.
Qed.

Lemma max_from_in (l : list Qc) (m : Qc) : In (max_from m l) (m :: l).
Proof.
  revert m. induction l as [|x l IH]; intros m; simpl.
  - now left.
  - destruct (Qc_ltb m x).
    + right. apply IH.
    + destruct (IH m) as [H|H]; [now left|right; now right].
Qed.

(** [arr.max()] returns an entry of the row that bounds all of them. *)
Lemma np_max_spec (arr : list Qc) (mx : Qc) :
  np_max arr = Ok mx -> In mx arr /\ Forall (fun x => x <= mx) arr.
Proof.
  destruct arr as [|x l]; simpl; intros H; [discriminate|].
  injection H as <-. split.
  - apply max_from_in.
  - constructor; [apply max_from_ge|apply max_from_upper].
Qed.

Lemma np_max_ok (arr : list Qc) :
  (0 < length arr)%nat -> exists mx, np_max arr = Ok mx.
Proof.
  destruct arr as [|x l]; simpl; intros H; [lia|]. now eexists.
Qed.

(** ** Tabular Q-learning: [update_Q] *)

Ltac update_Q_script available old_state new_state action :=
  intros Hrows Hact Hn;
  destruct (Nsa_peek _ old_state action) as [|cnt] eqn:Ecnt; [lia|];
  pose proof Ecnt as Einner;
  apply Nsa_peek_pos in Einner as (inner & Hs & Ha);
  pose proof Hrows as Hlen; apply rows_ok_peek with (s := old_state) in Hlen;
  pose proof Hrows as Hlen'; apply rows_ok_peek with (s := new_state) in Hlen';
  pose proof Hact as Hq; rewrite <- Hlen in Hq;
  apply lookup_lt_is_Some_2 in Hq as [q_old Hq];
  assert (Hmx : (0 < available)%nat) by lia; rewrite <- Hlen' in Hmx;
  apply np_max_ok in Hmx as [mx Hmx];
  rewrite !dd_get_eq, dd_get_nat_eq;
  assert (Hin : peek ∅ _ old_state = inner) by (unfold peek; now rewrite Hs);
  rewrite Hin, Ha; cbn [default bind];
  rewrite py_div_ok by apply of_nat_S_neq; cbn [bind];
  erewrite getitem_ok by eassumption; cbn [bind];
  rewrite peek_create, Hmx; cbn [bind];
  rewrite setitem_ok by (rewrite Hlen; exact Hact); cbn [bind];
  eexists; split; [reflexivity|];
  cbn [Freeway.QLearning.Q Marianna.QLearning.Q];
  exists q_old, mx; split; [exact Hq|]; split; [reflexivity|]; split;
  [ unfold Q_peek; rewrite peek_insert_eq;
    now rewrite list_lookup_insert_eq by (rewrite Hlen; exact Hact)
  | intros s a Hne; unfold Q_peek;
    destruct (decide (old_state = s)) as [<-|Hs'];
    [ rewrite peek_insert_eq;
      rewrite list_lookup_insert_ne by congruence; reflexivity
    | rewrite peek_insert_ne by assumption;
      destruct (decide (new_state = s)) as [<-|Hs''];
      [ now rewrite peek_insert_eq
      | rewrite peek_insert_ne by assumption; now rewrite peek_create ] ] ].

Lemma freeway_update_Q_rule (self : Freeway.QLearning.agent)
  (old_state new_state : string) (action : nat) (reward : Qc) :
  let n := Freeway.QLearning.available_actions self in
  rows_ok n (Freeway.QLearning.Q self) ->
  (action < n)%nat ->
  (0 < Nsa_peek (Freeway.QLearning.Nsa self) old_state action)%nat ->
  exists self',
    Freeway.QLearning.update_Q self old_state new_state action reward
    = Ok self' /\
    q_learning_rule (Freeway.QLearning.gamma self) n
      (Freeway.QLearning.Q self) (Freeway.QLearning.Q self')
      (Freeway.QLearning.Nsa self) old_state new_state action reward.
Proof.
  intros n. subst n.
  unfold Freeway.QLearning.update_Q, q_learning_rule.
  update_Q_script (Freeway.QLearning.available_actions self)
                  old_state new_state action.
Qed.

Lemma marianna_update_Q_rule (self : Marianna.QLearning.agent)
  (old_state new_state : string) (action : nat) (reward : Qc) :
  let n := Marianna.QLearning.available_actions self in
  rows_ok n (Marianna.QLearning.Q self) ->
  (action < n)%nat ->
  (0 < Nsa_peek (Marianna.QLearning.Nsa self) old_state action)%nat ->
  exists self',
    Marianna.QLearning.update_Q self old_state new_state action reward
    = Ok self' /\
    q_learning_rule (Marianna.QLearning.gamma self) n
      (Marianna.QLearning.Q self) (Marianna.QLearning.Q self')
      (Marianna.QLearning.Nsa self) old_state new_state action reward.
Proof.
  intros n. subst n.
  unfold Marianna.QLearning.update_Q, q_learning_rule.
  update_Q_script (Marianna.QLearning.available_actions self)
                  old_state new_state action.
Qed.

(** The learning rate [1 / N] of a recorded pair lies in (0, 1]. *)
Lemma alpha_bounds (cnt : nat) :
  0 < 1 / of_nat (S cnt) /\ 1 / of_nat (S cnt) <= 1.
Proof.
  pose proof (of_nat_S_pos cnt) as Hpos.
  pose proof (of_nat_S_ge_1 cnt) as Hge.
  pose proof (Qcmult_div_r 1 _ (of_nat_S_neq cnt)) as Hmul.
  set (d := of_nat (S cnt)) in *. set (a := 1 / d) in *.
  split.
  - apply Qcnot_le_lt. intros Hle.
    apply (Qcmult_le_compat_r _ _ d) in Hle; [|now apply Qclt_le_weak].
    rewrite Qcmult_0_l, (Qcmult_comm a d), Hmul in Hle.
    exact (Qcle_not_lt _ _ Hle eq_refl).
  - apply Qcnot_lt_le. intros Hlt.
    apply (Qcmult_lt_compat_r _ _ d) in Hlt; [|assumption].
    rewrite Qcmult_1_l, (Qcmult_comm a d), Hmul in Hlt.
    now apply Qcle_not_lt in Hge.
Qed.

Lemma q_learning_rule_fixed_point (n : nat) (q q' : gmap string (list Qc))
  (nsa : gmap string (gmap nat nat)) (old_state : string) (action : nat) :
  (0 < Nsa_peek nsa old_state action)%nat ->
  q_learning_rule 0 n q q' nsa old_state old_state action 0 ->
  fixed_point_rule n q q' nsa old_state action.
Proof.
  intros Hn (q_old & mx & Hq & _ & Hq' & _). unfold fixed_point_rule.
  destruct (Nsa_peek nsa old_state action) as [|cnt] eqn:Ecnt; [lia|].
  destruct (alpha_bounds cnt) as [Hpos Hle1].
  set (a := 1 / of_nat (S cnt)) in *.
  exists q_old, (q_old + a * (0 + 0 * mx - q_old)).
  split; [exact Hq|]. split; [exact Hq'|].
  assert (Hnew : q_old + a * (0 + 0 * mx - q_old) = (1 - a) * q_old) by ring.
  assert (Hc0 : 0 <= 1 - a).
  { apply Qcle_minus_iff in Hle1. exact Hle1. }
  assert (Hc1 : 1 - a < 1).
  { apply Qclt_minus_iff. now replace (1 + - (1 - a)) with a by ring. }
  split; [ring|]. split; [|split].
  - split; intros H.
    + assert (Hz : a * q_old = 0).
      { replace (a * q_old)
          with (q_old - (q_old + a * (0 + 0 * mx - q_old))) by ring.
        rewrite H. ring. }
      apply Qcmult_integral in Hz as [Hz|Hz]; [|exact Hz].
      rewrite Hz in Hpos. now apply Qclt_not_eq in Hpos.
    + rewrite H. ring.
  - intros Hq0. rewrite Hnew. split.
    + rewrite <- (Qcmult_0_l q_old).
      apply Qcmult_le_compat_r; [exact Hc0|now apply Qclt_le_weak].
    + rewrite <- (Qcmult_1_l q_old) at 2.
      now apply Qcmult_lt_compat_r.
  - intros Hq0. rewrite Hnew.
    assert (Hneg : 0 < - q_old).
    { apply Qclt_minus_iff in Hq0. now rewrite Qcplus_0_l in Hq0. }
    split.
    + apply Qclt_minus_iff.
      replace ((1 - a) * q_old + - q_old) with (1 * (- q_old) - (1 - a) * (- q_old))
        by ring.
      apply (Qcmult_lt_compat_r _ _ (- q_old)) in Hc1; [|exact Hneg].
      apply Qclt_minus_iff in Hc1. exact Hc1.
    + apply Qcle_minus_iff.
      replace (0 + - ((1 - a) * q_old)) with ((1 - a) * (- q_old)) by ring.
      rewrite <- (Qcmult_0_l (- q_old)).
      apply Qcmult_le_compat_r; [exact Hc0|now apply Qclt_le_weak].
Qed.

(** C6. Tabular Q-learning's [update_Q] (both copies of the class), called
    on a well-formed table with a valid action whose pair has been recorded
    by [act] ([Nsa[old_state][action] > 0]), returns normally and replaces
    [Q[old_state][action]] by
    [Q[old_state][action] + alpha * (reward + gamma * max_a Q[new_state][a]
    - Q[old_state][action])] with [alpha = 1 / Nsa[old_state][action]];
    every other entry of the table keeps its value. *)
Theorem QLearning_update_Q_rule (gamma N0 : Qc) (n : nat)
  (q : gmap string (list Qc)) (sv : gmap string nat)
  (nsa : gmap string (gmap nat nat))
  (old_state new_state : string) (action : nat) (reward : Qc) :
  rows_ok n q ->
  (action < n)%nat ->
  (0 < Nsa_peek nsa old_state action)%nat ->
  (exists self',
     Freeway.QLearning.update_Q (Freeway.QLearning.mk gamma n N0 q sv nsa)
       old_state new_state action reward = Ok self' /\
     q_learning_rule gamma n q (Freeway.QLearning.Q self') nsa
       old_state new_state action reward) /\
  (exists self',
     Marianna.QLearning.update_Q (Marianna.QLearning.mk gamma n N0 q sv nsa)
       old_state new_state action reward = Ok self' /\
     q_learning_rule gamma n q (Marianna.QLearning.Q self') nsa
       old_state new_state action reward).
Proof.
  intros Hrows Hact Hn. split.
  - now apply (freeway_update_Q_rule (Freeway.QLearning.mk gamma n N0 q sv nsa)).
  - now apply
      (marianna_update_Q_rule (Marianna.QLearning.mk gamma n N0 q sv nsa)).
Qed.

Lemma QLearning_update_Q_rule_witness :
  (exists self',
     Freeway.QLearning.update_Q
       (Freeway.QLearning.mk (Q2Qc (1 # 2)) 3 1 ∅ ∅ recorded_once)
       "s" "t" 1 1 = Ok self' /\
     q_learning_rule (Q2Qc (1 # 2)) 3 ∅ (Freeway.QLearning.Q self')
       recorded_once "s" "t" 1 1) /\
  (exists self',
     Marianna.QLearning.update_Q
       (Marianna.QLearning.mk (Q2Qc (1 # 2)) 3 1 ∅ ∅ recorded_once)
       "s" "t" 1 1 = Ok self' /\
     q_learning_rule (Q2Qc (1 # 2)) 3 ∅ (Marianna.QLearning.Q self')
       recorded_once "s" "t" 1 1).
Proof.
  apply (QLearning_update_Q_rule (Q2Qc (1 # 2)) 1 3 ∅ ∅ recorded_once
           "s" "t" 1 1).
  - apply rows_ok_empty.
  - lia.
  - vm_compute. lia.
Defined.

(** C9. With [reward = 0], [gamma = 0] and [new_state = old_state], the
    tabular [update_Q] (both copies) changes [Q[old_state][action]] by
    exactly [alpha * (0 - Q[old_state][action])]; the entry is unchanged
    exactly when it already was [0], and otherwise ends strictly closer to
    [0] on the same side. *)
Theorem QLearning_update_Q_fixed_point (N0 : Qc) (n : nat)
  (q : gmap string (list Qc)) (sv : gmap string nat)
  (nsa : gmap string (gmap nat nat)) (old_state : string) (action : nat) :
  rows_ok n q ->
  (action < n)%nat ->
  (0 < Nsa_peek nsa old_state action)%nat ->
  (exists self',
     Freeway.QLearning.update_Q (Freeway.QLearning.mk 0 n N0 q sv nsa)
       old_state old_state action 0 = Ok self' /\
     fixed_point_rule n q (Freeway.QLearning.Q self') nsa old_state action) /\
  (exists self',
     Marianna.QLearning.update_Q (Marianna.QLearning.mk 0 n N0 q sv nsa)
       old_state old_state action 0 = Ok self' /\
     fixed_point_rule n q (Marianna.QLearning.Q self') nsa old_state action).
Proof.
  intros Hrows Hact Hn. split.
  - destruct (freeway_update_Q_rule (Freeway.QLearning.mk 0 n N0 q sv nsa)
                old_state old_state action 0 Hrows Hact Hn)
      as (self' & Hrun & Hrule).
    exists self'. split; [exact Hrun|].
    now apply q_learning_rule_fixed_point.
  - destruct (marianna_update_Q_rule (Marianna.QLearning.mk 0 n N0 q sv nsa)
                old_state old_state action 0 Hrows Hact Hn)
      as (self' & Hrun & Hrule).
    exists self'. split; [exact Hrun|].
    now apply q_learning_rule_fixed_point.
Qed.

Lemma table_with_four_rows_ok : rows_ok 3 table_with_four.
Proof.
  intros s row H. unfold table_with_four in H.
  apply lookup_singleton_Some in H as [_ <-]. reflexivity.
Qed.

Lemma QLearning_update_Q_fixed_point_witness :
  (exists self',
     Freeway.QLearning.update_Q
       (Freeway.QLearning.mk 0 3 1 table_with_four ∅ recorded_twice)
       "s" "s" 1 0 = Ok self' /\
     fixed_point_rule 3 table_with_four (Freeway.QLearning.Q self')
       recorded_twice "s" 1) /\
  (exists self',
     Marianna.QLearning.update_Q
       (Marianna.QLearning.mk 0 3 1 table_with_four ∅ recorded_twice)
       "s" "s" 1 0 = Ok self' /\
     fixed_point_rule 3 table_with_four (Marianna.QLearning.Q self')
       recorded_twice "s" 1).
Proof.
  apply (QLearning_update_Q_fixed_point 1 3 table_with_four ∅ recorded_twice
           "s" 1).
  - apply table_with_four_rows_ok.
  - lia.
  - vm_compute. lia.
Defined.

(** ** Visit counters *)

Lemma incr_Nsa_peek_eq (nsa : gmap string (gmap nat nat)) (s : string)
  (a : nat) :
  Nsa_peek (incr_Nsa nsa s a) s a = S (Nsa_peek nsa s a).
Proof.
  unfold incr_Nsa. rewrite dd_get_eq, dd_get_nat_eq. cbn iota.
  unfold Nsa_peek at 1. now rewrite peek_insert_eq, lookup_insert_eq.
Qed.

Lemma incr_Nsa_peek_ne (nsa : gmap string (gmap nat nat)) (s s' : string)
  (a a' : nat) :
  (s, a) <> (s', a') ->
  Nsa_peek (incr_Nsa nsa s a) s' a' = Nsa_peek nsa s' a'.
Proof.
  intros Hne. unfold incr_Nsa. rewrite dd_get_eq, dd_get_nat_eq. cbn iota.
  unfold Nsa_peek. destruct (decide (s = s')) as [<-|Hs].
  - rewrite peek_insert_eq.
    assert (Ha : a <> a') by congruence.
    now rewrite !lookup_insert_ne by assumption.
  - rewrite peek_insert_ne by assumption. now rewrite peek_create.
Qed.

Lemma np_argmax_ok (arr : list Qc) :
  (0 < length arr)%nat -> exists best, np_argmax arr = Ok best.
Proof.
  destruct arr as [|x l]; simpl; intros H; [lia|]. now eexists.
Qed.

Lemma index_ok {X : Type} (xs : list X) (i : nat) (x : X) :
  xs !! i = Some x -> index xs i = Ok x.
Proof. intros H. unfold index. now rewrite H. Qed.

(** ** Items read back from a bytes array *)

Lemma np_array_bytes_length (xs : list string) :
  length (np_array_bytes xs) = length xs.
Proof. unfold np_array_bytes. apply length_fmap. Qed.

Lemma np_array_bytes_lookup (xs : list string) (t : nat) :
  np_array_bytes xs !! t = np_bytes_item <$> (xs !! t).
Proof. unfold np_array_bytes. apply list_lookup_fmap. Qed.

Lemma np_bytes_item_snoc (s : string) (c : Ascii.ascii) :
  np_bytes_item (String.append s (String c EmptyString))
  = if Ascii.eqb c Ascii.zero then np_bytes_item s
    else String.append s (String c EmptyString).
Proof.
  induction s as [|d s IH].
  - simpl. destruct (Ascii.eqb c Ascii.zero); reflexivity.
  - change (String.append (String d s) (String c EmptyString))
      with (String d (String.append s (String c EmptyString))).
    cbn [np_bytes_item]. rewrite IH.
    destruct (Ascii.eqb c Ascii.zero) eqn:E; [reflexivity|].
    destruct s; reflexivity.
Qed.

(** A trailing NUL byte is lost, and with it the difference between the
    two states. *)
Lemma np_bytes_item_drops_nul (s : string) :
  np_bytes_item (String.append s (String Ascii.zero EmptyString))
  = np_bytes_item s.
Proof. now rewrite np_bytes_item_snoc. Qed.

(** A state that ends in another byte is read back unchanged. *)
Lemma np_bytes_item_keeps (s : string) (c : Ascii.ascii) :
  c <> Ascii.zero ->
  np_bytes_item (String.append s (String c EmptyString))
  = String.append s (String c EmptyString).
Proof.
  intros H. rewrite np_bytes_item_snoc.
  apply Ascii.eqb_neq in H. now rewrite H.
Qed.

Lemma np_bytes_item_idempotent (s : string) :
  np_bytes_item (np_bytes_item s) = np_bytes_item s.
Proof.
  induction s as [|c s IH]; [reflexivity|]. cbn [np_bytes_item].
  destruct (np_bytes_item s) as [|d r] eqn:E.
  - destruct (Ascii.eqb c Ascii.zero) eqn:Ec; [reflexivity|].
    cbn [np_bytes_item]. now rewrite Ec.
  - cbn [np_bytes_item]. cbn [np_bytes_item] in IH.
    destruct (np_bytes_item r) as [|d' r'] eqn:Er.
    + destruct (Ascii.eqb d Ascii.zero) eqn:Ed; [discriminate|].
      now rewrite IH.
    + now rewrite IH.
Qed.

(** ** Monte Carlo control: one backward step *)

(** The step of [freeway] at time [t]: the return is discounted, the pair
    is counted, and its value moves by [(G - Q) / N]. *)
Lemma freeway_update_step (episode : Episode.t)
  (self : Freeway.MonteCarloControl.agent) (G : Qc) (t : nat)
  (s_t : string) (a_t : nat) (r : Qc) :
  let n := Freeway.MonteCarloControl.available_actions self in
  let q := Freeway.MonteCarloControl.Q self in
  let nsa := Freeway.MonteCarloControl.Nsa self in
  let G' := Freeway.MonteCarloControl.gamma self * G + r in
  np_array_bytes (Episode.S episode) !! t = Some s_t ->
  Episode.A episode !! t = Some a_t ->
  Episode.R episode !! (t + 1)%nat = Some r ->
  rows_ok n q ->
  (a_t < n)%nat ->
  exists self' cur,
    Freeway.MonteCarloControl.update_step episode (G, self) t
    = Ok (G', self') /\
    Freeway.MonteCarloControl.gamma self'
    = Freeway.MonteCarloControl.gamma self /\
    Freeway.MonteCarloControl.available_actions self' = n /\
    Freeway.MonteCarloControl.Nsa self' = incr_Nsa nsa s_t a_t /\
    rows_ok n (Freeway.MonteCarloControl.Q self') /\
    Q_peek n q s_t a_t = Some cur /\
    Q_peek n (Freeway.MonteCarloControl.Q self') s_t a_t
    = Some (cur + 1 / of_nat (S (Nsa_peek nsa s_t a_t)) * (G' - cur)) /\
    forall s a, (s, a) <> (s_t, a_t) ->
      Q_peek n (Freeway.MonteCarloControl.Q self') s a = Q_peek n q s a.
Proof.
  intros n q nsa G' HS HA HR Hrows Hact. subst n q nsa G'.
  pose proof (rows_ok_peek _ _ s_t Hrows) as Hlen.
  destruct (lookup_lt_is_Some_2 _ a_t (eq_ind_r (lt a_t) Hact Hlen))
    as [cur Hcur].
  unfold Freeway.MonteCarloControl.update_step.
  rewrite (index_ok _ _ _ HS), (index_ok _ _ _ HA), (index_ok _ _ _ HR).
  cbn [bind]. rewrite !dd_get_eq. cbn iota.
  rewrite incr_Nsa_peek_eq, (py_div_ok _ _ (of_nat_S_neq _)). cbn [bind].
  rewrite (getitem_ok _ _ _ Hcur). cbn [bind].
  rewrite setitem_ok by (rewrite Hlen; exact Hact). cbn [bind].
  match goal with
  | |- context [np_argmax ?row] =>
      destruct (np_argmax_ok row) as [best ->];
      [rewrite length_insert, Hlen; lia|]
  end.
  cbn [bind]. eexists. exists cur. split; [reflexivity|].
  cbn [Freeway.MonteCarloControl.gamma Freeway.MonteCarloControl.Q
       Freeway.MonteCarloControl.Nsa
       Freeway.MonteCarloControl.available_actions].
  repeat (split; [reflexivity|]). split; [|split; [exact Hcur|split]].
  - apply rows_ok_insert.
    + apply rows_ok_insert; assumption.
    + now rewrite length_insert.
  - unfold Q_peek. rewrite peek_insert_eq.
    now rewrite list_lookup_insert_eq by (rewrite Hlen; exact Hact).
  - intros s a Hne. unfold Q_peek.
    destruct (decide (s_t = s)) as [<-|Hs].
    + rewrite peek_insert_eq.
      now rewrite list_lookup_insert_ne by congruence.
    + rewrite peek_insert_ne by assumption. now rewrite peek_create.
Qed.

(** The step of [marianna] at time [t]: the return is discounted, appended
    to the returns of the pair, and the value becomes their mean. *)
Lemma marianna_update_step (episode : Transitions.t)
  (self : Marianna.MonteCarloControl.agent) (G : Qc) (t : nat)
  (raw_t s_n nx_t nx_n : string) (a_t a_n : nat) (r_t r : Qc) :
  let n := Marianna.MonteCarloControl.available_actions self in
  let q := Marianna.MonteCarloControl.Q self in
  let returns := Marianna.MonteCarloControl.Returns self in
  let G' := Marianna.MonteCarloControl.gamma self * G + r in
  let s_t := np_bytes_item raw_t in
  let collected := Returns_peek returns s_t a_t ++ [G'] in
  Transitions.items episode !! t = Some (raw_t, a_t, r_t, nx_t) ->
  Transitions.items episode !! (t + 1)%nat = Some (s_n, a_n, r, nx_n) ->
  rows_ok n q ->
  (a_t < n)%nat ->
  exists self',
    Marianna.MonteCarloControl.update_step episode (G, self) t
    = Ok (G', self') /\
    Marianna.MonteCarloControl.gamma self'
    = Marianna.MonteCarloControl.gamma self /\
    Marianna.MonteCarloControl.available_actions self' = n /\
    rows_ok n (Marianna.MonteCarloControl.Q self') /\
    Returns_peek (Marianna.MonteCarloControl.Returns self') s_t a_t
    = collected /\
    (forall s a, (s, a) <> (s_t, a_t) ->
       Returns_peek (Marianna.MonteCarloControl.Returns self') s a
       = Returns_peek returns s a) /\
    Q_peek n (Marianna.MonteCarloControl.Q self') s_t a_t
    = Some (sum_list_Qc collected / of_nat (length collected)) /\
    forall s a, (s, a) <> (s_t, a_t) ->
      Q_peek n (Marianna.MonteCarloControl.Q self') s a = Q_peek n q s a.
Proof.
  intros n q returns G' s_t collected Ht Hn Hrows Hact.
  subst n q returns G' collected.
  pose proof (rows_ok_peek _ _ s_t Hrows) as Hlen.
  unfold Marianna.MonteCarloControl.update_step. cbn zeta.
  rewrite !(index_ok _ (t + 1) r), !(index_ok _ t s_t), !(index_ok _ t a_t)
    by (unfold np_array_bytes; rewrite !list_lookup_fmap;
        (rewrite Ht || rewrite Hn); reflexivity).
  cbn [bind]. rewrite !dd_get_eq. cbn iota.
  fold (Returns_peek (Marianna.MonteCarloControl.Returns self) s_t a_t).
  set (old := Returns_peek (Marianna.MonteCarloControl.Returns self) s_t a_t).
  assert (Hcnt : length (old ++ [Marianna.MonteCarloControl.gamma self * G + r])
                 = S (length old))
    by (rewrite length_app; simpl; lia).
  rewrite (py_div_ok _ (of_nat _)) by (rewrite Hcnt; apply of_nat_S_neq).
  cbn [bind].
  rewrite setitem_ok by (rewrite Hlen; exact Hact). cbn [bind].
  match goal with
  | |- context [np_argmax ?row] =>
      destruct (np_argmax_ok row) as [best ->];
      [rewrite length_insert, Hlen; lia|]
  end.
  cbn [bind]. eexists. split; [reflexivity|].
  cbn [Marianna.MonteCarloControl.gamma Marianna.MonteCarloControl.Q
       Marianna.MonteCarloControl.Returns
       Marianna.MonteCarloControl.available_actions].
  repeat (split; [reflexivity|]). split; [|split; [|split; [|split]]].
  - apply rows_ok_insert.
    + apply rows_ok_insert; assumption.
    + now rewrite length_insert.
  - unfold Returns_peek at 1. now rewrite peek_insert_eq, lookup_insert_eq.
  - intros s a Hne. unfold Returns_peek.
    destruct (decide (s_t = s)) as [<-|Hs].
    + rewrite peek_insert_eq.
      now rewrite lookup_insert_ne by congruence.
    + rewrite peek_insert_ne by assumption. now rewrite peek_create.
  - unfold Q_peek. rewrite peek_insert_eq.
    now rewrite list_lookup_insert_eq by (rewrite Hlen; exact Hact).
  - intros s a Hne. unfold Q_peek.
    destruct (decide (s_t = s)) as [<-|Hs].
    + rewrite peek_insert_eq.
      now rewrite list_lookup_insert_ne by congruence.
    + rewrite peek_insert_ne by assumption. now rewrite peek_create.
Qed.

Lemma Q_peek_empty (n : nat) (s : string) (a : nat) :
  (a < n)%nat -> Q_peek n ∅ s a = Some 0.
Proof.
  intros H. unfold Q_peek, peek. rewrite lookup_empty. simpl.
  now apply np_zeros_lookup.
Qed.

Lemma Nsa_peek_empty (s : string) (a : nat) : Nsa_peek ∅ s a = 0%nat.
Proof. reflexivity. Qed.

Lemma Returns_peek_empty (s : string) (a : nat) : Returns_peek ∅ s a = [].
Proof. reflexivity. Qed.

Lemma of_nat_1 : of_nat 1 = 1.
Proof. now apply Qc_is_canon. Qed.

(** ** Monte Carlo control: a three-step episode on a fresh agent *)

Lemma freeway_single_episode (g N0 : Qc) (n : nat) (s0 s1 s2 : string)
  (a0 a1 a2 : nat) (r1 r2 r3 score total : Qc) :
  (a0 < n)%nat -> (a1 < n)%nat ->
  (np_bytes_item s0, a0) <> (np_bytes_item s1, a1) ->
  exists self',
    Freeway.MonteCarloControl.update_policy
      (Freeway.MonteCarloControl.init g n N0)
      (Episode.mk [s0; s1; s2] [a0; a1; a2] [r1; r2; r3] 3 score total)
    = Ok (score, total, self') /\
    Q_peek n (Freeway.MonteCarloControl.Q self') (np_bytes_item s0) a0
    = Some (g * r3 + r2).
Proof.
  intros H0 H1 Hne.
  set (ep := Episode.mk [s0; s1; s2] [a0; a1; a2] [r1; r2; r3] 3 score total).
  set (self0 := Freeway.MonteCarloControl.init g n N0).
  destruct (freeway_update_step ep self0 0 1 (np_bytes_item s1) a1 r3)
    as (self1 & cur1 & Hrun1 & Hg1 & Hn1 & Hnsa1 & Hrows1 & _ & _ & Hframe1);
    try reflexivity; [apply rows_ok_empty|exact H1|].
  change (Freeway.MonteCarloControl.gamma self0) with g in Hrun1, Hg1.
  change (Freeway.MonteCarloControl.available_actions self0) with n
    in Hn1, Hrows1, Hframe1.
  change (Freeway.MonteCarloControl.Q self0) with (∅ : gmap string (list Qc))
    in Hframe1.
  change (Freeway.MonteCarloControl.Nsa self0)
    with (∅ : gmap string (gmap nat nat)) in Hnsa1.
  destruct (freeway_update_step ep self1 (g * 0 + r3) 0 (np_bytes_item s0) a0
              r2)
    as (self2 & cur0 & Hrun0 & _ & _ & _ & _ & Hcur0 & Hq0 & _);
    try reflexivity; [now rewrite Hn1|now rewrite Hn1|].
  rewrite Hn1 in Hcur0, Hq0.
  rewrite Hframe1, Q_peek_empty in Hcur0 by assumption.
  injection Hcur0 as <-.
  rewrite Hnsa1, incr_Nsa_peek_ne, Nsa_peek_empty, Hg1 in Hq0 by congruence.
  rewrite Hg1 in Hrun0.
  exists self2. split.
  - unfold Freeway.MonteCarloControl.update_policy.
    change (reversed_range (Episode.length ep - 1)) with [1%nat; 0%nat].
    cbn [for_each]. fold self0. rewrite Hrun1. cbn [bind].
    rewrite Hrun0. reflexivity.
  - rewrite Hq0. f_equal. rewrite of_nat_1. field. discriminate.
Qed.

Lemma marianna_single_episode (g N0 : Qc) (n : nat) (s0 s1 s2 : string)
  (x0 x1 x2 : string) (a0 a1 a2 : nat) (r1 r2 r3 score total : Qc) :
  (a0 < n)%nat -> (a1 < n)%nat ->
  (np_bytes_item s0, a0) <> (np_bytes_item s1, a1) ->
  exists self',
    Marianna.MonteCarloControl.update_policy
      (Marianna.MonteCarloControl.init g n N0)
      (Transitions.mk [(s0, a0, r1, x0); (s1, a1, r2, x1); (s2, a2, r3, x2)]
                      3 score total)
    = Ok (score, total, self') /\
    Q_peek n (Marianna.MonteCarloControl.Q self') (np_bytes_item s0) a0
    = Some (g * r3 + r2).
Proof.
  intros H0 H1 Hne.
  set (ep := Transitions.mk
               [(s0, a0, r1, x0); (s1, a1, r2, x1); (s2, a2, r3, x2)]
               3 score total).
  set (self0 := Marianna.MonteCarloControl.init g n N0).
  destruct (marianna_update_step ep self0 0 1 s1 s2 x1 x2 a1 a2 r2 r3)
    as (self1 & Hrun1 & Hg1 & Hn1 & Hrows1 & _ & Hret1 & _);
    try reflexivity; [apply rows_ok_empty|exact H1|].
  change (Marianna.MonteCarloControl.gamma self0) with g in Hrun1, Hg1.
  change (Marianna.MonteCarloControl.available_actions self0) with n
    in Hn1, Hrows1.
  change (Marianna.MonteCarloControl.Returns self0)
    with (∅ : gmap string (gmap nat (list Qc))) in Hret1.
  destruct (marianna_update_step ep self1 (g * 0 + r3) 0 s0 s1 x0 x1 a0 a1
              r1 r2)
    as (self2 & Hrun0 & _ & _ & _ & _ & _ & Hq0 & _);
    try reflexivity; [now rewrite Hn1|now rewrite Hn1|].
  rewrite Hn1, Hret1, Returns_peek_empty, Hg1 in Hq0 by exact Hne.
  rewrite Hg1 in Hrun0.
  exists self2. split.
  - unfold Marianna.MonteCarloControl.update_policy.
    change (reversed_range (Transitions.length ep - 1)) with [1%nat; 0%nat].
    cbn [for_each]. fold self0. rewrite Hrun1. cbn [bind].
    rewrite Hrun0. reflexivity.
  - rewrite Hq0. f_equal. cbn [app length sum_list_Qc foldr].
    rewrite of_nat_1. field. discriminate.
Qed.

(** Two rationals are told apart by their canonical fractions. *)
Ltac Qc_discriminate H :=
  apply (f_equal this) in H; vm_compute in H; discriminate H.

(** C2 (as amended). One run of [MonteCarloControl.update_policy] (both
    copies) on a fresh agent and an episode of length 3 with rewards
    [[r1, r2, r3]] and discount [g], in which the pairs visited at times 0
    and 1 differ, returns normally and leaves [Q[s0][a0] = g * r3 + r2]:
    the discounted return [R[1] + g * R[2]] that follows the first action.
    The table is keyed by [S[t]] as read back from the bytes array [S]:
    [Q] is read, and the two pairs are compared, at the states with their
    trailing NUL bytes dropped, which for a state that ends in no NUL byte
    is the state itself. *)
Theorem MonteCarlo_single_episode_return (g N0 : Qc) (n : nat)
  (s0 s1 s2 x0 x1 x2 : string) (a0 a1 a2 : nat)
  (r1 r2 r3 score total : Qc) :
  (a0 < n)%nat -> (a1 < n)%nat ->
  (np_bytes_item s0, a0) <> (np_bytes_item s1, a1) ->
  (exists self',
     Freeway.MonteCarloControl.update_policy
       (Freeway.MonteCarloControl.init g n N0)
       (Episode.mk [s0; s1; s2] [a0; a1; a2] [r1; r2; r3] 3 score total)
     = Ok (score, total, self') /\
     Q_peek n (Freeway.MonteCarloControl.Q self') (np_bytes_item s0) a0
     = Some (g * r3 + r2)) /\
  (exists self',
     Marianna.MonteCarloControl.update_policy
       (Marianna.MonteCarloControl.init g n N0)
       (Transitions.mk
          [(s0, a0, r1, x0); (s1, a1, r2, x1); (s2, a2, r3, x2)]
          3 score total)
     = Ok (score, total, self') /\
     Q_peek n (Marianna.MonteCarloControl.Q self') (np_bytes_item s0) a0
     = Some (g * r3 + r2)).
Proof.
  intros H0 H1 Hne. split.
  - now apply freeway_single_episode.
  - now apply marianna_single_episode.
Qed.

Lemma MonteCarlo_single_episode_return_witness :
  (exists self',
     Freeway.MonteCarloControl.update_policy
       (Freeway.MonteCarloControl.init (Q2Qc (1 # 2)) 3 1)
       (Episode.mk ["a"; "b"; "c"] [0; 1; 2]%nat [Q2Qc 5; Q2Qc 7; Q2Qc 4]
                   3 0 0)
     = Ok (0, 0, self') /\
     Q_peek 3 (Freeway.MonteCarloControl.Q self') "a" 0
     = Some (Q2Qc (1 # 2) * Q2Qc 4 + Q2Qc 7)) /\
  (exists self',
     Marianna.MonteCarloControl.update_policy
       (Marianna.MonteCarloControl.init (Q2Qc (1 # 2)) 3 1)
       (Transitions.mk
          [("a", 0%nat, Q2Qc 5, "b"); ("b", 1%nat, Q2Qc 7, "c");
           ("c", 2%nat, Q2Qc 4, "d")]
          3 0 0)
     = Ok (0, 0, self') /\
     Q_peek 3 (Marianna.MonteCarloControl.Q self') "a" 0
     = Some (Q2Qc (1 # 2) * Q2Qc 4 + Q2Qc 7)).
Proof.
  apply (MonteCarlo_single_episode_return (Q2Qc (1 # 2)) 1 3
           "a" "b" "c" "b" "c" "d" 0 1 2 (Q2Qc 5) (Q2Qc 7) (Q2Qc 4) 0 0).
  - lia.
  - lia.
  - discriminate.
Defined.

(** C2 as stated fails: with [g = 1/2] and rewards [[5, 7, 4]] the code
    leaves [Q[s0][a0] = 9], not [g*g*r3 + g*r2 = 9/2]. *)
Lemma MonteCarlo_single_episode_return_counterexample :
  exists self',
    Freeway.MonteCarloControl.update_policy
      (Freeway.MonteCarloControl.init (Q2Qc (1 # 2)) 3 1)
      (Episode.mk ["a"; "b"; "c"] [0; 1; 2]%nat [Q2Qc 5; Q2Qc 7; Q2Qc 4]
                  3 0 0)
    = Ok (0, 0, self') /\
    Q_peek 3 (Freeway.MonteCarloControl.Q self') "a" 0 = Some (Q2Qc 9) /\
    Q2Qc 9 <> Q2Qc (1 # 2) * Q2Qc (1 # 2) * Q2Qc 4 + Q2Qc (1 # 2) * Q2Qc 7.
Proof.
  destruct (freeway_single_episode (Q2Qc (1 # 2)) 1 3 "a" "b" "c" 0 1 2
              (Q2Qc 5) (Q2Qc 7) (Q2Qc 4) 0 0)
    as (self' & Hrun & Hq); [lia|lia|discriminate|].
  exists self'. split; [exact Hrun|]. split.
  - etransitivity; [exact Hq|]. f_equal; now apply Qc_is_canon.
  - intros H. Qc_discriminate H.
Qed.

(** ** The explore-or-exploit draw *)

Lemma bind_ok_inv {A B : Type} (r : result A) (k : A -> result B) (b : B) :
  bind r k = Ok b -> exists a, r = Ok a /\ k a = Ok b.
Proof. destruct r as [a|e]; simpl; intros H; [eauto|discriminate]. Qed.

Lemma epsilon_of_bounds (N0 : Qc) (visits : nat) :
  0 < N0 ->
  N0 + of_nat visits <> 0 /\
  0 < epsilon_of N0 visits /\ epsilon_of N0 visits <= 1.
Proof.
  intros Hpos. pose proof (of_nat_nonneg visits) as Hv.
  assert (Hd : 0 < N0 + of_nat visits).
  { apply Qclt_le_trans with (N0 + 0).
    - now rewrite Qcplus_0_r.
    - apply Qcplus_le_compat; [apply Qcle_refl|exact Hv]. }
  assert (Hne : N0 + of_nat visits <> 0).
  { intros H. rewrite H in Hd. discriminate Hd. }
  pose proof (Qcmult_div_r N0 _ Hne) as Hmul.
  fold (epsilon_of N0 visits) in Hmul.
  set (d := N0 + of_nat visits) in *. set (e := epsilon_of N0 visits) in *.
  split; [exact Hne|]. split.
  - apply Qcnot_le_lt. intros Hle.
    apply (Qcmult_le_compat_r _ _ d) in Hle; [|now apply Qclt_le_weak].
    rewrite Qcmult_0_l, (Qcmult_comm e d), Hmul in Hle.
    now apply Qcle_not_lt in Hle.
  - apply Qcnot_lt_le. intros Hlt.
    apply (Qcmult_lt_compat_r _ _ d) in Hlt; [|assumption].
    rewrite Qcmult_1_l, (Qcmult_comm e d), Hmul in Hlt.
    apply Qclt_minus_iff in Hlt. subst d.
    replace (N0 + - (N0 + of_nat visits)) with (- of_nat visits) in Hlt
      by ring.
    apply Qcopp_le_compat in Hv. 
    change (- 0) with 0 in Hv.
    now apply Qcle_not_lt in Hv.
Qed.

(** A state never visited has [epsilon = 1]. *)
Lemma epsilon_of_unvisited (N0 : Qc) : N0 <> 0 -> epsilon_of N0 0 = 1.
Proof.
  intros H. unfold epsilon_of. rewrite of_nat_0, Qcplus_0_r.
  now apply Qcmult_inv_r.
Qed.

(** With a probability in [0, 1] the weighted draw over [np.arange(2)]
    passes numpy's checks; it answers 1 (explore) exactly when the uniform
    sample is at least [1 - epsilon]. *)
Lemma choice_p_two (eps x : Qc) :
  0 <= eps -> eps <= 1 -> x < 1 ->
  choice_p 2 [1 - eps; eps] x
  = Ok (if Qc_leb (1 - eps) x then 1%nat else 0%nat).
Proof.
  intros H0 H1 Hx. unfold choice_p. cbn [Nat.eqb length negb existsb orb].
  assert (Hc : 0 <= 1 - eps) by (apply Qcle_minus_iff in H1; exact H1).
  apply Qc_ltb_ge in H0, Hc. rewrite H0, Hc. cbn [orb].
  assert (Hs : sum_list_Qc [1 - eps; eps] = 1) by (cbn; ring).
  rewrite Hs, Qc_eqb_refl. cbn [negb searchsorted_right].
  replace (0 + (1 - eps) + eps) with 1 by ring.
  replace (0 + (1 - eps)) with (1 - eps) by ring.
  apply Qc_leb_gt in Hx. rewrite Hx.
  now destruct (Qc_leb (1 - eps) x).
Qed.

(** Any other population size is rejected: the probability vector has two
    entries. *)
Lemma choice_p_size_mismatch (n : nat) (eps x : Qc) :
  n <> 2%nat -> choice_p n [1 - eps; eps] x = Raise ValueError.
Proof.
  intros H. unfold choice_p. destruct (n =? 0)%nat; [reflexivity|].
  cbn [length]. apply Nat.eqb_neq in H. rewrite Nat.eqb_sym, H. reflexivity.
Qed.

(** ** [act]: what a call records *)

Lemma visited_once_intro (sv : gmap string nat) (state : string) :
  visited_once sv
    (<[state := S (peek 0%nat sv state)]> (<[state := peek 0%nat sv state]> sv))
    state.
Proof.
  split.
  - apply peek_insert_eq.
  - intros s Hs. rewrite peek_insert_ne by congruence. apply peek_create.
Qed.

Lemma counted_once_intro (sv : gmap string nat)
  (nsa : gmap string (gmap nat nat)) (state : string) (action : nat) :
  counted_once sv
    (<[state := S (peek 0%nat sv state)]> (<[state := peek 0%nat sv state]> sv))
    nsa (incr_Nsa nsa state action) state action.
Proof.
  destruct (visited_once_intro sv state) as [Hv Hf].
  split; [exact Hv|]. split; [apply incr_Nsa_peek_eq|].
  split; [exact Hf|].
  intros s a Hne. apply incr_Nsa_peek_ne. congruence.
Qed.

Lemma freeway_QLearning_act_counts (self self' : Freeway.QLearning.agent)
  (state : string) (rnd : draws) (action : nat) :
  Freeway.QLearning.act self state rnd = Ok (action, self') ->
  counted_once (Freeway.QLearning.state_visits self)
    (Freeway.QLearning.state_visits self')
    (Freeway.QLearning.Nsa self) (Freeway.QLearning.Nsa self') state action.
Proof.
  unfold Freeway.QLearning.act. rewrite dd_get_eq. intros H.
  apply bind_ok_inv in H as (eps & _ & H).
  apply bind_ok_inv in H as (c & _ & H).
  apply bind_ok_inv in H as ([a q] & _ & H).
  injection H as <- <-. apply counted_once_intro.
Qed.

Lemma marianna_QLearning_act_counts (self self' : Marianna.QLearning.agent)
  (state : string) (rnd : draws) (action : nat) :
  Marianna.QLearning.act self state rnd = Ok (action, self') ->
  counted_once (Marianna.QLearning.state_visits self)
    (Marianna.QLearning.state_visits self')
    (Marianna.QLearning.Nsa self) (Marianna.QLearning.Nsa self') state action.
Proof.
  unfold Marianna.QLearning.act. rewrite dd_get_eq. intros H.
  apply bind_ok_inv in H as (eps & _ & H).
  apply bind_ok_inv in H as (c & _ & H).
  apply bind_ok_inv in H as ([a q] & _ & H).
  injection H as <- <-. apply counted_once_intro.
Qed.

Lemma QLearningLinearApprox_act_counts
  (self self' : Freeway.QLearningLinearApprox.agent)
  (state : string) (rnd : draws) (action : nat) :
  Freeway.QLearningLinearApprox.act self state rnd = Ok (action, self') ->
  counted_once (Freeway.QLearningLinearApprox.state_visits self)
    (Freeway.QLearningLinearApprox.state_visits self')
    (Freeway.QLearningLinearApprox.Nsa self)
    (Freeway.QLearningLinearApprox.Nsa self') state action.
Proof.
  unfold Freeway.QLearningLinearApprox.act. rewrite dd_get_eq. intros H.
  apply bind_ok_inv in H as (eps & _ & H).
  apply bind_ok_inv in H as (c & _ & H).
  apply bind_ok_inv in H as (a & _ & H).
  injection H as <- <-. apply counted_once_intro.
Qed.

Lemma SarsaLambda_act_counts (self self' : Freeway.SarsaLambda.agent)
  (state : string) (rnd : draws) (action : nat) :
  Freeway.SarsaLambda.act self state rnd = Ok (action, self') ->
  counted_once (Freeway.SarsaLambda.state_visits self)
    (Freeway.SarsaLambda.state_visits self')
    (Freeway.SarsaLambda.Nsa self) (Freeway.SarsaLambda.Nsa self')
    state action.
Proof.
  unfold Freeway.SarsaLambda.act. rewrite dd_get_eq. intros H.
  apply bind_ok_inv in H as (eps & _ & H).
  apply bind_ok_inv in H as (c & _ & H).
  apply bind_ok_inv in H as ([a q] & _ & H).
  apply bind_ok_inv in H as (e_cur & _ & H).
  apply bind_ok_inv in H as (e_row' & _ & H).
  injection H as <- <-. apply counted_once_intro.
Qed.

Lemma SarsaLFA_act_counts (self self' : Freeway.SarsaLFA.agent)
  (state : string) (rnd : draws) (action : nat) :
  Freeway.SarsaLFA.act self state rnd = Ok (action, self') ->
  visited_once (Freeway.SarsaLFA.state_visits self)
    (Freeway.SarsaLFA.state_visits self') state.
Proof.
  unfold Freeway.SarsaLFA.act. rewrite dd_get_eq. intros H.
  apply bind_ok_inv in H as (eps & _ & H).
  apply bind_ok_inv in H as (c & _ & H).
  apply bind_ok_inv in H as (a & _ & H).
  injection H as <- <-. apply visited_once_intro.
Qed.

(** [MonteCarloControl.act] only reads: at most it creates the entry of
    [state] with its default, and [Nsa] is untouched. *)
Lemma MonteCarloControl_act_counts_nothing
  (self self' : Freeway.MonteCarloControl.agent)
  (state : string) (rnd : draws) (action : nat) :
  Freeway.MonteCarloControl.act self state rnd = Ok (action, self') ->
  Freeway.MonteCarloControl.Nsa self' = Freeway.MonteCarloControl.Nsa self /\
  forall s, peek 0%nat (Freeway.MonteCarloControl.state_visits self') s
            = peek 0%nat (Freeway.MonteCarloControl.state_visits self) s.
Proof.
  unfold Freeway.MonteCarloControl.act. rewrite dd_get_eq. intros H.
  apply bind_ok_inv in H as (eps & _ & H).
  apply bind_ok_inv in H as (c & _ & H).
  apply bind_ok_inv in H as ([a p] & _ & H).
  injection H as <- <-. split; [reflexivity|].
  intros s. apply peek_create.
Qed.

(** ** [act]: which action is chosen *)

(** On a never-visited state the draw always answers "explore". *)
Lemma choice_p_unvisited (x : Qc) :
  0 <= x -> exists c, choice_p 2 [1 - 1; 1] x = Ok (S c).
Proof.
  intros Hx. replace (1 - 1) with 0 by ring. unfold choice_p.
  cbn [Nat.eqb length negb existsb orb searchsorted_right].
  change (Qc_ltb 0 0) with false. change (Qc_ltb 1 0) with false.
  cbn [orb]. change (Qc_eqb (sum_list_Qc [0; 1]) 1) with true. cbn [negb].
  replace (0 + 0) with 0 by ring. apply Qc_leb_le in Hx. rewrite Hx.
  eexists. reflexivity.
Qed.

Lemma zeros_max_min (row : list Qc) :
  Forall (fun x => x = 0) row -> row <> [] ->
  np_max row = Ok 0 /\ np_min row = Ok 0 /\ np_argmax row = Ok 0%nat.
Proof.
  intros Hall Hne. destruct row as [|x l]; [congruence|].
  apply Forall_cons in Hall as [-> Hl]. cbn [np_max np_min np_argmax].
  assert (Hmax : max_from 0 l = 0 /\ min_from 0 l = 0
                 /\ forall i, argmax_from 0 0 i l = 0%nat).
  { clear Hne. induction Hl as [|y l -> Hl IH]; cbn; [easy|].
    change (Qc_ltb 0 0) with false. cbn. destruct IH as (? & ? & ?). auto. }
  destruct Hmax as (-> & -> & ->). easy.
Qed.

Lemma nonempty_row (n : nat) (q : gmap string (list Qc)) (s : string) :
  rows_ok n q -> (0 < n)%nat -> peek (np_zeros n) q s <> [].
Proof.
  intros Hrows Hn Hnil. apply (f_equal length) in Hnil.
  rewrite rows_ok_peek in Hnil by assumption. simpl in Hnil. lia.
Qed.

Section FreewayQLearningAct.

Variables (gamma N0 : Qc) (n : nat).
Variables (q : gmap string (list Qc)) (sv : gmap string nat).
Variable nsa : gmap string (gmap nat nat).
Variables (state : string) (rnd : draws).

Let self := Freeway.QLearning.mk gamma n N0 q sv nsa.
Let visits := peek 0%nat sv state.
Let sv' := <[state := S visits]> (<[state := visits]> sv).

(** A never-visited state is always explored: the action is the uniform
    draw. *)
Lemma freeway_QLearning_act_unvisited :
  N0 <> 0 -> (0 < n)%nat -> 0 <= u rnd -> visits = 0%nat ->
  Freeway.QLearning.act self state rnd
  = Ok ((k rnd mod n)%nat,
        Freeway.QLearning.mk gamma n N0 q sv'
          (incr_Nsa nsa state (k rnd mod n)%nat)).
Proof.
  intros HN0 Hn Hu Hv. unfold Freeway.QLearning.act. rewrite dd_get_eq.
  cbn [Freeway.QLearning.state_visits Freeway.QLearning.N0
       Freeway.QLearning.available_actions Freeway.QLearning.Q
       Freeway.QLearning.Nsa Freeway.QLearning.gamma self].
  subst sv'. fold visits. rewrite Hv.
  assert (Hd : N0 + of_nat 0 <> 0) by now rewrite of_nat_0, Qcplus_0_r.
  rewrite (py_div_ok _ _ Hd). fold (epsilon_of N0 0).
  rewrite (epsilon_of_unvisited _ HN0). cbn [bind].
  destruct (choice_p_unvisited _ Hu) as [c ->]. cbn [bind Nat.eqb negb].
  unfold choice_int. destruct n; [lia|]. reflexivity.
Qed.

(** On an exploit draw with all estimates at zero the action is [1]. *)
Lemma freeway_QLearning_act_bias :
  0 < N0 -> (0 < n)%nat -> rows_ok n q ->
  u rnd < 1 - epsilon_of N0 visits ->
  Forall (fun x => x = 0) (peek (np_zeros n) q state) ->
  Freeway.QLearning.act self state rnd
  = Ok (1%nat,
        Freeway.QLearning.mk gamma n N0
          (<[state := peek (np_zeros n) q state]> q) sv'
          (incr_Nsa nsa state 1)).
Proof.
  intros HN0 Hn Hrows Hu Hzero.
  destruct (epsilon_of_bounds N0 visits HN0) as (Hd & He0 & He1).
  unfold Freeway.QLearning.act. rewrite !dd_get_eq.
  cbn [Freeway.QLearning.state_visits Freeway.QLearning.N0
       Freeway.QLearning.available_actions Freeway.QLearning.Q
       Freeway.QLearning.Nsa Freeway.QLearning.gamma self].
  subst sv'. fold visits. rewrite (py_div_ok _ _ Hd).
  fold (epsilon_of N0 visits). cbn [bind].
  rewrite choice_p_two; [|now apply Qclt_le_weak|exact He1|].
  - apply Qc_leb_gt in Hu. rewrite Hu. cbn [bind Nat.eqb negb].
    destruct (zeros_max_min _ Hzero (nonempty_row _ _ state Hrows Hn))
      as (-> & -> & _).
    cbn [bind]. rewrite Qc_eqb_refl. reflexivity.
  - eapply Qclt_trans; [exact Hu|].
    apply Qclt_minus_iff.
    now replace (1 + - (1 - epsilon_of N0 visits))
      with (epsilon_of N0 visits) by ring.
Qed.

(** With a positive [N0], at least one action and a uniform sample in
    [0, 1), the call returns. *)
Lemma freeway_QLearning_act_completes :
  0 < N0 -> (0 < n)%nat -> rows_ok n q -> u rnd < 1 ->
  completes (Freeway.QLearning.act self state rnd).
Proof.
  intros HN0 Hn Hrows Hu.
  destruct (epsilon_of_bounds N0 visits HN0) as (Hd & He0 & He1).
  unfold completes, Freeway.QLearning.act. rewrite !dd_get_eq.
  cbn [Freeway.QLearning.state_visits Freeway.QLearning.N0
       Freeway.QLearning.available_actions Freeway.QLearning.Q
       Freeway.QLearning.Nsa Freeway.QLearning.gamma self].
  fold visits. rewrite (py_div_ok _ _ Hd).
  fold (epsilon_of N0 visits). cbn [bind].
  rewrite choice_p_two; [|now apply Qclt_le_weak|exact He1|exact Hu].
  cbn [bind]. destruct (Qc_leb _ _); cbn [Nat.eqb negb].
  - unfold choice_int. destruct n; [lia|]. cbn [Nat.eqb bind]. eauto.
  - pose proof (nonempty_row _ _ state Hrows Hn) as Hne.
    destruct (peek (np_zeros n) q state) as [|x l]; [congruence|].
    cbn [np_max np_min np_argmax bind].
    destruct (Qc_eqb (max_from x l) 0); cbn [bind];
      [destruct (Qc_eqb (min_from x l) 0)|]; cbn [bind]; eauto.
Qed.

End FreewayQLearningAct.

(** On an exploit draw [MonteCarloControl.act] answers [pi[state]]. *)
Lemma MonteCarloControl_act_greedy (gamma N0 : Qc) (n : nat)
  (q : gmap string (list Qc)) (nsa : gmap string (gmap nat nat))
  (sv : gmap string nat) (pi : gmap string nat)
  (state : string) (rnd : draws) :
  let visits := peek 0%nat sv state in
  let greedy := peek Freeway.MonteCarloControl.pi_default pi state in
  0 < N0 ->
  u rnd < 1 - epsilon_of N0 visits ->
  Freeway.MonteCarloControl.act
    (Freeway.MonteCarloControl.mk gamma n N0 q nsa sv pi) state rnd
  = Ok (greedy,
        Freeway.MonteCarloControl.mk gamma n N0 q nsa
          (<[state := visits]> sv) (<[state := greedy]> pi)).
Proof.
  intros visits greedy HN0 Hu.
  destruct (epsilon_of_bounds N0 visits HN0) as (Hd & He0 & He1).
  unfold Freeway.MonteCarloControl.act. rewrite !dd_get_eq.
  cbn [Freeway.MonteCarloControl.state_visits Freeway.MonteCarloControl.N0
       Freeway.MonteCarloControl.available_actions
       Freeway.MonteCarloControl.Q Freeway.MonteCarloControl.Nsa
       Freeway.MonteCarloControl.gamma Freeway.MonteCarloControl.pi].
  fold visits. rewrite (py_div_ok _ _ Hd).
  fold (epsilon_of N0 visits). cbn [bind].
  rewrite choice_p_two; [|now apply Qclt_le_weak|exact He1|].
  - apply Qc_leb_gt in Hu. rewrite Hu. reflexivity.
  - eapply Qclt_trans; [exact Hu|].
    apply Qclt_minus_iff.
    now replace (1 + - (1 - epsilon_of N0 visits))
      with (epsilon_of N0 visits) by ring.
Qed.

(** C3 (as amended). The forward-bias action is [1]. Before any evidence
    exists for a state ([pi] has no entry for it) the greedy policy table
    maps it to [1], which is what [MonteCarloControl.act] answers on an
    exploit draw; and when all value estimates of a state are exactly zero,
    [QLearning.act] on an exploit draw selects [1], although the argmax of
    that row is index [0]. *)
Theorem forward_bias_is_action_one (gamma N0 : Qc) (n : nat)
  (q : gmap string (list Qc)) (sv : gmap string nat)
  (nsa : gmap string (gmap nat nat)) (pi : gmap string nat)
  (state : string) (rnd : draws) :
  0 < N0 -> (0 < n)%nat -> rows_ok n q ->
  u rnd < 1 - epsilon_of N0 (peek 0%nat sv state) ->
  (pi !! state = None ->
   peek Freeway.MonteCarloControl.pi_default pi state = 1%nat /\
   exists self',
     Freeway.MonteCarloControl.act
       (Freeway.MonteCarloControl.mk gamma n N0 q nsa sv pi) state rnd
     = Ok (1%nat, self')) /\
  (Forall (fun x => x = 0) (peek (np_zeros n) q state) ->
   np_argmax (peek (np_zeros n) q state) = Ok 0%nat /\
   exists self',
     Freeway.QLearning.act
       (Freeway.QLearning.mk gamma n N0 q sv nsa) state rnd
     = Ok (1%nat, self')).
Proof.
  intros HN0 Hn Hrows Hu. split.
  - intros Hpi.
    assert (Hdef : peek Freeway.MonteCarloControl.pi_default pi state = 1%nat)
      by (unfold peek; now rewrite Hpi).
    split; [exact Hdef|]. eexists.
    rewrite MonteCarloControl_act_greedy by assumption.
    rewrite Hdef. reflexivity.
  - intros Hzero. split.
    + now apply zeros_max_min, (nonempty_row n q state).
    + eexists. now apply freeway_QLearning_act_bias.
Qed.

Lemma forward_bias_is_action_one_witness :
  ((∅ : gmap string nat) !! "s" = None ->
   peek Freeway.MonteCarloControl.pi_default ∅ "s" = 1%nat /\
   exists self',
     Freeway.MonteCarloControl.act
       (Freeway.MonteCarloControl.mk (Q2Qc (1 # 2)) 3 1 ∅ ∅ seen_once ∅)
       "s" (Draws 0 2)
     = Ok (1%nat, self')) /\
  (Forall (fun x => x = 0) (peek (np_zeros 3) ∅ "s") ->
   np_argmax (peek (np_zeros 3) ∅ "s") = Ok 0%nat /\
   exists self',
     Freeway.QLearning.act
       (Freeway.QLearning.mk (Q2Qc (1 # 2)) 3 1 ∅ seen_once ∅)
       "s" (Draws 0 2)
     = Ok (1%nat, self')).
Proof.
  apply (forward_bias_is_action_one (Q2Qc (1 # 2)) 1 3 ∅ seen_once ∅ ∅
           "s" (Draws 0 2)).
  - reflexivity.
  - lia.
  - apply rows_ok_empty.
  - vm_compute. reflexivity.
Defined.

(** C3 as stated fails: the default of [pi] and the action chosen on an
    all-zero row are [1], not [2]. *)
Lemma forward_bias_is_action_one_counterexample :
  peek Freeway.MonteCarloControl.pi_default
       (Freeway.MonteCarloControl.pi
          (Freeway.MonteCarloControl.init (Q2Qc (1 # 2)) 3 1)) "s"
  <> 2%nat /\
  exists self',
    Freeway.QLearning.act
      (Freeway.QLearning.mk (Q2Qc (1 # 2)) 3 1 ∅ seen_once ∅)
      "s" (Draws 0 2)
    = Ok (1%nat, self') /\ 1%nat <> 2%nat.
Proof.
  split; [vm_compute; discriminate|].
  eexists. split; [|discriminate].
  apply freeway_QLearning_act_bias.
  - reflexivity.
  - lia.
  - apply rows_ok_empty.
  - vm_compute. reflexivity.
  - repeat constructor.
Qed.

(** In [SarsaLFA.act] the branch [elif self.state_visits[state] == 0]
    sits behind the same draw: with two actions a never-visited state is
    always explored, so that branch is not reached. *)
Lemma SarsaLFA_act_unvisited (self : Freeway.SarsaLFA.agent)
  (state : string) (rnd : draws) :
  Freeway.SarsaLFA.available_actions self = 2%nat ->
  Freeway.SarsaLFA.N0 self <> 0 ->
  0 <= u rnd ->
  peek 0%nat (Freeway.SarsaLFA.state_visits self) state = 0%nat ->
  exists self',
    Freeway.SarsaLFA.act self state rnd = Ok ((k rnd mod 2)%nat, self').
Proof.
  intros Hn HN0 Hu Hv. unfold Freeway.SarsaLFA.act.
  rewrite dd_get_eq, Hv, Hn.
  assert (Hd : Freeway.SarsaLFA.N0 self + of_nat 0 <> 0)
    by now rewrite of_nat_0, Qcplus_0_r.
  rewrite (py_div_ok _ _ Hd). fold (epsilon_of (Freeway.SarsaLFA.N0 self) 0).
  rewrite (epsilon_of_unvisited _ HN0). cbn [bind].
  destruct (choice_p_unvisited _ Hu) as [c ->]. cbn [bind Nat.eqb negb].
  unfold choice_int. cbn [Nat.eqb bind]. eauto.
Qed.

(** C4 (as amended). For a state whose value estimates are still the
    initial default (all zero): while its visit counter is zero,
    [QLearning.act] explores with probability [epsilon = 1] and returns the
    uniformly drawn action; once the explore-or-exploit draw selects
    exploitation, it returns the forward-bias action [1] whatever the
    random action draw is. *)
Theorem act_on_default_estimates (gamma N0 : Qc) (n : nat)
  (q : gmap string (list Qc)) (sv : gmap string nat)
  (nsa : gmap string (gmap nat nat)) (state : string) (rnd : draws) :
  0 < N0 -> (0 < n)%nat -> rows_ok n q -> 0 <= u rnd ->
  Forall (fun x => x = 0) (peek (np_zeros n) q state) ->
  (peek 0%nat sv state = 0%nat ->
   exists self',
     Freeway.QLearning.act (Freeway.QLearning.mk gamma n N0 q sv nsa)
       state rnd = Ok ((k rnd mod n)%nat, self')) /\
  (u rnd < 1 - epsilon_of N0 (peek 0%nat sv state) ->
   forall raw, exists self',
     Freeway.QLearning.act (Freeway.QLearning.mk gamma n N0 q sv nsa)
       state (Draws (u rnd) raw) = Ok (1%nat, self')).
Proof.
  intros HN0 Hn Hrows Hu Hzero. split.
  - intros Hv. eexists. apply freeway_QLearning_act_unvisited; try assumption.
    intros H. rewrite H in HN0. discriminate HN0.
  - intros Hexploit raw. eexists.
    now apply freeway_QLearning_act_bias.
Qed.

Lemma act_on_default_estimates_witness :
  (peek 0%nat seen_once "s" = 0%nat ->
   exists self',
     Freeway.QLearning.act
       (Freeway.QLearning.mk (Q2Qc (1 # 2)) 3 1 ∅ seen_once ∅)
       "s" (Draws 0 2) = Ok ((2 mod 3)%nat, self')) /\
  (0 < 1 - epsilon_of 1 (peek 0%nat seen_once "s") ->
   forall raw, exists self',
     Freeway.QLearning.act
       (Freeway.QLearning.mk (Q2Qc (1 # 2)) 3 1 ∅ seen_once ∅)
       "s" (Draws 0 raw) = Ok (1%nat, self')).
Proof.
  apply (act_on_default_estimates (Q2Qc (1 # 2)) 1 3 ∅ seen_once ∅ "s"
           (Draws 0 2)).
  - reflexivity.
  - lia.
  - apply rows_ok_empty.
  - discriminate.
  - repeat constructor.
Defined.

(** C4 as stated fails: on a fresh agent (state never visited, estimates
    at their default) the action is the random draw, here [0] or [2], and
    not the forward-bias action. *)
Lemma act_on_default_estimates_counterexample :
  peek 0%nat (Freeway.QLearning.state_visits
                (Freeway.QLearning.init (Q2Qc (1 # 2)) 3 1)) "s" = 0%nat /\
  Freeway.QLearning.Q (Freeway.QLearning.init (Q2Qc (1 # 2)) 3 1) !! "s"
  = None /\
  exists self1 self2,
    Freeway.QLearning.act (Freeway.QLearning.init (Q2Qc (1 # 2)) 3 1)
      "s" (Draws 0 0) = Ok (0%nat, self1) /\
    Freeway.QLearning.act (Freeway.QLearning.init (Q2Qc (1 # 2)) 3 1)
      "s" (Draws 0 2) = Ok (2%nat, self2).
Proof.
  split; [reflexivity|]. split; [reflexivity|].
  do 2 eexists. split.
  - apply (freeway_QLearning_act_unvisited (Q2Qc (1 # 2)) 1 3 ∅ ∅ ∅ "s"
             (Draws 0 0)); [discriminate|lia|discriminate|reflexivity].
  - apply (freeway_QLearning_act_unvisited (Q2Qc (1 # 2)) 1 3 ∅ ∅ ∅ "s"
             (Draws 0 2)); [discriminate|lia|discriminate|reflexivity].
Qed.

(** C5 (as amended). Every call to [act] of [QLearning] (both copies),
    [QLearningLinearApprox] and [SarsaLambda] that returns has incremented
    the visit counter of the state and [Nsa] of the chosen pair by exactly
    one and moved no other counter; [SarsaLFA.act], which keeps no [Nsa],
    increments the visit counter alone. For [QLearning] of [freeway] the
    call does return when [N0 > 0], there is at least one action and the
    uniform sample is below [1]. *)
Theorem act_counts_the_visit_once (gamma N0 : Qc) (n : nat)
  (q : gmap string (list Qc)) (sv : gmap string nat)
  (nsa : gmap string (gmap nat nat)) (state : string) (rnd : draws) :
  0 < N0 -> (0 < n)%nat -> rows_ok n q -> u rnd < 1 ->
  (exists action self',
     Freeway.QLearning.act (Freeway.QLearning.mk gamma n N0 q sv nsa)
       state rnd = Ok (action, self') /\
     counted_once sv (Freeway.QLearning.state_visits self')
       nsa (Freeway.QLearning.Nsa self') state action) /\
  (forall self self' action,
     Marianna.QLearning.act self state rnd = Ok (action, self') ->
     counted_once (Marianna.QLearning.state_visits self)
       (Marianna.QLearning.state_visits self')
       (Marianna.QLearning.Nsa self) (Marianna.QLearning.Nsa self')
       state action) /\
  (forall self self' action,
     Freeway.QLearningLinearApprox.act self state rnd = Ok (action, self') ->
     counted_once (Freeway.QLearningLinearApprox.state_visits self)
       (Freeway.QLearningLinearApprox.state_visits self')
       (Freeway.QLearningLinearApprox.Nsa self)
       (Freeway.QLearningLinearApprox.Nsa self') state action) /\
  (forall self self' action,
     Freeway.SarsaLambda.act self state rnd = Ok (action, self') ->
     counted_once (Freeway.SarsaLambda.state_visits self)
       (Freeway.SarsaLambda.state_visits self')
       (Freeway.SarsaLambda.Nsa self) (Freeway.SarsaLambda.Nsa self')
       state action) /\
  (forall self self' action,
     Freeway.SarsaLFA.act self state rnd = Ok (action, self') ->
     visited_once (Freeway.SarsaLFA.state_visits self)
       (Freeway.SarsaLFA.state_visits self') state).
Proof.
  intros HN0 Hn Hrows Hu. split; [|split; [|split; [|split]]].
  - destruct (freeway_QLearning_act_completes gamma N0 n q sv nsa state rnd
                HN0 Hn Hrows Hu) as [[action self'] Hrun].
    exists action, self'. split; [exact Hrun|].
    now apply (freeway_QLearning_act_counts _ _ _ _ _ Hrun).
  - intros self self' action. apply marianna_QLearning_act_counts.
  - intros self self' action. apply QLearningLinearApprox_act_counts.
  - intros self self' action. apply SarsaLambda_act_counts.
  - intros self self' action. apply SarsaLFA_act_counts.
Qed.

Lemma act_counts_the_visit_once_witness :
  exists action self',
    Freeway.QLearning.act
      (Freeway.QLearning.mk (Q2Qc (1 # 2)) 3 1 ∅ seen_once ∅)
      "s" (Draws (Q2Qc (3 # 4)) 2) = Ok (action, self') /\
    counted_once seen_once (Freeway.QLearning.state_visits self')
      ∅ (Freeway.QLearning.Nsa self') "s" action.
Proof.
  apply (act_counts_the_visit_once (Q2Qc (1 # 2)) 1 3 ∅ seen_once ∅ "s"
           (Draws (Q2Qc (3 # 4)) 2)).
  - reflexivity.
  - lia.
  - apply rows_ok_empty.
  - reflexivity.
Defined.

(** C5 as stated fails for [MonteCarloControl], whose update rule uses
    [alpha = 1 / Nsa[S[t]][A[t]]]: its [act] returns the greedy action and
    leaves both counters where they were. *)
Lemma act_counts_the_visit_once_counterexample :
  exists self',
    Freeway.MonteCarloControl.act
      (Freeway.MonteCarloControl.mk (Q2Qc (1 # 2)) 3 1 ∅ ∅ seen_once ∅)
      "s" (Draws 0 2) = Ok (1%nat, self') /\
    peek 0%nat (Freeway.MonteCarloControl.state_visits self') "s"
    = peek 0%nat seen_once "s" /\
    Nsa_peek (Freeway.MonteCarloControl.Nsa self') "s" 1 = 0%nat.
Proof.
  eexists. split.
  - apply MonteCarloControl_act_greedy; reflexivity.
  - split; reflexivity.
Qed.

(** The calls of the other agents do return, for instance on these. *)
Example marianna_QLearning_act_returns :
  completes (Marianna.QLearning.act (Marianna.QLearning.init 1 2 1)
               "s" (Draws 0 1)).
Proof. eexists. vm_compute. reflexivity. Qed.

Example QLearningLinearApprox_act_returns :
  completes (Freeway.QLearningLinearApprox.act
               (Freeway.QLearningLinearApprox.init 1 1 2 1 4 false "all")
               "s" (Draws 0 1)).
Proof. eexists. vm_compute. reflexivity. Qed.

Example SarsaLambda_act_returns :
  completes (Freeway.SarsaLambda.act (Freeway.SarsaLambda.init 1 3 1 1)
               "s" (Draws 0 2)).
Proof. eexists. vm_compute. reflexivity. Qed.

Example SarsaLFA_act_returns :
  completes (Freeway.SarsaLFA.act (Freeway.SarsaLFA.init 1 1 2 1 1 0 [0; 0; 0])
               "s" (Draws 0 1)).
Proof. eexists. vm_compute. reflexivity. Qed.

(** ** [act] drawing from [np.arange(available_actions)] *)

Lemma raises_not_completes {A : Type} (r : result A) :
  raises r -> ~ completes r.
Proof. intros [e ->] [a H]. discriminate H. Qed.

(** The first two statements of such an [act]: the quotient, then the
    weighted draw over a population of [n] with two probabilities. *)
Lemma draw_over_actions_raises {A : Type} (N0 : Qc) (visits n : nat) (x : Qc)
  (rest : nat -> result A) :
  n <> 2%nat ->
  raises (do epsilon <- py_div N0 (N0 + of_nat visits);
          do c <- choice_p n [1 - epsilon; epsilon] x;
          rest c).
Proof.
  intros Hn. unfold py_div. destruct (Qc_eqb (N0 + of_nat visits) 0).
  - now exists ZeroDivisionError.
  - cbn [bind]. rewrite choice_p_size_mismatch by exact Hn.
    now exists ValueError.
Qed.

Lemma marianna_QLearning_act_raises (self : Marianna.QLearning.agent)
  (state : string) (rnd : draws) :
  Marianna.QLearning.available_actions self <> 2%nat ->
  raises (Marianna.QLearning.act self state rnd).
Proof.
  intros Hn. unfold Marianna.QLearning.act. rewrite dd_get_eq.
  now apply draw_over_actions_raises.
Qed.

Lemma QLearningLinearApprox_act_raises
  (self : Freeway.QLearningLinearApprox.agent) (state : string)
  (rnd : draws) :
  Freeway.QLearningLinearApprox.available_actions self <> 2%nat ->
  raises (Freeway.QLearningLinearApprox.act self state rnd).
Proof.
  intros Hn. unfold Freeway.QLearningLinearApprox.act. rewrite dd_get_eq.
  now apply draw_over_actions_raises.
Qed.

Lemma SarsaLFAADAM_act_raises (self : Freeway.SarsaLFAADAM.agent)
  (state : string) (rnd : draws) :
  Freeway.SarsaLFAADAM.available_actions self <> 2%nat ->
  raises (Freeway.SarsaLFAADAM.act self state rnd).
Proof.
  intros Hn. unfold Freeway.SarsaLFAADAM.act. rewrite dd_get_eq.
  now apply draw_over_actions_raises.
Qed.

Lemma SarsaLFA_act_raises (self : Freeway.SarsaLFA.agent)
  (state : string) (rnd : draws) :
  Freeway.SarsaLFA.available_actions self <> 2%nat ->
  raises (Freeway.SarsaLFA.act self state rnd).
Proof.
  intros Hn. unfold Freeway.SarsaLFA.act. rewrite dd_get_eq.
  now apply draw_over_actions_raises.
Qed.

Lemma marianna_MonteCarloControl_act_raises
  (self : Marianna.MonteCarloControl.agent) (state : string) (rnd : draws) :
  Marianna.MonteCarloControl.available_actions self <> 2%nat ->
  raises (Marianna.MonteCarloControl.act self state rnd).
Proof.
  intros Hn. unfold Marianna.MonteCarloControl.act. rewrite dd_get_eq.
  now apply draw_over_actions_raises.
Qed.

(** C7 (the code departs from it). In the three agents named by the claim,
    whose explore-or-exploit draw samples from
    [np.arange(available_actions)] with the two probabilities
    [[1 - epsilon, epsilon]], no call to [act] returns once
    [available_actions > 2]: the call raises. *)
Theorem act_over_arange_actions_raises
  (ql : Marianna.QLearning.agent)
  (la : Freeway.QLearningLinearApprox.agent)
  (sa : Freeway.SarsaLFAADAM.agent) (state : string) (rnd : draws) :
  (2 < Marianna.QLearning.available_actions ql)%nat ->
  (2 < Freeway.QLearningLinearApprox.available_actions la)%nat ->
  (2 < Freeway.SarsaLFAADAM.available_actions sa)%nat ->
  raises (Marianna.QLearning.act ql state rnd) /\
  raises (Freeway.QLearningLinearApprox.act la state rnd) /\
  raises (Freeway.SarsaLFAADAM.act sa state rnd).
Proof.
  intros H1 H2 H3. split; [|split].
  - apply marianna_QLearning_act_raises. lia.
  - apply QLearningLinearApprox_act_raises. lia.
  - apply SarsaLFAADAM_act_raises. lia.
Qed.

Lemma act_over_arange_actions_raises_witness :
  raises (Marianna.QLearning.act
            (Marianna.QLearning.init (Q2Qc (1 # 2)) 3 1) "s" (Draws 0 0)) /\
  raises (Freeway.QLearningLinearApprox.act
            (Freeway.QLearningLinearApprox.init 1 (Q2Qc (1 # 2)) 3 1 4 false
               "all") "s" (Draws 0 0)) /\
  raises (Freeway.SarsaLFAADAM.act
            (Freeway.SarsaLFAADAM.init (Q2Qc (1 # 2)) 1 3 1 1 0 [0; 0; 0])
            "s" (Draws 0 0)).
Proof.
  apply (act_over_arange_actions_raises
           (Marianna.QLearning.init (Q2Qc (1 # 2)) 3 1)
           (Freeway.QLearningLinearApprox.init 1 (Q2Qc (1 # 2)) 3 1 4 false
              "all")
           (Freeway.SarsaLFAADAM.init (Q2Qc (1 # 2)) 1 3 1 1 0 [0; 0; 0])
           "s" (Draws 0 0)); cbn; lia.
Defined.

(** With three actions and [N0 = 1] the exception is numpy's
    [ValueError]; the sibling [QLearning.act] of [freeway], which draws
    from [np.arange(2)], returns on the same input. *)
Example marianna_QLearning_act_three_actions :
  Marianna.QLearning.act (Marianna.QLearning.init (Q2Qc (1 # 2)) 3 1)
    "s" (Draws 0 0) = Raise ValueError /\
  completes (Freeway.QLearning.act
               (Freeway.QLearning.init (Q2Qc (1 # 2)) 3 1) "s" (Draws 0 0)).
Proof. split; [reflexivity|]. eexists. vm_compute. reflexivity. Qed.

(** ** The Adam step of [SarsaLFAADAM] *)

Lemma nd_all_map (P : Qc -> Prop) (f : Qc -> Qc)
  (a : Freeway.SarsaLFAADAM.ndarray) :
  (forall x, P (f x)) -> nd_all P (Freeway.SarsaLFAADAM.nd_map f a).
Proof.
  intros H. destruct a as [x|xs]; cbn; [apply H|].
  induction xs; cbn; constructor; auto.
Qed.

Lemma nd_map_map (f g : Qc -> Qc) (a : Freeway.SarsaLFAADAM.ndarray) :
  Freeway.SarsaLFAADAM.nd_map f (Freeway.SarsaLFAADAM.nd_map g a)
  = Freeway.SarsaLFAADAM.nd_map (fun x => f (g x)) a.
Proof.
  destruct a as [x|xs]; cbn; [reflexivity|]. f_equal. apply map_map.
Qed.

Lemma sqrt_floor_nonneg (x : Qc) : 0 <= sqrt_floor x.
Proof.
  apply Q2Qc_le. unfold Qle. cbn. pose proof (Z.sqrt_nonneg (Qfloor x)). lia.
Qed.

Section AdamStep.

Variable np_sqrt : Qc -> Qc.
Hypothesis np_sqrt_nonneg : forall x, 0 <= np_sqrt x.

Lemma adam_denominator_bound (self : Freeway.SarsaLFAADAM.agent)
  (v_hat : Freeway.SarsaLFAADAM.ndarray) :
  nd_all (fun d => Freeway.SarsaLFAADAM.epsilon self <= d)
    (Freeway.SarsaLFAADAM.adam_denominator np_sqrt self v_hat).
Proof.
  unfold Freeway.SarsaLFAADAM.adam_denominator. rewrite nd_map_map.
  apply nd_all_map. intros x.
  rewrite <- (Qcplus_0_l (Freeway.SarsaLFAADAM.epsilon self)) at 1.
  apply Qcplus_le_compat; [apply np_sqrt_nonneg|apply Qcle_refl].
Qed.

End AdamStep.

(** [adam] changes the two moments and nothing else. *)
Lemma adam_preserves (np_sqrt : Qc -> Qc)
  (self self' : Freeway.SarsaLFAADAM.agent)
  (g step : Freeway.SarsaLFAADAM.ndarray) (t : nat) :
  Freeway.SarsaLFAADAM.adam np_sqrt self g t = Ok (step, self') ->
  Freeway.SarsaLFAADAM.alpha self' = Freeway.SarsaLFAADAM.alpha self /\
  Freeway.SarsaLFAADAM.epsilon self' = Freeway.SarsaLFAADAM.epsilon self /\
  Freeway.SarsaLFAADAM.beta_1 self' = Freeway.SarsaLFAADAM.beta_1 self /\
  Freeway.SarsaLFAADAM.beta_2 self' = Freeway.SarsaLFAADAM.beta_2 self.
Proof.
  unfold Freeway.SarsaLFAADAM.adam. intros H.
  apply bind_ok_inv in H as ([m' v'] & _ & H).
  apply bind_ok_inv in H as (st & _ & H).
  injection H as _ <-. repeat split.
Qed.

Lemma nd_op_same_shape (f : Qc -> Qc -> Qc) (h1 h2 : Qc -> Qc)
  (a : Freeway.SarsaLFAADAM.ndarray) :
  completes (Freeway.SarsaLFAADAM.nd_op f
               (Freeway.SarsaLFAADAM.nd_map h1 a)
               (Freeway.SarsaLFAADAM.nd_map h2 a)).
Proof.
  destruct a as [x|xs]; cbn; [now eexists|].
  rewrite !length_map, Nat.eqb_refl. now eexists.
Qed.

(** The first call after construction returns, whatever the gradient. *)
Lemma adam_first_call_completes (np_sqrt : Qc -> Qc) (gamma : Qc)
  (state_size n : nat) (N0 alpha lamb : Qc) (rand : list Qc)
  (g : Freeway.SarsaLFAADAM.ndarray) (t : nat) :
  completes (Freeway.SarsaLFAADAM.adam np_sqrt
               (Freeway.SarsaLFAADAM.init gamma state_size n N0 alpha lamb
                  rand) g t).
Proof.
  unfold Freeway.SarsaLFAADAM.adam, Freeway.SarsaLFAADAM.adam_moments,
    Freeway.SarsaLFAADAM.adam_denominator.
  cbn [Freeway.SarsaLFAADAM.init Freeway.SarsaLFAADAM.set_alpha
       Freeway.SarsaLFAADAM.set_moments Freeway.SarsaLFAADAM.m
       Freeway.SarsaLFAADAM.v Freeway.SarsaLFAADAM.beta_1
       Freeway.SarsaLFAADAM.beta_2 Freeway.SarsaLFAADAM.alpha
       Freeway.SarsaLFAADAM.epsilon].
  destruct g as [x|xs];
    cbn [Freeway.SarsaLFAADAM.nd_map Freeway.SarsaLFAADAM.nd_op bind
         Freeway.SarsaLFAADAM.m Freeway.SarsaLFAADAM.v
         Freeway.SarsaLFAADAM.set_moments Freeway.SarsaLFAADAM.beta_1
         Freeway.SarsaLFAADAM.beta_2 Freeway.SarsaLFAADAM.alpha
         Freeway.SarsaLFAADAM.epsilon].
  - now eexists.
  - rewrite !length_map, Nat.eqb_refl. cbn [bind]. now eexists.
Qed.

Lemma Qcpower_bounds (b : Qc) (t : nat) :
  0 <= b -> b <= 1 -> 0 <= b ^ t /\ b ^ t <= 1.
Proof.
  intros H0 H1. induction t as [|t [IH0 IH1]].
  - split; discriminate.
  - cbn [Qcpower]. split.
    + rewrite <- (Qcmult_0_l (b ^ t)).
      now apply Qcmult_le_compat_r.
    + apply Qcle_trans with (1 * b ^ t).
      * now apply Qcmult_le_compat_r.
      * now rewrite Qcmult_1_l.
Qed.

Lemma bias_correction_nonzero (b : Qc) (t : nat) :
  0 <= b -> b < 1 -> (1 <= t)%nat -> 1 - b ^ t <> 0.
Proof.
  intros H0 H1 Ht. destruct t as [|t]; [lia|].
  destruct (Qcpower_bounds b t H0 (Qclt_le_weak _ _ H1)) as [Hp0 Hp1].
  assert (Hlt : b ^ S t < 1).
  { cbn [Qcpower]. apply Qcle_lt_trans with (b * 1).
    - rewrite !(Qcmult_comm b). now apply Qcmult_le_compat_r.
    - now rewrite Qcmult_1_r. }
  intros E. apply Qclt_not_eq in Hlt. apply Hlt.
  replace (b ^ S t) with (1 - (1 - b ^ S t)) by ring. rewrite E. ring.
Qed.

(** [act] changes the visit counts and nothing else. *)
Lemma SarsaLFAADAM_act_preserves (self self' : Freeway.SarsaLFAADAM.agent)
  (state : string) (rnd : draws) (action : nat) :
  Freeway.SarsaLFAADAM.act self state rnd = Ok (action, self') ->
  Freeway.SarsaLFAADAM.alpha self' = Freeway.SarsaLFAADAM.alpha self /\
  Freeway.SarsaLFAADAM.epsilon self' = Freeway.SarsaLFAADAM.epsilon self /\
  Freeway.SarsaLFAADAM.beta_1 self' = Freeway.SarsaLFAADAM.beta_1 self /\
  Freeway.SarsaLFAADAM.beta_2 self' = Freeway.SarsaLFAADAM.beta_2 self.
Proof.
  unfold Freeway.SarsaLFAADAM.act. rewrite dd_get_eq. intros H.
  apply bind_ok_inv in H as (eps & _ & H).
  apply bind_ok_inv in H as (c & _ & H).
  apply bind_ok_inv in H as (a & _ & H).
  injection H as _ <-. repeat split.
Qed.

(** [update] changes the weights and the two moments and nothing else. *)
Lemma SarsaLFAADAM_update_preserves (np_sqrt : Qc -> Qc)
  (self self' : Freeway.SarsaLFAADAM.agent) (old_s new_s : string)
  (old_a new_a : nat) (reward : Qc) (E : nat) :
  Freeway.SarsaLFAADAM.update np_sqrt self old_s new_s old_a new_a reward E
  = Ok self' ->
  Freeway.SarsaLFAADAM.alpha self' = Freeway.SarsaLFAADAM.alpha self /\
  Freeway.SarsaLFAADAM.epsilon self' = Freeway.SarsaLFAADAM.epsilon self /\
  Freeway.SarsaLFAADAM.beta_1 self' = Freeway.SarsaLFAADAM.beta_1 self /\
  Freeway.SarsaLFAADAM.beta_2 self' = Freeway.SarsaLFAADAM.beta_2 self.
Proof.
  unfold Freeway.SarsaLFAADAM.update. intros H.
  apply bind_ok_inv in H as (q_new & _ & H).
  apply bind_ok_inv in H as (q_old & _ & H).
  apply bind_ok_inv in H as (g & _ & H).
  apply bind_ok_inv in H as ([step self1] & Hadam & H).
  apply bind_ok_inv in H as (x & _ & H).
  apply bind_ok_inv in H as (w' & _ & H).
  injection H as <-. cbn.
  exact (adam_preserves _ _ _ _ _ _ Hadam).
Qed.

(** The constants of the Adam block are those of the constructor on every
    agent a program can hold. *)
Lemma constructed_constants (np_sqrt : Qc -> Qc)
  (self : Freeway.SarsaLFAADAM.agent) :
  constructed np_sqrt self ->
  Freeway.SarsaLFAADAM.alpha self = Q2Qc (1 # 1000) /\
  Freeway.SarsaLFAADAM.epsilon self = Q2Qc (1 # 10000) /\
  Freeway.SarsaLFAADAM.beta_1 self = Q2Qc (9 # 10) /\
  Freeway.SarsaLFAADAM.beta_2 self = Q2Qc (999 # 1000).
Proof.
  induction 1 as [gamma state_size n N0 alpha lamb rand
                 |self fitted ft _ IH
                 |self self' state rnd action _ IH Hrun
                 |self self' g step t _ IH Hrun
                 |self self' old_s new_s old_a new_a reward E _ IH Hrun].
  - repeat split; now apply Qc_is_canon.
  - exact IH.
  - destruct (SarsaLFAADAM_act_preserves _ _ _ _ _ Hrun)
      as (-> & -> & -> & ->). exact IH.
  - destruct (adam_preserves _ _ _ _ _ _ Hrun) as (-> & -> & -> & ->).
    exact IH.
  - destruct (SarsaLFAADAM_update_preserves _ _ _ _ _ _ _ _ _ Hrun)
      as (-> & -> & -> & ->). exact IH.
Qed.

(** C8 (as amended). In the Adam-corrected SARSA update the divisor of the
    step is [sqrt(v_hat)] plus the constant [self.epsilon = 10e-5], that is
    [1e-4]. On every agent a program can hold and for every step count
    [t >= 1], a returning [adam(g, t)] has updated the two moments, formed
    [m_hat] and [v_hat] from them with bias corrections that do not divide
    by zero, and returned [alpha * m_hat] divided by [sqrt(v_hat) + 1e-4]
    for the agent's own [v_hat]; every component of that divisor is at
    least [1e-4], so the division never divides by zero. *)
Theorem Adam_denominator_adds_epsilon (np_sqrt : Qc -> Qc)
  (self self' : Freeway.SarsaLFAADAM.agent)
  (g step : Freeway.SarsaLFAADAM.ndarray) (t : nat) :
  (forall x, 0 <= np_sqrt x) ->
  constructed np_sqrt self ->
  (1 <= t)%nat ->
  Freeway.SarsaLFAADAM.adam np_sqrt self g t = Ok (step, self') ->
  let m_hat :=
    Freeway.SarsaLFAADAM.nd_map
      (fun x => x / (1 - Freeway.SarsaLFAADAM.beta_1 self ^ t))
      (Freeway.SarsaLFAADAM.m self') in
  let v_hat :=
    Freeway.SarsaLFAADAM.nd_map
      (fun x => x / (1 - Freeway.SarsaLFAADAM.beta_2 self ^ t))
      (Freeway.SarsaLFAADAM.v self') in
  let divisor :=
    Freeway.SarsaLFAADAM.nd_map (fun x => np_sqrt x + Q2Qc (1 # 10000))
      v_hat in
  Freeway.SarsaLFAADAM.epsilon self = Q2Qc (1 # 10000) /\
  Freeway.SarsaLFAADAM.adam_moments self g
  = Ok (Freeway.SarsaLFAADAM.m self', Freeway.SarsaLFAADAM.v self') /\
  1 - Freeway.SarsaLFAADAM.beta_1 self ^ t <> 0 /\
  1 - Freeway.SarsaLFAADAM.beta_2 self ^ t <> 0 /\
  Freeway.SarsaLFAADAM.adam_denominator np_sqrt self' v_hat = divisor /\
  Freeway.SarsaLFAADAM.nd_op Qcdiv
    (Freeway.SarsaLFAADAM.nd_map
       (Qcmult (Freeway.SarsaLFAADAM.alpha self)) m_hat)
    divisor
  = Ok step /\
  nd_all (fun d => Q2Qc (1 # 10000) <= d /\ d <> 0) divisor /\
  constructed np_sqrt self'.
Proof.
  intros Hsqrt Hc Ht Hrun m_hat v_hat divisor.
  destruct (constructed_constants np_sqrt self Hc)
    as (Halpha & Heps & Hb1 & Hb2).
  assert (Hc' : constructed np_sqrt self')
    by exact (constructed_adam np_sqrt _ _ _ _ _ Hc Hrun).
  destruct (adam_preserves _ _ _ _ _ _ Hrun) as (_ & Heps' & _).
  assert (Hden : Freeway.SarsaLFAADAM.adam_denominator np_sqrt self' v_hat
                 = divisor).
  { unfold Freeway.SarsaLFAADAM.adam_denominator, divisor.
    rewrite nd_map_map, Heps', Heps. reflexivity. }
  split; [exact Heps|].
  unfold Freeway.SarsaLFAADAM.adam in Hrun.
  apply bind_ok_inv in Hrun as ([m' v'] & Hmom & Hrun).
  apply bind_ok_inv in Hrun as (st & Hst & Hrun).
  injection Hrun as <- <-.
  cbn [Freeway.SarsaLFAADAM.set_moments Freeway.SarsaLFAADAM.m
       Freeway.SarsaLFAADAM.v Freeway.SarsaLFAADAM.beta_1
       Freeway.SarsaLFAADAM.beta_2 Freeway.SarsaLFAADAM.alpha
       Freeway.SarsaLFAADAM.epsilon] in *.
  split; [exact Hmom|].
  split; [rewrite Hb1; apply bias_correction_nonzero;
          [discriminate|reflexivity|exact Ht]|].
  split; [rewrite Hb2; apply bias_correction_nonzero;
          [discriminate|reflexivity|exact Ht]|].
  split; [exact Hden|].
  split; [rewrite <- Hden; exact Hst|].
  split; [|exact Hc'].
  rewrite <- Hden.
  pose proof (adam_denominator_bound np_sqrt Hsqrt
                (Freeway.SarsaLFAADAM.set_moments self m' v') v_hat) as Hb.
  cbn [Freeway.SarsaLFAADAM.set_moments Freeway.SarsaLFAADAM.epsilon] in Hb.
  rewrite Heps in Hb.
  destruct (Freeway.SarsaLFAADAM.adam_denominator np_sqrt _ v_hat)
    as [x|xs]; cbn in *.
  - split; [exact Hb|]. intros ->. apply Hb. reflexivity.
  - eapply Forall_impl; [exact Hb|]. cbn. intros d Hd.
    split; [exact Hd|]. intros ->. apply Hd. reflexivity.
Qed.

Lemma Adam_denominator_adds_epsilon_witness :
  exists step self',
    Freeway.SarsaLFAADAM.adam sqrt_floor
      (Freeway.SarsaLFAADAM.init (Q2Qc (1 # 2)) 1 2 1 1 0 [0; 0; 0])
      (Freeway.SarsaLFAADAM.Array [Q2Qc 3; 0; 1]) 1
    = Ok (step, self') /\
    let self :=
      Freeway.SarsaLFAADAM.init (Q2Qc (1 # 2)) 1 2 1 1 0 [0; 0; 0] in
    let g := Freeway.SarsaLFAADAM.Array [Q2Qc 3; 0; 1] in
    let m_hat :=
      Freeway.SarsaLFAADAM.nd_map
        (fun x => x / (1 - Freeway.SarsaLFAADAM.beta_1 self ^ 1))
        (Freeway.SarsaLFAADAM.m self') in
    let v_hat :=
      Freeway.SarsaLFAADAM.nd_map
        (fun x => x / (1 - Freeway.SarsaLFAADAM.beta_2 self ^ 1))
        (Freeway.SarsaLFAADAM.v self') in
    let divisor :=
      Freeway.SarsaLFAADAM.nd_map (fun x => sqrt_floor x + Q2Qc (1 # 10000))
        v_hat in
    Freeway.SarsaLFAADAM.epsilon self = Q2Qc (1 # 10000) /\
    Freeway.SarsaLFAADAM.adam_moments self g
    = Ok (Freeway.SarsaLFAADAM.m self', Freeway.SarsaLFAADAM.v self') /\
    1 - Freeway.SarsaLFAADAM.beta_1 self ^ 1 <> 0 /\
    1 - Freeway.SarsaLFAADAM.beta_2 self ^ 1 <> 0 /\
    Freeway.SarsaLFAADAM.adam_denominator sqrt_floor self' v_hat = divisor /\
    Freeway.SarsaLFAADAM.nd_op Qcdiv
      (Freeway.SarsaLFAADAM.nd_map
         (Qcmult (Freeway.SarsaLFAADAM.alpha self)) m_hat)
      divisor
    = Ok step /\
    nd_all (fun d => Q2Qc (1 # 10000) <= d /\ d <> 0) divisor /\
    constructed sqrt_floor self'.
Proof.
  do 2 eexists. split; [vm_compute; reflexivity|].
  apply (Adam_denominator_adds_epsilon sqrt_floor
           (Freeway.SarsaLFAADAM.init (Q2Qc (1 # 2)) 1 2 1 1 0 [0; 0; 0]) _
           (Freeway.SarsaLFAADAM.Array [Q2Qc 3; 0; 1]) _ 1).
  - exact sqrt_floor_nonneg.
  - apply constructed_init.
  - lia.
  - vm_compute. reflexivity.
Defined.

(** C8 as stated fails: the constant is [10e-5], which is [1e-4] and not
    [1e-5]. *)
Lemma Adam_denominator_adds_epsilon_counterexample :
  Freeway.SarsaLFAADAM.epsilon
    (Freeway.SarsaLFAADAM.init (Q2Qc (1 # 2)) 1 2 1 1 0 [0; 0; 0])
  <> Q2Qc (1 # 100000).
Proof. intros H. Qc_discriminate H. Qed.

(** C10. Whatever [alpha] is passed to the constructor of [SarsaLFAADAM],
    the stored step size is [0.001] after construction, and the step
    computed by [adam] (value and agent afterwards) does not depend on that
    argument; [adam] itself leaves the step size untouched. *)
Theorem SarsaLFAADAM_alpha_is_overridden (np_sqrt : Qc -> Qc) (gamma : Qc)
  (state_size n : nat) (N0 alpha alpha' lamb : Qc) (rand : list Qc)
  (g : Freeway.SarsaLFAADAM.ndarray) (t : nat) :
  Freeway.SarsaLFAADAM.alpha
    (Freeway.SarsaLFAADAM.init gamma state_size n N0 alpha lamb rand)
  = Q2Qc (1 # 1000) /\
  Freeway.SarsaLFAADAM.adam np_sqrt
    (Freeway.SarsaLFAADAM.init gamma state_size n N0 alpha lamb rand) g t
  = Freeway.SarsaLFAADAM.adam np_sqrt
      (Freeway.SarsaLFAADAM.init gamma state_size n N0 alpha' lamb rand) g t
  /\
  exists step self',
    Freeway.SarsaLFAADAM.adam np_sqrt
      (Freeway.SarsaLFAADAM.init gamma state_size n N0 alpha lamb rand) g t
    = Ok (step, self') /\
    Freeway.SarsaLFAADAM.alpha self' = Q2Qc (1 # 1000).
Proof.
  split; [reflexivity|]. split; [reflexivity|].
  destruct (adam_first_call_completes np_sqrt gamma state_size n N0 alpha
              lamb rand g t) as [[step self'] Hrun].
  exists step, self'. split; [exact Hrun|].
  now destruct (adam_preserves _ _ _ _ _ _ Hrun) as (-> & _).
Qed.

(** ** SARSA(lambda): where [update_Q] puts the credit *)

Lemma Q_iadd_frame (n : nat) (q q' : gmap string (list Qc)) (s : string)
  (a : nat) (x : Qc) :
  Freeway.SarsaLambda.Q_iadd n q s a x = Ok q' ->
  forall s' a', (s', a') <> (s, a) -> Q_peek n q' s' a' = Q_peek n q s' a'.
Proof.
  unfold Freeway.SarsaLambda.Q_iadd. rewrite dd_get_eq. intros H.
  apply bind_ok_inv in H as (cur & _ & H).
  apply bind_ok_inv in H as (row' & Hset & H).
  injection H as <-. unfold setitem in Hset.
  destruct (decide _); [|discriminate]. injection Hset as <-.
  intros s' a' Hne. unfold Q_peek.
  destruct (decide (s = s')) as [<-|Hs].
  - rewrite peek_insert_eq. now rewrite list_lookup_insert_ne by congruence.
  - rewrite peek_insert_ne by assumption. now rewrite peek_create.
Qed.

Lemma trace_loop_frame (self : Freeway.SarsaLambda.agent)
  (alpha delta : Qc) (old_s : string) (old_a : nat) (actions : list nat)
  (q q' : gmap string (list Qc)) (e_row e_row' : list Qc) :
  for_each (Freeway.SarsaLambda.trace_body self alpha delta old_s old_a)
           actions (q, e_row) = Ok (q', e_row') ->
  forall s a, (s, a) <> (old_s, old_a) ->
    Q_peek (Freeway.SarsaLambda.available_actions self) q' s a
    = Q_peek (Freeway.SarsaLambda.available_actions self) q s a.
Proof.
  revert q e_row. induction actions as [|i actions IH]; intros q e_row H.
  - injection H as <- _. reflexivity.
  - cbn [for_each] in H. apply bind_ok_inv in H as ([q1 row1] & Hbody & H).
    intros s a Hne. rewrite (IH _ _ H s a Hne).
    unfold Freeway.SarsaLambda.trace_body in Hbody.
    apply bind_ok_inv in Hbody as (e_sa & _ & Hbody).
    apply bind_ok_inv in Hbody as (q2 & Hadd & Hbody).
    apply bind_ok_inv in Hbody as (e_sa' & _ & Hbody).
    apply bind_ok_inv in Hbody as (row2 & _ & Hbody).
    injection Hbody as <- _.
    now apply (Q_iadd_frame _ _ _ _ _ _ Hadd).
Qed.

Lemma state_loop_frame (self : Freeway.SarsaLambda.agent)
  (alpha delta : Qc) (old_s : string) (old_a : nat)
  (entries done done' : Freeway.SarsaLambda.traces)
  (q q' : gmap string (list Qc)) :
  for_each (Freeway.SarsaLambda.state_body self alpha delta old_s old_a)
           entries (q, done) = Ok (q', done') ->
  forall s a, (s, a) <> (old_s, old_a) ->
    Q_peek (Freeway.SarsaLambda.available_actions self) q' s a
    = Q_peek (Freeway.SarsaLambda.available_actions self) q s a.
Proof.
  revert q done. induction entries as [|[s0 row0] entries IH];
    intros q done H.
  - injection H as <- _. reflexivity.
  - cbn [for_each] in H. apply bind_ok_inv in H as ([q1 done1] & Hbody & H).
    intros s a Hne. rewrite (IH _ _ H s a Hne).
    unfold Freeway.SarsaLambda.state_body in Hbody.
    apply bind_ok_inv in Hbody as ([q2 row2] & Hloop & Hbody).
    injection Hbody as <- _.
    now apply (trace_loop_frame _ _ _ _ _ _ _ _ _ _ Hloop).
Qed.

(** X13. Whatever the traces are, a returning [SarsaLambda.update_Q]
    changes no entry of [Q] other than that of [(old_s, old_a)]. *)
Lemma SarsaLambda_update_Q_frame (self self' : Freeway.SarsaLambda.agent)
  (old_s new_s : string) (old_a new_a : nat) (reward : Qc) :
  Freeway.SarsaLambda.update_Q self old_s new_s old_a new_a reward
  = Ok self' ->
  forall s a, (s, a) <> (old_s, old_a) ->
    Q_peek (Freeway.SarsaLambda.available_actions self)
           (Freeway.SarsaLambda.Q self') s a
    = Q_peek (Freeway.SarsaLambda.available_actions self)
             (Freeway.SarsaLambda.Q self) s a.
Proof.
  unfold Freeway.SarsaLambda.update_Q. rewrite !dd_get_eq, dd_get_nat_eq.
  intros H.
  apply bind_ok_inv in H as (q_new & _ & H).
  apply bind_ok_inv in H as (q_old & _ & H).
  apply bind_ok_inv in H as (alpha & _ & H).
  apply bind_ok_inv in H as ([q' e'] & Hloop & H).
  injection H as <-. intros s a Hne.
  cbn [Freeway.SarsaLambda.Q].
  rewrite (state_loop_frame _ _ _ _ _ _ _ _ _ _ Hloop s a Hne).
  unfold Q_peek. now rewrite !peek_create.
Qed.

(** C1 (the code departs from it). On the transition above both
    [("s", 0)] and [("t", 2)] carry the trace [1] when [update_Q] runs,
    with [alpha = 1] and [delta = 1]. The claim makes [Q["s"][0]] and
    [Q["t"][2]] both [1] afterwards; the code adds both increments to
    [Q[old_s][old_a]], leaving [Q["s"][0] = 2] and [Q["t"][2] = 0]. The
    traces are decayed by [gamma * lambd = 1/4] as claimed. *)
Theorem SarsaLambda_update_Q_credits_old_pair_only :
  exists before after,
    sarsa_transition = Ok (before, after) /\
    Nsa_peek (Freeway.SarsaLambda.Nsa before) "s" 0 = 1%nat /\
    (fractions <$> Freeway.SarsaLambda.E_lookup
                     (Freeway.SarsaLambda.E before) "s") = Some [1; 0; 0]%Q /\
    (fractions <$> Freeway.SarsaLambda.E_lookup
                     (Freeway.SarsaLambda.E before) "t") = Some [0; 0; 1]%Q /\
    fractions (peek (np_zeros 3) (Freeway.SarsaLambda.Q before) "s")
    = [0; 0; 0]%Q /\
    fractions (peek (np_zeros 3) (Freeway.SarsaLambda.Q before) "t")
    = [0; 0; 0]%Q /\
    fractions (peek (np_zeros 3) (Freeway.SarsaLambda.Q after) "s")
    = [2; 0; 0]%Q /\
    fractions (peek (np_zeros 3) (Freeway.SarsaLambda.Q after) "t")
    = [0; 0; 0]%Q /\
    (fractions <$> Freeway.SarsaLambda.E_lookup
                     (Freeway.SarsaLambda.E after) "s")
    = Some [1 # 4; 0; 0]%Q /\
    (fractions <$> Freeway.SarsaLambda.E_lookup
                     (Freeway.SarsaLambda.E after) "t")
    = Some [0; 0; 1 # 4]%Q.
Proof.
  do 2 eexists. split; [vm_compute; reflexivity|].
  repeat split; vm_compute; reflexivity.
Qed.

(** * Further properties *)

(** ** Tabular Q-learning: calls in sequence *)

Lemma argmax_from_range (l : list Qc) (best i : nat) (m : Qc) :
  argmax_from best m i l = best \/
  (i <= argmax_from best m i l < i + length l)%nat.
Proof.
  revert best i m. induction l as [|x l IH]; intros best i m; cbn.
  - now left.
  - destruct (Qc_ltb m x).
    + right. destruct (IH i (S i) x) as [->|H]; lia.
    + destruct (IH best (S i) m) as [H|H]; [now left|right; lia].
Qed.

Lemma np_argmax_lt (row : list Qc) (best : nat) :
  np_argmax row = Ok best -> (best < length row)%nat.
Proof.
  destruct row as [|x l]; cbn; intros H; [discriminate|].
  injection H as <-. destruct (argmax_from_range l 0 1 x) as [->|H]; lia.
Qed.

(** Everything a returning call of [QLearning.act] does. *)
Lemma freeway_QLearning_act_inv (self self' : Freeway.QLearning.agent)
  (state : string) (rnd : draws) (action : nat) :
  let n := Freeway.QLearning.available_actions self in
  let row := peek (np_zeros n) (Freeway.QLearning.Q self) state in
  Freeway.QLearning.act self state rnd = Ok (action, self') ->
  Freeway.QLearning.gamma self' = Freeway.QLearning.gamma self /\
  Freeway.QLearning.available_actions self' = n /\
  Freeway.QLearning.N0 self' = Freeway.QLearning.N0 self /\
  ((Freeway.QLearning.Q self' = Freeway.QLearning.Q self /\
    (0 < n)%nat /\ action = (k rnd mod n)%nat) \/
   (Freeway.QLearning.Q self' = <[state := row]> (Freeway.QLearning.Q self) /\
    (action = 1%nat \/ np_argmax row = Ok action))).
Proof.
  intros n row. subst n row.
  unfold Freeway.QLearning.act. rewrite dd_get_eq. intros H.
  apply bind_ok_inv in H as (eps & _ & H).
  apply bind_ok_inv in H as (c & _ & H).
  apply bind_ok_inv in H as ([a q] & Hbranch & H).
  injection H as <- <-. cbn. repeat (split; [reflexivity|]).
  destruct (negb (c =? 0)%nat).
  - apply bind_ok_inv in Hbranch as (a' & Hint & Hbranch).
    injection Hbranch as <- <-. left. split; [reflexivity|].
    unfold choice_int in Hint.
    destruct (Freeway.QLearning.available_actions self); [discriminate|].
    injection Hint as <-. split; [lia|reflexivity].
  - rewrite dd_get_eq in Hbranch. right.
    apply bind_ok_inv in Hbranch as (mx & _ & Hbranch).
    destruct (Qc_eqb mx 0).
    + apply bind_ok_inv in Hbranch as (mn & _ & Hbranch).
      destruct (Qc_eqb mn 0).
      * injection Hbranch as <- <-. split; [reflexivity|now left].
      * apply bind_ok_inv in Hbranch as (b & Hb & Hbranch).
        injection Hbranch as <- <-. split; [reflexivity|now right].
    + apply bind_ok_inv in Hbranch as (b & Hb & Hbranch).
      injection Hbranch as <- <-. split; [reflexivity|now right].
Qed.

(** A returning [act] answers an index of the row and keeps the shape
    of the table. *)
Lemma freeway_QLearning_act_in_range (self self' : Freeway.QLearning.agent)
  (state : string) (rnd : draws) (action : nat) :
  (2 <= Freeway.QLearning.available_actions self)%nat ->
  rows_ok (Freeway.QLearning.available_actions self)
          (Freeway.QLearning.Q self) ->
  Freeway.QLearning.act self state rnd = Ok (action, self') ->
  (action < Freeway.QLearning.available_actions self)%nat /\
  rows_ok (Freeway.QLearning.available_actions self')
          (Freeway.QLearning.Q self').
Proof.
  intros Hn Hrows Hrun.
  destruct (freeway_QLearning_act_inv _ _ _ _ _ Hrun)
    as (_ & Hn' & _ & [(HQ & Hpos & ->)|(HQ & Hact)]); rewrite Hn', HQ.
  - split; [now apply Nat.mod_upper_bound; lia|exact Hrows].
  - pose proof (rows_ok_peek _ _ state Hrows) as Hlen. split.
    + destruct Hact as [->|Harg]; [lia|].
      apply np_argmax_lt in Harg. now rewrite Hlen in Harg.
    + now apply rows_ok_insert.
Qed.

(** X1. With at least two actions a returning [QLearning.act] answers a
    valid index: the returned action is below [available_actions],
    whichever branch chose it (exploration, forward bias or [argmax]), and
    every row of [Q] still has [available_actions] entries. *)
Theorem freeway_QLearning_act_valid (self self' : Freeway.QLearning.agent)
  (state : string) (rnd : draws) (action : nat) :
  (2 <= Freeway.QLearning.available_actions self)%nat ->
  rows_ok (Freeway.QLearning.available_actions self)
          (Freeway.QLearning.Q self) ->
  Freeway.QLearning.act self state rnd = Ok (action, self') ->
  (action < Freeway.QLearning.available_actions self)%nat /\
  rows_ok (Freeway.QLearning.available_actions self')
          (Freeway.QLearning.Q self').
Proof.
  intros Hn Hrows Hrun.
  exact (freeway_QLearning_act_in_range self self' state rnd action Hn Hrows
           Hrun).
Qed.

Lemma freeway_QLearning_act_valid_witness :
  (2 mod 3 < 3)%nat /\
  rows_ok 3 (Freeway.QLearning.Q
               (Freeway.QLearning.mk (Q2Qc (1 # 2)) 3 1 ∅
                  (<[ "s" := 1%nat ]> (<[ "s" := 0%nat ]> ∅))
                  (incr_Nsa ∅ "s" (2 mod 3)))).
Proof.
  apply (freeway_QLearning_act_valid
           (Freeway.QLearning.init (Q2Qc (1 # 2)) 3 1)
           (Freeway.QLearning.mk (Q2Qc (1 # 2)) 3 1 ∅
              (<[ "s" := 1%nat ]> (<[ "s" := 0%nat ]> ∅))
              (incr_Nsa ∅ "s" (2 mod 3)))
           "s" (Draws 0 2) (2 mod 3)%nat).
  - cbn. lia.
  - apply rows_ok_empty.
  - vm_compute. reflexivity.
Defined.

(** The freeway [update_Q] keeps the shape of the table. *)
Lemma freeway_update_Q_rows_ok (self self' : Freeway.QLearning.agent)
  (old_state new_state : string) (action : nat) (reward : Qc) :
  rows_ok (Freeway.QLearning.available_actions self)
          (Freeway.QLearning.Q self) ->
  Freeway.QLearning.update_Q self old_state new_state action reward
  = Ok self' ->
  Freeway.QLearning.available_actions self'
  = Freeway.QLearning.available_actions self /\
  rows_ok (Freeway.QLearning.available_actions self')
          (Freeway.QLearning.Q self').
Proof.
  intros Hrows. unfold Freeway.QLearning.update_Q.
  rewrite !dd_get_eq, dd_get_nat_eq. intros H.
  apply bind_ok_inv in H as (alpha & _ & H).
  apply bind_ok_inv in H as (cur & _ & H).
  apply bind_ok_inv in H as (mx & _ & H).
  apply bind_ok_inv in H as (cur' & _ & H).
  apply bind_ok_inv in H as (row' & Hset & H).
  injection H as <-. cbn. split; [reflexivity|].
  unfold setitem in Hset. destruct (decide _); [|discriminate].
  injection Hset as <-.
  apply rows_ok_insert; [|rewrite length_insert; now apply rows_ok_peek].
  apply rows_ok_insert; [|rewrite peek_create; now apply rows_ok_peek].
  apply rows_ok_insert; [assumption|now apply rows_ok_peek].
Qed.

(** X2. A pair returned by [act] can always be learnt. After a returning
    [QLearning.act], [update_Q] on the same state and the returned action
    returns, follows the Q-learning rule with the count that [act] has just
    incremented, and keeps the shape of the table. *)
Lemma freeway_QLearning_act_then_update_Q
  (self self' : Freeway.QLearning.agent) (state new_state : string)
  (rnd : draws) (action : nat) (reward : Qc) :
  (2 <= Freeway.QLearning.available_actions self)%nat ->
  rows_ok (Freeway.QLearning.available_actions self)
          (Freeway.QLearning.Q self) ->
  Freeway.QLearning.act self state rnd = Ok (action, self') ->
  exists self'',
    Freeway.QLearning.update_Q self' state new_state action reward
    = Ok self'' /\
    Nsa_peek (Freeway.QLearning.Nsa self') state action
    = S (Nsa_peek (Freeway.QLearning.Nsa self) state action) /\
    q_learning_rule (Freeway.QLearning.gamma self)
      (Freeway.QLearning.available_actions self)
      (Freeway.QLearning.Q self') (Freeway.QLearning.Q self'')
      (Freeway.QLearning.Nsa self') state new_state action reward /\
    rows_ok (Freeway.QLearning.available_actions self'')
            (Freeway.QLearning.Q self'').
Proof.
  intros Hn Hrows Hrun.
  destruct (freeway_QLearning_act_in_range _ _ _ _ _ Hn Hrows Hrun)
    as [Hact Hrows'].
  destruct (freeway_QLearning_act_counts _ _ _ _ _ Hrun) as (_ & Hcnt & _).
  destruct (freeway_QLearning_act_inv _ _ _ _ _ Hrun) as (Hg & Hn' & _).
  destruct (freeway_update_Q_rule self' state new_state action reward)
    as (self'' & Hupd & Hrule); try assumption.
  - now rewrite Hn'.
  - rewrite Hcnt. lia.
  - exists self''. split; [exact Hupd|]. split; [exact Hcnt|].
    rewrite Hg, Hn' in Hrule. split; [exact Hrule|].
    now apply (freeway_update_Q_rows_ok self' self'' state new_state action
                 reward).
Qed.

Lemma freeway_QLearning_act_then_update_Q_witness :
  exists self'',
    Freeway.QLearning.update_Q
      (Freeway.QLearning.mk (Q2Qc (1 # 2)) 3 1 ∅
         (<[ "s" := 1%nat ]> (<[ "s" := 0%nat ]> ∅))
         (incr_Nsa ∅ "s" (2 mod 3)))
      "s" "t" (2 mod 3) 1 = Ok self'' /\
    Nsa_peek (incr_Nsa ∅ "s" (2 mod 3)) "s" (2 mod 3)
    = S (Nsa_peek ∅ "s" (2 mod 3)) /\
    q_learning_rule (Q2Qc (1 # 2)) 3 ∅ (Freeway.QLearning.Q self'')
      (incr_Nsa ∅ "s" (2 mod 3)) "s" "t" (2 mod 3) 1 /\
    rows_ok (Freeway.QLearning.available_actions self'')
            (Freeway.QLearning.Q self'').
Proof.
  apply (freeway_QLearning_act_then_update_Q
           (Freeway.QLearning.init (Q2Qc (1 # 2)) 3 1)
           (Freeway.QLearning.mk (Q2Qc (1 # 2)) 3 1 ∅
              (<[ "s" := 1%nat ]> (<[ "s" := 0%nat ]> ∅))
              (incr_Nsa ∅ "s" (2 mod 3)))
           "s" "t" (Draws 0 2) (2 mod 3)%nat 1).
  - cbn. lia.
  - apply rows_ok_empty.
  - vm_compute. reflexivity.
Defined.

(** X3. Learning a pair that [act] never recorded divides by zero. When
    [Nsa[old_state][action]] is [0] (or absent), [update_Q] of both copies
    raises [ZeroDivisionError], whatever the table holds. *)
Lemma QLearning_update_Q_unrecorded (gamma N0 : Qc) (n : nat)
  (q : gmap string (list Qc)) (sv : gmap string nat)
  (nsa : gmap string (gmap nat nat))
  (old_state new_state : string) (action : nat) (reward : Qc) :
  Nsa_peek nsa old_state action = 0%nat ->
  Freeway.QLearning.update_Q (Freeway.QLearning.mk gamma n N0 q sv nsa)
    old_state new_state action reward = Raise ZeroDivisionError /\
  Marianna.QLearning.update_Q (Marianna.QLearning.mk gamma n N0 q sv nsa)
    old_state new_state action reward = Raise ZeroDivisionError.
Proof.
  intros H. unfold Nsa_peek in H.
  unfold Freeway.QLearning.update_Q, Marianna.QLearning.update_Q.
  cbn [Freeway.QLearning.Nsa Marianna.QLearning.Nsa].
  rewrite dd_get_eq, dd_get_nat_eq, H, of_nat_0, py_div_zero.
  split; reflexivity.
Qed.

Lemma QLearning_update_Q_unrecorded_witness :
  Freeway.QLearning.update_Q
    (Freeway.QLearning.mk (Q2Qc (1 # 2)) 3 1 ∅ ∅ recorded_once)
    "s" "t" 0 1 = Raise ZeroDivisionError /\
  Marianna.QLearning.update_Q
    (Marianna.QLearning.mk (Q2Qc (1 # 2)) 3 1 ∅ ∅ recorded_once)
    "s" "t" 0 1 = Raise ZeroDivisionError.
Proof.
  apply (QLearning_update_Q_unrecorded (Q2Qc (1 # 2)) 1 3 ∅ ∅ recorded_once
           "s" "t" 0 1).
  reflexivity.
Defined.

(** X4. With a single action the forward bias leaves the action space. On
    an exploit draw with all estimates at zero [QLearning.act] answers [1],
    which is no index of a one-entry row: the [update_Q] that follows
    raises [IndexError]. *)
Lemma QLearning_single_action_bias (gamma N0 : Qc)
  (q : gmap string (list Qc)) (sv : gmap string nat)
  (nsa : gmap string (gmap nat nat)) (state new_state : string)
  (rnd : draws) (reward : Qc) :
  0 < N0 -> rows_ok 1 q ->
  u rnd < 1 - epsilon_of N0 (peek 0%nat sv state) ->
  Forall (fun x => x = 0) (peek (np_zeros 1) q state) ->
  exists self',
    Freeway.QLearning.act (Freeway.QLearning.mk gamma 1 N0 q sv nsa)
      state rnd = Ok (1%nat, self') /\
    Freeway.QLearning.update_Q self' state new_state 1 reward
    = Raise IndexError.
Proof.
  intros HN0 Hrows Hu Hzero. eexists. split.
  - apply freeway_QLearning_act_bias; try assumption. lia.
  - pose proof (rows_ok_peek 1 q state Hrows) as Hlen.
    unfold Freeway.QLearning.update_Q.
    cbn [Freeway.QLearning.Nsa Freeway.QLearning.Q
         Freeway.QLearning.available_actions].
    rewrite !dd_get_eq, dd_get_nat_eq.
    pose proof (incr_Nsa_peek_eq nsa state 1) as Hcnt.
    unfold Nsa_peek in Hcnt. rewrite Hcnt.
    rewrite (py_div_ok _ _ (of_nat_S_neq _)). cbn [bind].
    rewrite peek_insert_eq. unfold getitem.
    rewrite lookup_ge_None_2 by (rewrite Hlen; lia). reflexivity.
Qed.

Lemma QLearning_single_action_bias_witness :
  exists self',
    Freeway.QLearning.act
      (Freeway.QLearning.mk (Q2Qc (1 # 2)) 1 1 ∅ seen_once ∅)
      "s" (Draws 0 0) = Ok (1%nat, self') /\
    Freeway.QLearning.update_Q self' "s" "t" 1 1 = Raise IndexError.
Proof.
  apply (QLearning_single_action_bias (Q2Qc (1 # 2)) 1 ∅ seen_once ∅
           "s" "t" (Draws 0 0) 1).
  - reflexivity.
  - apply rows_ok_empty.
  - vm_compute. reflexivity.
  - repeat constructor.
Defined.

(** ** [act] with a non-positive [N0] *)

Lemma choice_p_bad_probability (n : nat) (eps x : Qc) :
  eps < 0 \/ 1 < eps -> choice_p n [1 - eps; eps] x = Raise ValueError.
Proof.
  intros H. unfold choice_p. destruct (n =? 0)%nat; [reflexivity|].
  destruct (negb (length _ =? n)%nat); [reflexivity|].
  assert (Hneg : existsb (fun q => Qc_ltb q 0) [1 - eps; eps] = true).
  { cbn [existsb]. destruct H as [H|H].
    - apply Qc_ltb_lt in H. rewrite H. now rewrite orb_true_r.
    - assert (H' : 1 - eps < 0).
      { apply Qclt_minus_iff. apply Qclt_minus_iff in H.
        now replace (0 + - (1 - eps)) with (eps + - 1) by ring. }
      apply Qc_ltb_lt in H'. now rewrite H'. }
  now rewrite Hneg.
Qed.

Lemma epsilon_of_negative_N0 (N0 : Qc) (visits : nat) :
  N0 < 0 -> (0 < visits)%nat -> N0 + of_nat visits <> 0 ->
  epsilon_of N0 visits < 0 \/ 1 < epsilon_of N0 visits.
Proof.
  intros HN0 Hv Hd.
  pose proof (Qcmult_div_r N0 _ Hd) as Hmul.
  fold (epsilon_of N0 visits) in Hmul.
  assert (Hvpos : 0 < of_nat visits)
    by (destruct visits; [lia|apply of_nat_S_pos]).
  set (d := N0 + of_nat visits) in *. set (e := epsilon_of N0 visits) in *.
  destruct (Qc_dec 0 d) as [[Hpos|Hneg]|Heq]; [| |congruence].
  - left. apply Qcnot_le_lt. intros Hle.
    apply (Qcmult_le_compat_r _ _ d) in Hle; [|now apply Qclt_le_weak].
    rewrite Qcmult_0_l, (Qcmult_comm e d), Hmul in Hle.
    now apply Qcle_not_lt in Hle.
  - right. apply Qcnot_le_lt. intros Hle.
    assert (Hnd : 0 < - d).
    { apply Qclt_minus_iff in Hneg. now rewrite Qcplus_0_l in Hneg. }
    apply (Qcmult_le_compat_r _ _ (- d)) in Hle; [|now apply Qclt_le_weak].
    replace (e * - d) with (- (d * e)) in Hle by ring.
    rewrite Hmul, Qcmult_1_l in Hle. subst d.
    apply Qcle_minus_iff in Hle.
    replace (- (N0 + of_nat visits) + - - N0) with (- of_nat visits) in Hle
      by ring.
    apply Qcopp_le_compat in Hle. rewrite Qcopp_involutive in Hle.
    change (- 0) with 0 in Hle. now apply Qcle_not_lt in Hle.
Qed.

(** X5. A non-positive [N0] makes [QLearning.act] fail. With [N0 = 0] a
    never-visited state divides by zero; with [N0 < 0] every state already
    visited is rejected, because [epsilon] leaves [0, 1] or its quotient
    divides by zero. *)
Lemma QLearning_act_nonpositive_N0 (gamma N0 : Qc) (n : nat)
  (q : gmap string (list Qc)) (sv : gmap string nat)
  (nsa : gmap string (gmap nat nat)) (state : string) (rnd : draws) :
  (N0 = 0 /\ peek 0%nat sv state = 0%nat) \/
  (N0 < 0 /\ (0 < peek 0%nat sv state)%nat) ->
  raises (Freeway.QLearning.act (Freeway.QLearning.mk gamma n N0 q sv nsa)
            state rnd).
Proof.
  intros H. unfold Freeway.QLearning.act.
  cbn [Freeway.QLearning.N0 Freeway.QLearning.state_visits].
  rewrite dd_get_eq.
  destruct H as [[-> Hv]|[HN0 Hv]].
  - rewrite Hv, of_nat_0, Qcplus_0_r, py_div_zero.
    now exists ZeroDivisionError.
  - unfold py_div.
    destruct (Qc_eqb (N0 + of_nat (peek 0%nat sv state)) 0) eqn:Hd.
    + now exists ZeroDivisionError.
    + apply Qc_eqb_neq in Hd. cbn [bind].
      fold (epsilon_of N0 (peek 0%nat sv state)).
      rewrite choice_p_bad_probability
        by now apply epsilon_of_negative_N0.
      now exists ValueError.
Qed.

Lemma QLearning_act_nonpositive_N0_witness :
  raises (Freeway.QLearning.act (Freeway.QLearning.init (Q2Qc (1 # 2)) 3 0)
            "s" (Draws 0 0)).
Proof.
  apply (QLearning_act_nonpositive_N0 (Q2Qc (1 # 2)) 0 3 ∅ ∅ ∅ "s"
           (Draws 0 0)).
  left. split; reflexivity.
Defined.

(** ** Monte Carlo control: episodes of any length *)

Lemma reversed_range_S (m : nat) :
  reversed_range (S m) = m :: reversed_range m.
Proof. unfold reversed_range. now rewrite seq_S, rev_app_distr. Qed.

(** X6. Episodes with at most one step teach nothing. When
    [episode.length <= 1] the loop of [update_policy] (both copies) does
    not run: the sequences are not even read, the agent is unchanged and
    the two summaries of the episode are returned. *)
Lemma MonteCarlo_update_policy_short_episode
  (f : Freeway.MonteCarloControl.agent) (m : Marianna.MonteCarloControl.agent)
  (ep : Episode.t) (tr : Transitions.t) :
  (Episode.length ep <= 1)%nat -> (Transitions.length tr <= 1)%nat ->
  Freeway.MonteCarloControl.update_policy f ep
  = Ok (Episode.get_final_score ep, Episode.get_total_reward ep, f) /\
  Marianna.MonteCarloControl.update_policy m tr
  = Ok (Transitions.get_final_score tr, Transitions.get_total_reward tr, m).
Proof.
  intros Hf Hm.
  unfold Freeway.MonteCarloControl.update_policy,
    Marianna.MonteCarloControl.update_policy.
  replace (Episode.length ep - 1)%nat with 0%nat by lia.
  replace (Transitions.length tr - 1)%nat with 0%nat by lia.
  split; reflexivity.
Qed.

Lemma MonteCarlo_update_policy_short_episode_witness :
  Freeway.MonteCarloControl.update_policy
    (Freeway.MonteCarloControl.init (Q2Qc (1 # 2)) 3 1)
    (Episode.mk ["a"] [0%nat] [Q2Qc 5] 1 (Q2Qc 7) (Q2Qc 5))
  = Ok (Q2Qc 7, Q2Qc 5, Freeway.MonteCarloControl.init (Q2Qc (1 # 2)) 3 1) /\
  Marianna.MonteCarloControl.update_policy
    (Marianna.MonteCarloControl.init (Q2Qc (1 # 2)) 3 1)
    (Transitions.mk [] 0 0 0)
  = Ok (0, 0, Marianna.MonteCarloControl.init (Q2Qc (1 # 2)) 3 1).
Proof.
  apply (MonteCarlo_update_policy_short_episode
           (Freeway.MonteCarloControl.init (Q2Qc (1 # 2)) 3 1)
           (Marianna.MonteCarloControl.init (Q2Qc (1 # 2)) 3 1)
           (Episode.mk ["a"] [0%nat] [Q2Qc 5] 1 (Q2Qc 7) (Q2Qc 5))
           (Transitions.mk [] 0 0 0)); cbn; lia.
Defined.

(** X7. An episode whose recorded sequences are shorter than its [length]
    is rejected at the first loop iteration: with [length >= 2], if [S] or
    [A] has fewer than [length - 1] entries or [R] fewer than [length], the
    freeway [update_policy] raises [IndexError]. *)
Lemma MonteCarlo_update_policy_truncated
  (self : Freeway.MonteCarloControl.agent) (ep : Episode.t) :
  (2 <= Episode.length ep)%nat ->
  (length (Episode.S ep) < Episode.length ep - 1)%nat \/
  (length (Episode.A ep) < Episode.length ep - 1)%nat \/
  (length (Episode.R ep) < Episode.length ep)%nat ->
  Freeway.MonteCarloControl.update_policy self ep = Raise IndexError.
Proof.
  intros Hlen Hshort.
  unfold Freeway.MonteCarloControl.update_policy.
  destruct (Episode.length ep) as [|[|m]] eqn:El; [lia|lia|].
  replace (S (S m) - 1)%nat with (S m) in * by lia.
  rewrite reversed_range_S. cbn [for_each].
  unfold Freeway.MonteCarloControl.update_step at 1. unfold index.
  destruct (np_array_bytes (Episode.S ep) !! m) as [s_t|] eqn:ES;
    [|reflexivity].
  cbn [bind]. rewrite dd_get_eq.
  destruct (Episode.A ep !! m) as [a_t|] eqn:EA; [|reflexivity].
  cbn [bind]. rewrite incr_Nsa_peek_eq, (py_div_ok _ _ (of_nat_S_neq _)).
  cbn [bind].
  destruct (Episode.R ep !! (m + 1)%nat) as [r|] eqn:ER; [|reflexivity].
  apply lookup_lt_Some in ES, EA, ER.
  rewrite np_array_bytes_length in ES. lia.
Qed.

Lemma MonteCarlo_update_policy_truncated_witness :
  Freeway.MonteCarloControl.update_policy
    (Freeway.MonteCarloControl.init (Q2Qc (1 # 2)) 3 1)
    (Episode.mk ["a"; "b"] [0; 1]%nat [Q2Qc 5; 1] 3 0 0)
  = Raise IndexError.
Proof.
  apply (MonteCarlo_update_policy_truncated
           (Freeway.MonteCarloControl.init (Q2Qc (1 # 2)) 3 1)
           (Episode.mk ["a"; "b"] [0; 1]%nat [Q2Qc 5; 1] 3 0 0)).
  - cbn. lia.
  - right. right. cbn. lia.
Defined.

(** The backward loop over the times below [j], started with the return
    that follows time [j], on an agent that has not met the pairs of those
    times. *)
Lemma freeway_backward_loop (ep : Episode.t) (g : Qc) (n : nat) (j : nat) :
  forall (G : Qc) (self : Freeway.MonteCarloControl.agent),
  Freeway.MonteCarloControl.gamma self = g ->
  Freeway.MonteCarloControl.available_actions self = n ->
  rows_ok n (Freeway.MonteCarloControl.Q self) ->
  (j + 1 <= length (Episode.R ep))%nat ->
  G = discounted_return g (drop (j + 1) (Episode.R ep)) ->
  (forall t, (t < j)%nat -> exists s a,
     np_array_bytes (Episode.S ep) !! t = Some s /\ Episode.A ep !! t = Some a /\
     (a < n)%nat /\
     Nsa_peek (Freeway.MonteCarloControl.Nsa self) s a = 0%nat /\
     Q_peek n (Freeway.MonteCarloControl.Q self) s a = Some 0) ->
  (forall t t' s a, (t < t')%nat -> (t' < j)%nat ->
     np_array_bytes (Episode.S ep) !! t = Some s -> Episode.A ep !! t = Some a ->
     ~ (np_array_bytes (Episode.S ep) !! t' = Some s /\ Episode.A ep !! t' = Some a)) ->
  exists G' self',
    for_each (Freeway.MonteCarloControl.update_step ep) (reversed_range j)
             (G, self) = Ok (G', self') /\
    (forall t s a, (t < j)%nat ->
       np_array_bytes (Episode.S ep) !! t = Some s -> Episode.A ep !! t = Some a ->
       Q_peek n (Freeway.MonteCarloControl.Q self') s a
       = Some (discounted_return g (drop (t + 1) (Episode.R ep)))) /\
    (forall s a,
       (forall t, (t < j)%nat ->
          ~ (np_array_bytes (Episode.S ep) !! t = Some s /\ Episode.A ep !! t = Some a)) ->
       Q_peek n (Freeway.MonteCarloControl.Q self') s a
       = Q_peek n (Freeway.MonteCarloControl.Q self) s a).
Proof.
  induction j as [|j IH]; intros G self Hg Hn Hrows HR HG Hfresh Hdist.
  - exists G, self. split; [reflexivity|]. split; [intros; lia|reflexivity].
  - rewrite reversed_range_S. cbn [for_each].
    destruct (Hfresh j) as (s & a & HS & HA & Ha & Hcnt & Hq0); [lia|].
    destruct (lookup_lt_is_Some_2 (Episode.R ep) (j + 1)) as [r Hr]; [lia|].
    destruct (freeway_update_step ep self G j s a r HS HA Hr)
      as (self1 & cur & Hrun & Hg1 & Hn1 & Hnsa1 & Hrows1 & Hcur & Hq1
          & Hframe1); [now rewrite Hn|now rewrite Hn|].
    rewrite Hn in Hn1, Hrows1, Hcur, Hq1, Hframe1. rewrite Hg in Hrun, Hq1.
    rewrite Hq0 in Hcur. injection Hcur as <-.
    rewrite Hcnt, of_nat_1 in Hq1.
    assert (HG1 : g * G + r
                  = discounted_return g (drop (j + 1) (Episode.R ep))).
    { rewrite (drop_S _ _ _ Hr). cbn [discounted_return].
      replace (S (j + 1)) with (S j + 1)%nat by lia. rewrite <- HG. ring. }
    assert (Hval : Q_peek n (Freeway.MonteCarloControl.Q self1) s a
                   = Some (discounted_return g (drop (j + 1) (Episode.R ep)))).
    { rewrite Hq1, <- HG1. f_equal. field. discriminate. }
    destruct (IH (g * G + r) self1) as (G' & self' & Hloop & Hvals & Hframe).
    + now rewrite Hg1.
    + exact Hn1.
    + exact Hrows1.
    + lia.
    + exact HG1.
    + intros t Ht.
      destruct (Hfresh t) as (s' & a' & HS' & HA' & Ha' & Hcnt' & Hq0');
        [lia|].
      exists s', a'. repeat (split; [assumption|]).
      assert (Hne : (s', a') <> (s, a)).
      { intros E. injection E as -> ->.
        now apply (Hdist t j s a Ht (Nat.lt_succ_diag_r j) HS' HA'). }
      split.
      * rewrite Hnsa1, incr_Nsa_peek_ne by congruence. exact Hcnt'.
      * now rewrite Hframe1.
    + intros t t' s' a' Htt Ht'. apply Hdist; [exact Htt|lia].
    + exists G', self'. rewrite Hrun. cbn [bind].
      split; [exact Hloop|]. split.
      * intros t s' a' Ht HS' HA'.
        destruct (decide (t = j)) as [->|Hne].
        -- rewrite HS in HS'. rewrite HA in HA'.
           injection HS' as <-. injection HA' as <-.
           rewrite Hframe; [exact Hval|].
           intros t Ht' [HSt HAt].
           now apply (Hdist t j s a Ht' (Nat.lt_succ_diag_r j) HSt HAt).
        -- apply Hvals; [lia|assumption|assumption].
      * intros s' a' Hout. rewrite Hframe.
        -- apply Hframe1. intros E. injection E as -> ->.
           now apply (Hout j (Nat.lt_succ_diag_r j)).
        -- intros t Ht. apply Hout. lia.
Qed.

(** X8. What a whole episode teaches a fresh agent. If the recorded
    sequences cover the episode, the actions are valid and no
    (state, action) pair is met twice before the last step, the freeway
    [update_policy] returns and leaves, for every time [t] before the last
    step, [Q[S[t]][A[t]]] equal to the discounted return
    [R[t+1] + gamma * R[t+2] + ...] of the rewards that follow. Here
    [S] is the array [np.array(episode.S)] of the code: its items are the
    states read back without their trailing NUL bytes, and it is those
    items that key [Q] and that must not repeat. *)
Lemma MonteCarlo_update_policy_discounted_returns (g N0 : Qc) (n : nat)
  (ep : Episode.t) :
  length (Episode.R ep) = Episode.length ep ->
  (Episode.length ep - 1 <= length (Episode.S ep))%nat ->
  (Episode.length ep - 1 <= length (Episode.A ep))%nat ->
  (forall t a, (t < Episode.length ep - 1)%nat ->
     Episode.A ep !! t = Some a -> (a < n)%nat) ->
  (forall t t' s a, (t < t')%nat -> (t' < Episode.length ep - 1)%nat ->
     np_array_bytes (Episode.S ep) !! t = Some s -> Episode.A ep !! t = Some a ->
     ~ (np_array_bytes (Episode.S ep) !! t' = Some s /\ Episode.A ep !! t' = Some a)) ->
  exists self',
    Freeway.MonteCarloControl.update_policy
      (Freeway.MonteCarloControl.init g n N0) ep
    = Ok (Episode.get_final_score ep, Episode.get_total_reward ep, self') /\
    forall t s a, (t < Episode.length ep - 1)%nat ->
      np_array_bytes (Episode.S ep) !! t = Some s -> Episode.A ep !! t = Some a ->
      Q_peek n (Freeway.MonteCarloControl.Q self') s a
      = Some (discounted_return g (drop (t + 1) (Episode.R ep))).
Proof.
  intros HR HS HA Hvalid Hdist.
  destruct (Nat.eq_dec (Episode.length ep) 0%nat) as [Hz|Hnz].
  - exists (Freeway.MonteCarloControl.init g n N0). split.
    + unfold Freeway.MonteCarloControl.update_policy. now rewrite Hz.
    + intros t s a Ht. lia.
  - destruct (freeway_backward_loop ep g n (Episode.length ep - 1) 0
                (Freeway.MonteCarloControl.init g n N0))
      as (G' & self' & Hloop & Hvals & _);
      try reflexivity.
    + apply rows_ok_empty.
    + lia.
    + rewrite drop_ge by lia. reflexivity.
    + intros t Ht.
      destruct (lookup_lt_is_Some_2 (np_array_bytes (Episode.S ep)) t)
        as [s Hs]; [rewrite np_array_bytes_length; lia|].
      destruct (lookup_lt_is_Some_2 (Episode.A ep) t) as [a Ha]; [lia|].
      exists s, a. split; [exact Hs|]. split; [exact Ha|].
      pose proof (Hvalid t a Ht Ha) as Hlt. split; [exact Hlt|].
      split; [reflexivity|]. now apply Q_peek_empty.
    + exact Hdist.
    + exists self'. split; [|exact Hvals].
      unfold Freeway.MonteCarloControl.update_policy.
      now rewrite Hloop.
Qed.

Lemma MonteCarlo_update_policy_discounted_returns_witness :
  exists self',
    Freeway.MonteCarloControl.update_policy
      (Freeway.MonteCarloControl.init (Q2Qc (1 # 2)) 3 1)
      (Episode.mk ["a"; "b"; "a"; "c"] [0; 1; 2; 0]%nat
                  [Q2Qc 5; Q2Qc 7; Q2Qc 4; Q2Qc 8] 4 0 0)
    = Ok (0, 0, self') /\
    forall t s a, (t < 3)%nat ->
      ["a"; "b"; "a"; "c"] !! t = Some s ->
      [0; 1; 2; 0]%nat !! t = Some a ->
      Q_peek 3 (Freeway.MonteCarloControl.Q self') s a
      = Some (discounted_return (Q2Qc (1 # 2))
                (drop (t + 1) [Q2Qc 5; Q2Qc 7; Q2Qc 4; Q2Qc 8])).
Proof.
  apply (MonteCarlo_update_policy_discounted_returns (Q2Qc (1 # 2)) 1 3
           (Episode.mk ["a"; "b"; "a"; "c"] [0; 1; 2; 0]%nat
                       [Q2Qc 5; Q2Qc 7; Q2Qc 4; Q2Qc 8] 4 0 0)).
  - reflexivity.
  - cbn. lia.
  - cbn. lia.
  - cbn. intros [|[|[|t]]] a Ht Ha; try lia; injection Ha as <-; lia.
  - cbn. intros [|[|[|t]]] [|[|[|t']]] s a Htt Ht' Hs Ha [Hs' Ha'];
      try lia; cbn in *; congruence.
Defined.

(** ** Monte Carlo control: the two copies side by side *)

(** The agent left by one freeway step, written out. *)
Lemma freeway_update_step_eq (episode : Episode.t)
  (self : Freeway.MonteCarloControl.agent) (G : Qc) (t : nat)
  (s_t : string) (a_t : nat) (r cur : Qc) :
  np_array_bytes (Episode.S episode) !! t = Some s_t ->
  Episode.A episode !! t = Some a_t ->
  Episode.R episode !! (t + 1)%nat = Some r ->
  peek (np_zeros (Freeway.MonteCarloControl.available_actions self))
       (Freeway.MonteCarloControl.Q self) s_t !! a_t = Some cur ->
  exists best,
    np_argmax
      (<[a_t := cur + 1 / of_nat (S (Nsa_peek
                                      (Freeway.MonteCarloControl.Nsa self)
                                      s_t a_t))
                    * (Freeway.MonteCarloControl.gamma self * G + r - cur)]>
         (peek (np_zeros (Freeway.MonteCarloControl.available_actions self))
               (Freeway.MonteCarloControl.Q self) s_t)) = Ok best /\
    Freeway.MonteCarloControl.update_step episode (G, self) t
    = Ok (Freeway.MonteCarloControl.gamma self * G + r,
          Freeway.MonteCarloControl.mk
            (Freeway.MonteCarloControl.gamma self)
            (Freeway.MonteCarloControl.available_actions self)
            (Freeway.MonteCarloControl.N0 self)
            (<[s_t :=
                 <[a_t := cur + 1 / of_nat (S (Nsa_peek
                                      (Freeway.MonteCarloControl.Nsa self)
                                      s_t a_t))
                    * (Freeway.MonteCarloControl.gamma self * G + r - cur)]>
                   (peek (np_zeros
                            (Freeway.MonteCarloControl.available_actions self))
                         (Freeway.MonteCarloControl.Q self) s_t)]>
               (Freeway.MonteCarloControl.Q self))
            (incr_Nsa (Freeway.MonteCarloControl.Nsa self) s_t a_t)
            (<[s_t := S (peek 0%nat
                           (Freeway.MonteCarloControl.state_visits self) s_t)]>
               (Freeway.MonteCarloControl.state_visits self))
            (<[s_t := best]> (Freeway.MonteCarloControl.pi self))).
Proof.
  intros HS HA HR Hcur.
  pose proof (lookup_lt_Some _ _ _ Hcur) as Hlt.
  unfold Freeway.MonteCarloControl.update_step.
  rewrite (index_ok _ _ _ HS), (index_ok _ _ _ HA), (index_ok _ _ _ HR).
  cbn [bind]. rewrite !dd_get_eq. cbn iota.
  rewrite incr_Nsa_peek_eq, (py_div_ok _ _ (of_nat_S_neq _)). cbn [bind].
  rewrite (getitem_ok _ _ _ Hcur). cbn [bind].
  rewrite setitem_ok by exact Hlt. cbn [bind].
  match goal with
  | |- context [np_argmax ?row] =>
      destruct (np_argmax_ok row) as [best Hbest];
      [rewrite length_insert; lia|]
  end.
  exists best. split; [exact Hbest|]. rewrite Hbest. cbn [bind].
  now rewrite !insert_insert_eq.
Qed.

(** The agent left by one marianna step, written out. *)
Lemma marianna_update_step_eq (episode : Transitions.t)
  (self : Marianna.MonteCarloControl.agent) (G : Qc) (t : nat)
  (raw_t s_t s_n nx_t nx_n : string) (a_t a_n : nat) (r_t r : Qc) :
  Transitions.items episode !! t = Some (raw_t, a_t, r_t, nx_t) ->
  s_t = np_bytes_item raw_t ->
  Transitions.items episode !! (t + 1)%nat = Some (s_n, a_n, r, nx_n) ->
  (a_t < length
           (peek (np_zeros (Marianna.MonteCarloControl.available_actions self))
                 (Marianna.MonteCarloControl.Q self) s_t))%nat ->
  exists best,
    np_argmax
      (<[a_t := sum_list_Qc
                  (Returns_peek (Marianna.MonteCarloControl.Returns self)
                                s_t a_t
                   ++ [Marianna.MonteCarloControl.gamma self * G + r])
                / of_nat (S (length
                               (Returns_peek
                                  (Marianna.MonteCarloControl.Returns self)
                                  s_t a_t)))]>
         (peek (np_zeros (Marianna.MonteCarloControl.available_actions self))
               (Marianna.MonteCarloControl.Q self) s_t)) = Ok best /\
    Marianna.MonteCarloControl.update_step episode (G, self) t
    = Ok (Marianna.MonteCarloControl.gamma self * G + r,
          Marianna.MonteCarloControl.mk
            (Marianna.MonteCarloControl.gamma self)
            (Marianna.MonteCarloControl.available_actions self)
            (<[s_t :=
                 <[a_t := sum_list_Qc
                  (Returns_peek (Marianna.MonteCarloControl.Returns self)
                                s_t a_t
                   ++ [Marianna.MonteCarloControl.gamma self * G + r])
                / of_nat (S (length
                               (Returns_peek
                                  (Marianna.MonteCarloControl.Returns self)
                                  s_t a_t)))]>
                   (peek (np_zeros
                            (Marianna.MonteCarloControl.available_actions self))
                         (Marianna.MonteCarloControl.Q self) s_t)]>
               (Marianna.MonteCarloControl.Q self))
            (<[s_t := <[a_t := Returns_peek
                                 (Marianna.MonteCarloControl.Returns self)
                                 s_t a_t
                               ++ [Marianna.MonteCarloControl.gamma self * G
                                   + r]]>
                        (peek ∅ (Marianna.MonteCarloControl.Returns self)
                              s_t)]>
               (Marianna.MonteCarloControl.Returns self))
            (<[s_t := best]> (Marianna.MonteCarloControl.pi self))
            (Marianna.MonteCarloControl.N0 self)).
Proof.
  intros Ht Hs Hn Hlt.
  unfold Marianna.MonteCarloControl.update_step. cbn zeta.
  rewrite !(index_ok _ (t + 1) r), !(index_ok _ t s_t), !(index_ok _ t a_t)
    by (unfold np_array_bytes; rewrite !list_lookup_fmap;
        (rewrite Ht || rewrite Hn); cbn; congruence).
  cbn [bind]. rewrite !dd_get_eq. cbn iota.
  fold (Returns_peek (Marianna.MonteCarloControl.Returns self) s_t a_t).
  set (old := Returns_peek (Marianna.MonteCarloControl.Returns self) s_t a_t).
  assert (Hcnt : length (old ++ [Marianna.MonteCarloControl.gamma self * G + r])
                 = S (length old))
    by (rewrite length_app; simpl; lia).
  rewrite Hcnt, (py_div_ok _ _ (of_nat_S_neq _)). cbn [bind].
  rewrite setitem_ok by exact Hlt. cbn [bind].
  match goal with
  | |- context [np_argmax ?row] =>
      destruct (np_argmax_ok row) as [best Hbest];
      [rewrite length_insert; lia|]
  end.
  exists best. split; [exact Hbest|]. rewrite Hbest. cbn [bind].
  now rewrite !insert_insert_eq.
Qed.

Lemma of_nat_S (k : nat) : of_nat (S k) = of_nat k + 1.
Proof.
  unfold of_nat, Qcplus. apply Q2Qc_eq_iff. simpl this.
  rewrite Qred_correct, Nat2Z.inj_succ. unfold Z.succ.
  now rewrite inject_Z_plus.
Qed.

Lemma sum_list_Qc_snoc (l : list Qc) (x : Qc) :
  sum_list_Qc (l ++ [x]) = sum_list_Qc l + x.
Proof.
  induction l as [|y l IH]; cbn.
  - ring.
  - unfold sum_list_Qc in IH. rewrite IH. ring.
Qed.

(** The incremental mean and the mean of the list are the same number. *)
Lemma incremental_mean (old : list Qc) (cur x : Qc) :
  (old <> [] -> cur = sum_list_Qc old / of_nat (length old)) ->
  cur + 1 / of_nat (S (length old)) * (x - cur)
  = sum_list_Qc (old ++ [x]) / of_nat (S (length old)).
Proof.
  intros Hcur. rewrite sum_list_Qc_snoc.
  destruct old as [|y old].
  - cbn [length sum_list_Qc foldr]. rewrite of_nat_1. field. discriminate.
  - rewrite Hcur by discriminate.
    set (L := of_nat (length (y :: old))).
    assert (HL : L <> 0) by apply of_nat_S_neq.
    assert (HL1 : L + 1 <> 0).
    { unfold L. rewrite <- of_nat_S. apply of_nat_S_neq. }
    rewrite (of_nat_S (length (y :: old))). fold L.
    field. split; assumption.
Qed.

Lemma copies_agree_step (tr : Transitions.t)
  (f : Freeway.MonteCarloControl.agent)
  (m : Marianna.MonteCarloControl.agent) (G : Qc) (t : nat)
  (raw_t s_n nx_t nx_n : string) (a_t a_n : nat) (r_t r : Qc) :
  copies_agree f m ->
  Transitions.items tr !! t = Some (raw_t, a_t, r_t, nx_t) ->
  Transitions.items tr !! (t + 1)%nat = Some (s_n, a_n, r, nx_n) ->
  (a_t < Freeway.MonteCarloControl.available_actions f)%nat ->
  exists G' f' m',
    Freeway.MonteCarloControl.update_step (episode_of tr) (G, f) t
    = Ok (G', f') /\
    Marianna.MonteCarloControl.update_step tr (G, m) t = Ok (G', m') /\
    Freeway.MonteCarloControl.available_actions f'
    = Freeway.MonteCarloControl.available_actions f /\
    copies_agree f' m'.
Proof.
  intros (Hg & Hn & Hrows & Hrow & Hpi & Hcnt & Hmean) Ht Hnx Hact.
  cbn zeta in *.
  set (s_t := np_bytes_item raw_t).
  set (n := Freeway.MonteCarloControl.available_actions f) in *.
  pose proof (rows_ok_peek n _ s_t Hrows) as Hlen.
  destruct (lookup_lt_is_Some_2
              (peek (np_zeros n) (Freeway.MonteCarloControl.Q f) s_t) a_t)
    as [cur Hcur]; [now rewrite Hlen|].
  set (old := Returns_peek (Marianna.MonteCarloControl.Returns m) s_t a_t).
  destruct (freeway_update_step_eq (episode_of tr) f G t s_t a_t r cur)
    as (bf & Hbf & Hrunf); try assumption;
    try (cbn; rewrite ?np_array_bytes_lookup, list_lookup_fmap;
         (rewrite Ht || rewrite Hnx); reflexivity).
  destruct (marianna_update_step_eq tr m G t raw_t s_t s_n nx_t nx_n a_t a_n
              r_t r Ht eq_refl Hnx) as (bm & Hbm & Hrunm).
  { rewrite <- Hn, <- Hrow, Hlen. exact Hact. }
  fold n in Hbf, Hrunf. rewrite <- Hn, <- Hg, <- Hrow in Hbm, Hrunm.
  fold old in Hbm, Hrunm. rewrite (Hcnt s_t a_t) in Hbf, Hrunf.
  fold old in Hbf, Hrunf.
  assert (Hval : cur + 1 / of_nat (S (length old))
                       * (Freeway.MonteCarloControl.gamma f * G + r - cur)
                 = sum_list_Qc
                     (old ++ [Freeway.MonteCarloControl.gamma f * G + r])
                   / of_nat (S (length old))).
  { apply incremental_mean. intros Hne.
    pose proof (Hmean s_t a_t Hne) as Hm. unfold Q_peek in Hm.
    rewrite <- Hrow, Hcur in Hm. now injection Hm. }
  rewrite Hval in Hbf, Hrunf. rewrite Hbf in Hbm. injection Hbm as <-.
  do 3 eexists. split; [exact Hrunf|]. split; [exact Hrunm|].
  split; [reflexivity|].
  unfold copies_agree.
  cbn [Freeway.MonteCarloControl.gamma Freeway.MonteCarloControl.Q
       Freeway.MonteCarloControl.Nsa Freeway.MonteCarloControl.pi
       Freeway.MonteCarloControl.available_actions
       Marianna.MonteCarloControl.gamma Marianna.MonteCarloControl.Q
       Marianna.MonteCarloControl.Returns Marianna.MonteCarloControl.pi
       Marianna.MonteCarloControl.available_actions].
  fold n.
  split; [reflexivity|]. split; [reflexivity|]. split; [|split; [|split; [|split]]].
  - apply rows_ok_insert; [exact Hrows|now rewrite length_insert].
  - intros s. destruct (decide (s_t = s)) as [<-|Hs].
    + now rewrite !peek_insert_eq.
    + rewrite !peek_insert_ne by assumption. apply Hrow.
  - now rewrite Hpi.
  - intros s a. destruct (decide ((s_t, a_t) = (s, a))) as [E|Hne].
    + injection E as <- <-. rewrite incr_Nsa_peek_eq, Hcnt. fold old.
      unfold Returns_peek. rewrite peek_insert_eq, lookup_insert_eq.
      simpl. rewrite length_app. cbn. lia.
    + rewrite incr_Nsa_peek_ne by exact Hne. rewrite Hcnt.
      unfold Returns_peek. destruct (decide (s_t = s)) as [<-|Hs].
      * rewrite peek_insert_eq. now rewrite lookup_insert_ne by congruence.
      * now rewrite peek_insert_ne by assumption.
  - intros s a. destruct (decide ((s_t, a_t) = (s, a))) as [E|Hne].
    + injection E as <- <-. intros _.
      unfold Returns_peek, Q_peek.
      rewrite !peek_insert_eq, lookup_insert_eq. simpl.
      fold old.
      rewrite list_lookup_insert_eq by (rewrite Hlen; exact Hact).
      f_equal. f_equal. f_equal. rewrite length_app. cbn. lia.
    + assert (HR : Returns_peek
                     (<[s_t := <[a_t := old
                                  ++ [Freeway.MonteCarloControl.gamma f * G
                                      + r]]>
                                 (peek ∅
                                    (Marianna.MonteCarloControl.Returns m)
                                    s_t)]>
                        (Marianna.MonteCarloControl.Returns m)) s a
                   = Returns_peek (Marianna.MonteCarloControl.Returns m) s a).
      { unfold Returns_peek. destruct (decide (s_t = s)) as [<-|Hs].
        - rewrite peek_insert_eq. now rewrite lookup_insert_ne by congruence.
        - now rewrite peek_insert_ne by assumption. }
      rewrite HR. intros Hnonempty. rewrite <- (Hmean s a Hnonempty).
      unfold Q_peek. destruct (decide (s_t = s)) as [<-|Hs].
      * rewrite peek_insert_eq, Hrow.
        now rewrite list_lookup_insert_ne by congruence.
      * now rewrite peek_insert_ne by assumption.
Qed.

Lemma copies_agree_loop (tr : Transitions.t) (n : nat) (ts : list nat) :
  forall (G : Qc) (f : Freeway.MonteCarloControl.agent)
         (m : Marianna.MonteCarloControl.agent),
  copies_agree f m ->
  Freeway.MonteCarloControl.available_actions f = n ->
  Forall (fun t => exists s a r x s' a' r' x',
            Transitions.items tr !! t = Some (s, a, r, x) /\
            Transitions.items tr !! (t + 1)%nat = Some (s', a', r', x') /\
            (a < n)%nat) ts ->
  exists G' f' m',
    for_each (Freeway.MonteCarloControl.update_step (episode_of tr)) ts (G, f)
    = Ok (G', f') /\
    for_each (Marianna.MonteCarloControl.update_step tr) ts (G, m)
    = Ok (G', m') /\
    Freeway.MonteCarloControl.available_actions f' = n /\
    copies_agree f' m'.
Proof.
  induction ts as [|t ts IH]; intros G f m Hagree Hn Hall.
  - exists G, f, m. split; [reflexivity|]. split; [reflexivity|].
    split; assumption.
  - apply Forall_cons in Hall as [(s & a & r & x & s' & a' & r' & x'
                                   & Ht & Hnx & Ha) Hall].
    destruct (copies_agree_step tr f m G t s s' x x' a a' r r' Hagree Ht Hnx)
      as (G1 & f1 & m1 & Hf & Hm & Hn1 & Hagree1); [now rewrite Hn|].
    destruct (IH G1 f1 m1 Hagree1)
      as (G' & f' & m' & Hf' & Hm' & Hn' & Hagree');
      [now rewrite Hn1|exact Hall|].
    exists G', f', m'. cbn [for_each]. rewrite Hf, Hm. cbn [bind].
    split; [exact Hf'|]. split; [exact Hm'|]. split; assumption.
Qed.

Lemma elem_of_reversed_range (m t : nat) :
  t ∈ reversed_range m -> (t < m)%nat.
Proof.
  unfold reversed_range. rewrite list_elem_of_In, <- in_rev, in_seq. lia.
Qed.

(** X9. The two copies of [MonteCarloControl.update_policy] learn the same
    from an episode that meets no pair twice. On fresh agents and an
    episode whose transitions cover its [length], whose actions are valid
    and in which no (state, action) pair occurs twice before the last step
    (states compared as the code keys them, read back from the bytes
    array), both copies return the summaries of the episode and leave the
    same rows in [Q] and the same policy [pi], and [Nsa] of one counts the
    returns collected by the other. With a pair met once the step
    [Q + (1 / 1) * (G - Q)] from [Q = 0] and the mean [sum([G]) / 1] are
    both [G] itself, in floating point too. When a pair is met again the
    incremental mean and the list mean are the same rational but may round
    differently, so the statement stops short of revisits. *)
Lemma MonteCarlo_copies_agree (g N0 : Qc) (n : nat) (tr : Transitions.t) :
  (Transitions.length tr <= length (Transitions.items tr))%nat ->
  (forall t s a r x, (t < Transitions.length tr - 1)%nat ->
     Transitions.items tr !! t = Some (s, a, r, x) -> (a < n)%nat) ->
  (forall t t' s a r x s' a' r' x',
     (t < t')%nat -> (t' < Transitions.length tr - 1)%nat ->
     Transitions.items tr !! t = Some (s, a, r, x) ->
     Transitions.items tr !! t' = Some (s', a', r', x') ->
     (np_bytes_item s, a) <> (np_bytes_item s', a')) ->
  exists f' m',
    Freeway.MonteCarloControl.update_policy
      (Freeway.MonteCarloControl.init g n N0) (episode_of tr)
    = Ok (Transitions.get_final_score tr, Transitions.get_total_reward tr,
          f') /\
    Marianna.MonteCarloControl.update_policy
      (Marianna.MonteCarloControl.init g n N0) tr
    = Ok (Transitions.get_final_score tr, Transitions.get_total_reward tr,
          m') /\
    (forall s, peek (np_zeros n) (Freeway.MonteCarloControl.Q f') s
               = peek (np_zeros n) (Marianna.MonteCarloControl.Q m') s) /\
    Freeway.MonteCarloControl.pi f' = Marianna.MonteCarloControl.pi m' /\
    (forall s a,
       Nsa_peek (Freeway.MonteCarloControl.Nsa f') s a
       = length (Returns_peek (Marianna.MonteCarloControl.Returns m') s a)).
Proof.
  intros Hlen Hvalid _.
  assert (Hfresh : copies_agree (Freeway.MonteCarloControl.init g n N0)
                                (Marianna.MonteCarloControl.init g n N0)).
  { unfold copies_agree. cbn. repeat split; try reflexivity.
    - apply rows_ok_empty.
    - intros s a H. now contradiction H. }
  destruct (copies_agree_loop tr n
              (reversed_range (Transitions.length tr - 1)) 0
              _ _ Hfresh eq_refl)
    as (G' & f' & m' & Hf & Hm & Hn' & Hagree).
  { apply Forall_forall. intros t Ht. apply elem_of_reversed_range in Ht.
    destruct (lookup_lt_is_Some_2 (Transitions.items tr) t)
      as [[[[s a] r] x] Hs]; [lia|].
    destruct (lookup_lt_is_Some_2 (Transitions.items tr) (t + 1))
      as [[[[s' a'] r'] x'] Hs']; [lia|].
    exists s, a, r, x, s', a', r', x'. repeat split; try assumption.
    now apply (Hvalid t s a r x). }
  exists f', m'.
  unfold Freeway.MonteCarloControl.update_policy,
    Marianna.MonteCarloControl.update_policy.
  cbn [episode_of Episode.length Episode.get_final_score
       Episode.get_total_reward].
  fold (episode_of tr). rewrite Hf, Hm. cbn [bind].
  split; [reflexivity|]. split; [reflexivity|].
  destruct Hagree as (_ & Hn & _ & Hrow & Hpi & Hcnt & _). cbn zeta in *.
  split; [|split; [exact Hpi|exact Hcnt]]. intros s.
  rewrite <- Hn'. apply Hrow.
Qed.

Lemma MonteCarlo_copies_agree_witness :
  exists f' m',
    Freeway.MonteCarloControl.update_policy
      (Freeway.MonteCarloControl.init (Q2Qc (1 # 2)) 3 1)
      (episode_of returning_episode)
    = Ok (Q2Qc 3, Q2Qc 24, f') /\
    Marianna.MonteCarloControl.update_policy
      (Marianna.MonteCarloControl.init (Q2Qc (1 # 2)) 3 1)
      returning_episode
    = Ok (Q2Qc 3, Q2Qc 24, m') /\
    (forall s, peek (np_zeros 3) (Freeway.MonteCarloControl.Q f') s
               = peek (np_zeros 3) (Marianna.MonteCarloControl.Q m') s) /\
    Freeway.MonteCarloControl.pi f' = Marianna.MonteCarloControl.pi m' /\
    (forall s a,
       Nsa_peek (Freeway.MonteCarloControl.Nsa f') s a
       = length (Returns_peek (Marianna.MonteCarloControl.Returns m') s a)).
Proof.
  apply (MonteCarlo_copies_agree (Q2Qc (1 # 2)) 1 3 returning_episode).
  - cbn. lia.
  - cbn. intros [|[|[|t]]] s a r x Ht H; try lia; injection H as <- <- <- <-;
      lia.
  - cbn. intros [|[|[|t]]] [|[|[|t']]] s a r x s' a' r' x' Htt Ht' H H';
      try lia; injection H as <- <- <- <-; injection H' as <- <- <- <-;
      intros E; vm_compute in E; discriminate E.
Defined.

(** ** Monte Carlo control: the policy after an update *)

Lemma freeway_update_step_inv (ep : Episode.t)
  (self self' : Freeway.MonteCarloControl.agent) (G G' : Qc) (t : nat) :
  Freeway.MonteCarloControl.update_step ep (G, self) t = Ok (G', self') ->
  exists s_t row' best,
    np_array_bytes (Episode.S ep) !! t = Some s_t /\
    np_argmax row' = Ok best /\
    Freeway.MonteCarloControl.Q self'
    = <[s_t := row']> (Freeway.MonteCarloControl.Q self) /\
    Freeway.MonteCarloControl.pi self'
    = <[s_t := best]> (Freeway.MonteCarloControl.pi self) /\
    Freeway.MonteCarloControl.available_actions self'
    = Freeway.MonteCarloControl.available_actions self.
Proof.
  unfold Freeway.MonteCarloControl.update_step. intros H.
  apply bind_ok_inv in H as (s_t & HS & H). rewrite dd_get_eq in H.
  apply bind_ok_inv in H as (a_t & _ & H).
  apply bind_ok_inv in H as (alpha & _ & H).
  apply bind_ok_inv in H as (r & _ & H). rewrite dd_get_eq in H.
  apply bind_ok_inv in H as (cur & _ & H).
  apply bind_ok_inv in H as (row' & _ & H).
  apply bind_ok_inv in H as (best & Hbest & H).
  injection H as _ <-. exists s_t, row', best. cbn.
  unfold index in HS.
  destruct (np_array_bytes (Episode.S ep) !! t); [|discriminate].
  injection HS as ->. rewrite insert_insert_eq. repeat split. exact Hbest.
Qed.

Lemma policy_greedy_loop (ep : Episode.t) (ts : list nat) :
  forall (G G' : Qc) (self self' : Freeway.MonteCarloControl.agent),
  for_each (Freeway.MonteCarloControl.update_step ep) ts (G, self)
  = Ok (G', self') ->
  policy_greedy self ->
  policy_greedy self' /\
  (forall s, is_Some (Freeway.MonteCarloControl.pi self !! s) ->
             is_Some (Freeway.MonteCarloControl.pi self' !! s)) /\
  (forall t s, t ∈ ts -> np_array_bytes (Episode.S ep) !! t = Some s ->
               is_Some (Freeway.MonteCarloControl.pi self' !! s)).
Proof.
  induction ts as [|t ts IH]; intros G G' self self' H Hgreedy.
  - injection H as _ <-. split; [exact Hgreedy|]. split; [auto|].
    intros t s Ht. now apply not_elem_of_nil in Ht.
  - cbn [for_each] in H. apply bind_ok_inv in H as ([G1 self1] & Hstep & H).
    destruct (freeway_update_step_inv _ _ _ _ _ _ Hstep)
      as (s_t & row' & best & HS & Hbest & HQ & Hpi & Hn).
    assert (Hgreedy1 : policy_greedy self1).
    { intros s b Hs. rewrite Hn, HQ. rewrite Hpi in Hs.
      destruct (decide (s_t = s)) as [<-|Hne].
      - rewrite lookup_insert_eq in Hs. injection Hs as <-.
        now rewrite peek_insert_eq.
      - rewrite lookup_insert_ne in Hs by assumption.
        rewrite peek_insert_ne by assumption. now apply Hgreedy. }
    destruct (IH _ _ _ _ H Hgreedy1) as (Hg' & Hkeep & Hnew).
    split; [exact Hg'|]. split.
    + intros s Hs. apply Hkeep. rewrite Hpi.
      destruct (decide (s_t = s)) as [<-|Hne].
      * rewrite lookup_insert_eq. eauto.
      * now rewrite lookup_insert_ne.
    + intros t' s Ht' HS'. apply elem_of_cons in Ht' as [->|Ht'].
      * apply Hkeep. rewrite Hpi. rewrite HS in HS'. injection HS' as <-.
        rewrite lookup_insert_eq. eauto.
      * now apply (Hnew t').
Qed.

(** X10. After [update_policy] the policy is greedy. If every entry of [pi]
    was the argmax of its row before, then after a returning freeway
    [update_policy] every entry still is, and every state met before the
    last step of the episode has an entry: [pi[S[t]] = argmax Q[S[t]]],
    where [S] is the array [np.array(episode.S)] of the code, whose items
    are the states read back without their trailing NUL bytes. *)
Lemma MonteCarlo_update_policy_greedy
  (self self' : Freeway.MonteCarloControl.agent) (ep : Episode.t)
  (score total : Qc) :
  policy_greedy self ->
  Freeway.MonteCarloControl.update_policy self ep
  = Ok (score, total, self') ->
  policy_greedy self' /\
  forall t s, (t < Episode.length ep - 1)%nat ->
    np_array_bytes (Episode.S ep) !! t = Some s ->
    exists b,
      Freeway.MonteCarloControl.pi self' !! s = Some b /\
      np_argmax (peek (np_zeros
                         (Freeway.MonteCarloControl.available_actions self'))
                      (Freeway.MonteCarloControl.Q self') s) = Ok b.
Proof.
  intros Hgreedy H. unfold Freeway.MonteCarloControl.update_policy in H.
  apply bind_ok_inv in H as ([G' self1] & Hloop & H).
  injection H as _ _ <-.
  destruct (policy_greedy_loop _ _ _ _ _ _ Hloop Hgreedy)
    as (Hg' & _ & Hnew).
  split; [exact Hg'|]. intros t s Ht HS.
  destruct (Hnew t s) as [b Hb]; [|exact HS|].
  - unfold reversed_range. rewrite list_elem_of_In, <- in_rev, in_seq. lia.
  - exists b. split; [exact Hb|]. now apply Hg'.
Qed.

Lemma MonteCarlo_update_policy_greedy_witness :
  exists self',
    Freeway.MonteCarloControl.update_policy
      (Freeway.MonteCarloControl.init (Q2Qc (1 # 2)) 3 1)
      (episode_of revisiting_episode) = Ok (Q2Qc 3, Q2Qc 24, self') /\
    policy_greedy self'.
Proof.
  eexists. split; [vm_compute; reflexivity|].
  apply (MonteCarlo_update_policy_greedy
           (Freeway.MonteCarloControl.init (Q2Qc (1 # 2)) 3 1) _
           (episode_of revisiting_episode) (Q2Qc 3) (Q2Qc 24)).
  - intros s b Hs. cbn in Hs. now rewrite lookup_empty in Hs.
  - vm_compute. reflexivity.
Defined.

(** ** SARSA(lambda): the whole of [update_Q] *)

Lemma Q_iadd_credited (n : nat) (q : gmap string (list Qc)) (s : string)
  (a : nat) (v x : Qc) :
  (a < length (peek (np_zeros n) q s))%nat ->
  Freeway.SarsaLambda.Q_iadd n (credited n q s a v) s a x
  = Ok (credited n q s a (v + x)).
Proof.
  intros Hlt. unfold Freeway.SarsaLambda.Q_iadd, credited.
  rewrite dd_get_eq, peek_insert_eq.
  rewrite (getitem_ok _ _ v) by now apply list_lookup_insert_eq.
  cbn [bind]. rewrite setitem_ok by now rewrite length_insert.
  cbn [bind]. now rewrite list_insert_insert_eq, !insert_insert_eq.
Qed.

Lemma sum_list_Qc_cons (x : Qc) (l : list Qc) :
  sum_list_Qc (x :: l) = x + sum_list_Qc l.
Proof. reflexivity. Qed.

(** The inner loop over the actions [i, i + k) of one trace row. *)
Lemma trace_loop_run (self : Freeway.SarsaLambda.agent) (alpha delta : Qc)
  (old_s : string) (old_a : nat) (q : gmap string (list Qc))
  (mid : list Qc) :
  let n := Freeway.SarsaLambda.available_actions self in
  let c := Freeway.SarsaLambda.gamma self * Freeway.SarsaLambda.lambd self in
  (old_a < length (peek (np_zeros n) q old_s))%nat ->
  forall (pre : list Qc) (v : Qc),
  for_each (Freeway.SarsaLambda.trace_body self alpha delta old_s old_a)
           (seq (length pre) (length mid))
           (credited n q old_s old_a v, pre ++ mid)
  = Ok (credited n q old_s old_a (v + alpha * delta * sum_list_Qc mid),
        pre ++ (Qcmult c <$> mid)).
Proof.
  intros n c Hlt. induction mid as [|x mid IH]; intros pre v.
  - cbn. do 2 f_equal. f_equal. ring.
  - cbn [length seq for_each].
    unfold Freeway.SarsaLambda.trace_body at 1. cbn beta iota.
    assert (Hx : (pre ++ x :: mid) !! length pre = Some x)
      by now rewrite list_lookup_middle.
    rewrite (getitem_ok _ _ _ Hx). cbn [bind]. fold n.
    rewrite Q_iadd_credited by exact Hlt. cbn [bind].
    rewrite setitem_ok by (rewrite length_app; cbn; lia). cbn [bind].
    fold c.
    replace (<[length pre := c * x]> (pre ++ x :: mid))
      with ((pre ++ [c * x]) ++ mid).
    2:{ rewrite insert_app_r_alt by lia. rewrite Nat.sub_diag.
        now rewrite <- app_assoc. }
    replace (S (length pre)) with (length (pre ++ [c * x]))
      by (rewrite length_app; cbn; lia).
    rewrite IH. rewrite <- app_assoc. cbn [fmap list_fmap app].
    rewrite sum_list_Qc_cons. do 2 f_equal. f_equal. ring.
Qed.

(** The outer loop over the keys of [E]. *)
Lemma state_loop_run (self : Freeway.SarsaLambda.agent) (alpha delta : Qc)
  (old_s : string) (old_a : nat) (q : gmap string (list Qc))
  (entries : list (string * list Qc)) :
  let n := Freeway.SarsaLambda.available_actions self in
  let c := Freeway.SarsaLambda.gamma self * Freeway.SarsaLambda.lambd self in
  (old_a < length (peek (np_zeros n) q old_s))%nat ->
  traces_ok n entries ->
  forall (done : list (string * list Qc)) (v : Qc),
  for_each (Freeway.SarsaLambda.state_body self alpha delta old_s old_a)
           entries (credited n q old_s old_a v, done)
  = Ok (credited n q old_s old_a (v + alpha * delta * total_trace entries),
        done ++ decay_traces c entries).
Proof.
  intros n c Hlt Hok. induction Hok as [|[s row] entries Hrow Hok IH];
    intros done v.
  - cbn. rewrite app_nil_r. do 2 f_equal. f_equal.
    unfold total_trace. cbn. ring.
  - cbn [for_each]. unfold Freeway.SarsaLambda.state_body at 1.
    cbn beta iota. cbn [snd] in Hrow. fold n.
    pose proof (trace_loop_run self alpha delta old_s old_a q row Hlt [] v)
      as Hinner.
    cbn [length app] in Hinner. fold n in Hinner. rewrite Hrow in Hinner.
    rewrite Hinner. cbn [bind]. rewrite IH. fold c.
    unfold decay_traces. cbn [fmap list_fmap fst snd].
    rewrite <- app_assoc. cbn [app].
    unfold total_trace. cbn [fmap list_fmap snd]. rewrite sum_list_Qc_cons.
    do 2 f_equal. f_equal. ring.
Qed.

(** A returning [update_Q], written out: the table with one entry
    credited, and the decayed traces. *)
Lemma SarsaLambda_update_Q_run (self : Freeway.SarsaLambda.agent)
  (old_s new_s : string) (old_a new_a : nat) (reward : Qc) :
  let n := Freeway.SarsaLambda.available_actions self in
  rows_ok n (Freeway.SarsaLambda.Q self) ->
  traces_ok n (Freeway.SarsaLambda.E self) ->
  (old_a < n)%nat -> (new_a < n)%nat ->
  (0 < Nsa_peek (Freeway.SarsaLambda.Nsa self) old_s old_a)%nat ->
  exists self' q_old q_new,
    Freeway.SarsaLambda.update_Q self old_s new_s old_a new_a reward
    = Ok self' /\
    Q_peek n (Freeway.SarsaLambda.Q self) old_s old_a = Some q_old /\
    Q_peek n (Freeway.SarsaLambda.Q self) new_s new_a = Some q_new /\
    Q_peek n (Freeway.SarsaLambda.Q self') old_s old_a
    = Some (q_old
            + 1 / of_nat (Nsa_peek (Freeway.SarsaLambda.Nsa self) old_s old_a)
              * (reward + Freeway.SarsaLambda.gamma self * q_new - q_old)
              * total_trace (Freeway.SarsaLambda.E self)) /\
    Freeway.SarsaLambda.E self'
    = decay_traces (Freeway.SarsaLambda.gamma self
                    * Freeway.SarsaLambda.lambd self)
                   (Freeway.SarsaLambda.E self).
Proof.
  intros n Hrows Hok Hold Hnew Hcnt.
  destruct (Nsa_peek _ old_s old_a) as [|cnt] eqn:Ecnt; [lia|].
  destruct (Nsa_peek_pos _ _ _ _ Ecnt) as (inner & Hs & Ha).
  pose proof (rows_ok_peek n _ old_s Hrows) as Hlen_old.
  pose proof (rows_ok_peek n _ new_s Hrows) as Hlen_new.
  destruct (lookup_lt_is_Some_2
              (peek (np_zeros n) (Freeway.SarsaLambda.Q self) old_s) old_a)
    as [q_old Hq_old]; [now rewrite Hlen_old|].
  destruct (lookup_lt_is_Some_2
              (peek (np_zeros n) (Freeway.SarsaLambda.Q self) new_s) new_a)
    as [q_new Hq_new]; [now rewrite Hlen_new|].
  unfold Freeway.SarsaLambda.update_Q. fold n.
  rewrite !dd_get_eq, dd_get_nat_eq.
  rewrite (getitem_ok _ _ _ Hq_new). cbn [bind].
  rewrite peek_create, (getitem_ok _ _ _ Hq_old). cbn [bind].
  assert (Hin : peek ∅ (Freeway.SarsaLambda.Nsa self) old_s = inner)
    by (unfold peek; now rewrite Hs).
  rewrite Hin, Ha. cbn [default from_option id].
  rewrite (py_div_ok _ _ (of_nat_S_neq cnt)). cbn [bind].
  set (q1 := <[new_s := peek (np_zeros n) (Freeway.SarsaLambda.Q self) new_s]>
               (Freeway.SarsaLambda.Q self)).
  set (row := peek (np_zeros n) (Freeway.SarsaLambda.Q self) old_s).
  set (q2 := <[old_s := row]> q1).
  assert (Hpeek2 : peek (np_zeros n) q2 old_s = row)
    by apply peek_insert_eq.
  assert (Hq2 : q2 = credited n q2 old_s old_a q_old).
  { unfold credited. rewrite Hpeek2.
    replace (<[old_a := q_old]> row) with row
      by (symmetry; apply list_insert_id; exact Hq_old).
    unfold q2.
    now rewrite insert_insert_eq. }
  assert (Hloop := state_loop_run self (1 / of_nat (S cnt))
                    (reward + Freeway.SarsaLambda.gamma self * q_new - q_old)
                    old_s old_a q2 (Freeway.SarsaLambda.E self)).
  cbn zeta in Hloop. fold n in Hloop.
  specialize (Hloop ltac:(rewrite Hpeek2; unfold row; now rewrite Hlen_old)
                    Hok [] q_old).
  rewrite <- Hq2 in Hloop at 1.
  eexists. exists q_old, q_new. split.
  { rewrite Hloop. cbn [bind]. reflexivity. }
  split; [exact Hq_old|]. split; [exact Hq_new|].
  cbn [Freeway.SarsaLambda.Q Freeway.SarsaLambda.E app].
  split; [|reflexivity].
  unfold Q_peek, credited. rewrite peek_insert_eq, Hpeek2.
  rewrite list_lookup_insert_eq by (unfold row; now rewrite Hlen_old).
  f_equal; ring.
Qed.

Lemma two_traces_rows_ok : rows_ok 3 (Freeway.SarsaLambda.Q two_traces).
Proof.
  intros s row H. cbn in H.
  apply lookup_singleton_Some in H as [_ <-]. reflexivity.
Qed.

Lemma two_traces_traces_ok : traces_ok 3 (Freeway.SarsaLambda.E two_traces).
Proof. repeat constructor. Qed.

(** X11. The credit of [SarsaLambda.update_Q]. On a well-formed agent whose
    pair [(old_s, old_a)] has been recorded, [update_Q] returns and adds to
    [Q[old_s][old_a]] the product of [alpha], [delta] and the sum of all
    traces of all states, where
    [delta = reward + gamma * Q[new_s][new_a] - Q[old_s][old_a]] and
    [alpha = 1 / Nsa[old_s][old_a]]. *)
Theorem SarsaLambda_update_Q_total_credit (self : Freeway.SarsaLambda.agent)
  (old_s new_s : string) (old_a new_a : nat) (reward : Qc) :
  rows_ok (Freeway.SarsaLambda.available_actions self)
          (Freeway.SarsaLambda.Q self) ->
  traces_ok (Freeway.SarsaLambda.available_actions self)
            (Freeway.SarsaLambda.E self) ->
  (old_a < Freeway.SarsaLambda.available_actions self)%nat ->
  (new_a < Freeway.SarsaLambda.available_actions self)%nat ->
  (0 < Nsa_peek (Freeway.SarsaLambda.Nsa self) old_s old_a)%nat ->
  exists self' q_old q_new,
    Freeway.SarsaLambda.update_Q self old_s new_s old_a new_a reward
    = Ok self' /\
    Q_peek (Freeway.SarsaLambda.available_actions self)
           (Freeway.SarsaLambda.Q self) old_s old_a = Some q_old /\
    Q_peek (Freeway.SarsaLambda.available_actions self)
           (Freeway.SarsaLambda.Q self) new_s new_a = Some q_new /\
    Q_peek (Freeway.SarsaLambda.available_actions self)
           (Freeway.SarsaLambda.Q self') old_s old_a
    = Some (q_old
            + 1 / of_nat (Nsa_peek (Freeway.SarsaLambda.Nsa self) old_s old_a)
              * (reward + Freeway.SarsaLambda.gamma self * q_new - q_old)
              * total_trace (Freeway.SarsaLambda.E self)).
Proof.
  intros Hrows Hok Hold Hnew Hcnt.
  destruct (SarsaLambda_update_Q_run self old_s new_s old_a new_a reward
              Hrows Hok Hold Hnew Hcnt)
    as (self' & q_old & q_new & Hrun & Hq_old & Hq_new & Hq & _).
  exists self', q_old, q_new. repeat split; assumption.
Qed.

Lemma SarsaLambda_update_Q_total_credit_witness :
  exists self' q_old q_new,
    Freeway.SarsaLambda.update_Q two_traces "s" "t" 0 2 1 = Ok self' /\
    Q_peek 3 (Freeway.SarsaLambda.Q two_traces) "s" 0 = Some q_old /\
    Q_peek 3 (Freeway.SarsaLambda.Q two_traces) "t" 2 = Some q_new /\
    Q_peek 3 (Freeway.SarsaLambda.Q self') "s" 0
    = Some (q_old
            + 1 / of_nat (Nsa_peek (Freeway.SarsaLambda.Nsa two_traces) "s" 0)
              * (1 + Q2Qc (1 # 2) * q_new - q_old)
              * total_trace (Freeway.SarsaLambda.E two_traces)).
Proof.
  apply (SarsaLambda_update_Q_total_credit two_traces "s" "t" 0 2 1).
  - apply two_traces_rows_ok.
  - apply two_traces_traces_ok.
  - cbn. lia.
  - cbn. lia.
  - vm_compute. lia.
Defined.

(** X12. The decay of [SarsaLambda.update_Q]. On the same agents, a call to
    [update_Q] multiplies every trace of every state by [gamma * lambd],
    and keeps the states of [E] and their order. *)
Theorem SarsaLambda_update_Q_decays_traces (self : Freeway.SarsaLambda.agent)
  (old_s new_s : string) (old_a new_a : nat) (reward : Qc) :
  rows_ok (Freeway.SarsaLambda.available_actions self)
          (Freeway.SarsaLambda.Q self) ->
  traces_ok (Freeway.SarsaLambda.available_actions self)
            (Freeway.SarsaLambda.E self) ->
  (old_a < Freeway.SarsaLambda.available_actions self)%nat ->
  (new_a < Freeway.SarsaLambda.available_actions self)%nat ->
  (0 < Nsa_peek (Freeway.SarsaLambda.Nsa self) old_s old_a)%nat ->
  exists self',
    Freeway.SarsaLambda.update_Q self old_s new_s old_a new_a reward
    = Ok self' /\
    Freeway.SarsaLambda.E self'
    = decay_traces (Freeway.SarsaLambda.gamma self
                    * Freeway.SarsaLambda.lambd self)
                   (Freeway.SarsaLambda.E self) /\
    traces_ok (Freeway.SarsaLambda.available_actions self')
              (Freeway.SarsaLambda.E self').
Proof.
  intros Hrows Hok Hold Hnew Hcnt.
  destruct (SarsaLambda_update_Q_run self old_s new_s old_a new_a reward
              Hrows Hok Hold Hnew Hcnt)
    as (self' & q_old & q_new & Hrun & _ & _ & _ & HE).
  exists self'. split; [exact Hrun|]. split; [exact HE|].
  assert (Hn : Freeway.SarsaLambda.available_actions self'
               = Freeway.SarsaLambda.available_actions self).
  { unfold Freeway.SarsaLambda.update_Q in Hrun.
    rewrite !dd_get_eq, dd_get_nat_eq in Hrun.
    apply bind_ok_inv in Hrun as (? & _ & Hrun).
    apply bind_ok_inv in Hrun as (? & _ & Hrun).
    apply bind_ok_inv in Hrun as (? & _ & Hrun).
    apply bind_ok_inv in Hrun as ([? ?] & _ & Hrun).
    now injection Hrun as <-. }
  rewrite Hn, HE. unfold traces_ok, decay_traces.
  apply Forall_fmap. eapply Forall_impl; [exact Hok|].
  intros [s row] H. cbn in *. now rewrite length_fmap.
Qed.

Lemma SarsaLambda_update_Q_decays_traces_witness :
  exists self',
    Freeway.SarsaLambda.update_Q two_traces "s" "t" 0 2 1 = Ok self' /\
    Freeway.SarsaLambda.E self'
    = decay_traces (Q2Qc (1 # 2) * Q2Qc (1 # 2))
                   [("s", [1; 0; 0]); ("t", [0; 0; Q2Qc (1 # 2)])] /\
    traces_ok (Freeway.SarsaLambda.available_actions self')
              (Freeway.SarsaLambda.E self').
Proof.
  apply (SarsaLambda_update_Q_decays_traces two_traces "s" "t" 0 2 1).
  - apply two_traces_rows_ok.
  - apply two_traces_traces_ok.
  - cbn. lia.
  - cbn. lia.
  - vm_compute. lia.
Defined.

Lemma SarsaLambda_update_Q_frame_witness :
  exists self',
    Freeway.SarsaLambda.update_Q two_traces "s" "t" 0 2 1 = Ok self' /\
    forall s a, (s, a) <> ("s", 0%nat) ->
      Q_peek 3 (Freeway.SarsaLambda.Q self') s a
      = Q_peek 3 (Freeway.SarsaLambda.Q two_traces) s a.
Proof.
  destruct (SarsaLambda_update_Q_run two_traces "s" "t" 0 2 1)
    as (self' & q_old & q_new & Hrun & _);
    [apply two_traces_rows_ok|apply two_traces_traces_ok|cbn; lia|cbn; lia
    |vm_compute; lia|].
  exists self'. split; [exact Hrun|].
  exact (SarsaLambda_update_Q_frame two_traces self' "s" "t" 0 2 1 Hrun).
Defined.

(** ** SARSA(lambda): a new episode *)

(** Everything a returning call of [SarsaLambda.act] does to the table and
    to the traces. *)
Lemma SarsaLambda_act_inv (self self' : Freeway.SarsaLambda.agent)
  (state : string) (rnd : draws) (action : nat) :
  Freeway.SarsaLambda.act self state rnd = Ok (action, self') ->
  Freeway.SarsaLambda.gamma self' = Freeway.SarsaLambda.gamma self /\
  Freeway.SarsaLambda.lambd self' = Freeway.SarsaLambda.lambd self /\
  Freeway.SarsaLambda.available_actions self'
  = Freeway.SarsaLambda.available_actions self /\
  (Freeway.SarsaLambda.Q self' = Freeway.SarsaLambda.Q self \/
   Freeway.SarsaLambda.Q self'
   = <[state := peek (np_zeros (Freeway.SarsaLambda.available_actions self))
                     (Freeway.SarsaLambda.Q self) state]>
       (Freeway.SarsaLambda.Q self)) /\
  exists e_cur,
    default (np_zeros (Freeway.SarsaLambda.available_actions self))
            (Freeway.SarsaLambda.E_lookup (Freeway.SarsaLambda.E self) state)
    !! action = Some e_cur /\
    Freeway.SarsaLambda.E self'
    = Freeway.SarsaLambda.E_store (Freeway.SarsaLambda.E self) state
        (<[action := e_cur + 1]>
           (default (np_zeros (Freeway.SarsaLambda.available_actions self))
                    (Freeway.SarsaLambda.E_lookup
                       (Freeway.SarsaLambda.E self) state))).
Proof.
  unfold Freeway.SarsaLambda.act. rewrite dd_get_eq. intros H.
  apply bind_ok_inv in H as (eps & _ & H).
  apply bind_ok_inv in H as (c & _ & H).
  apply bind_ok_inv in H as ([a q] & Hbranch & H).
  apply bind_ok_inv in H as (e_cur & Hget & H).
  apply bind_ok_inv in H as (e_row' & Hset & H).
  injection H as <- <-. cbn. repeat (split; [reflexivity|]). split.
  - destruct (negb (c =? 0)%nat).
    + apply bind_ok_inv in Hbranch as (a' & _ & Hbranch).
      injection Hbranch as _ <-. now left.
    + rewrite dd_get_eq in Hbranch. right.
      apply bind_ok_inv in Hbranch as (mx & _ & Hbranch).
      destruct (Qc_eqb mx 0).
      * apply bind_ok_inv in Hbranch as (mn & _ & Hbranch).
        destruct (Qc_eqb mn 0).
        -- now injection Hbranch as _ <-.
        -- apply bind_ok_inv in Hbranch as (b & _ & Hbranch).
           now injection Hbranch as _ <-.
      * apply bind_ok_inv in Hbranch as (b & _ & Hbranch).
        now injection Hbranch as _ <-.
  - exists e_cur. unfold getitem in Hget.
    destruct (_ !! a) as [x|] eqn:Hx; [|discriminate].
    injection Hget as ->. split; [reflexivity|].
    unfold setitem in Hset. destruct (decide _); [|discriminate].
    now injection Hset as <-.
Qed.

Lemma decay_unit_row (c : Qc) (n a : nat) :
  Qcmult c <$> <[a := 1]> (np_zeros n) = <[a := c]> (np_zeros n).
Proof.
  rewrite list_fmap_insert. unfold np_zeros. rewrite fmap_replicate.
  now rewrite Qcmult_0_r, Qcmult_1_r.
Qed.

(** X14. The traces of a new episode. After [reset_E], a returning [act]
    leaves a single trace row, all zero except [E[state][action] = 1], and
    the [update_Q] that learns the transition returns and leaves that
    trace at [gamma * lambd], every other trace still zero. *)
Theorem SarsaLambda_first_trace (self self1 : Freeway.SarsaLambda.agent)
  (state new_s : string) (rnd : draws) (action new_a : nat) (reward : Qc) :
  rows_ok (Freeway.SarsaLambda.available_actions self)
          (Freeway.SarsaLambda.Q self) ->
  (new_a < Freeway.SarsaLambda.available_actions self)%nat ->
  Freeway.SarsaLambda.act (Freeway.SarsaLambda.reset_E self) state rnd
  = Ok (action, self1) ->
  Freeway.SarsaLambda.E self1
  = [(state,
      <[action := 1]> (np_zeros (Freeway.SarsaLambda.available_actions self)))]
  /\
  exists self2,
    Freeway.SarsaLambda.update_Q self1 state new_s action new_a reward
    = Ok self2 /\
    Freeway.SarsaLambda.E self2
    = [(state,
        <[action := Freeway.SarsaLambda.gamma self
                    * Freeway.SarsaLambda.lambd self]>
          (np_zeros (Freeway.SarsaLambda.available_actions self)))].
Proof.
  intros Hrows Hnew Hrun.
  destruct (SarsaLambda_act_inv _ _ _ _ _ Hrun)
    as (Hg & Hl & Hn & HQ & e_cur & Hcur & HE).
  destruct (SarsaLambda_act_counts _ _ _ _ _ Hrun) as (_ & Hcnt & _).
  cbn [Freeway.SarsaLambda.reset_E Freeway.SarsaLambda.gamma
       Freeway.SarsaLambda.lambd Freeway.SarsaLambda.available_actions
       Freeway.SarsaLambda.Q Freeway.SarsaLambda.E
       Freeway.SarsaLambda.E_lookup Freeway.SarsaLambda.E_store
       default from_option id] in Hg, Hl, Hn, HQ, Hcur, HE.
  pose proof (lookup_lt_Some _ _ _ Hcur) as Hact.
  rewrite np_zeros_length in Hact.
  rewrite np_zeros_lookup in Hcur by exact Hact. injection Hcur as <-.
  rewrite Qcplus_0_l in HE. split; [exact HE|].
  destruct (SarsaLambda_update_Q_run self1 state new_s action new_a reward)
    as (self2 & q_old & q_new & Hupd & _ & _ & _ & HE2).
  - rewrite Hn. destruct HQ as [->| ->]; [exact Hrows|].
    apply rows_ok_insert; [exact Hrows|now apply rows_ok_peek].
  - rewrite Hn, HE. repeat constructor. cbn. rewrite length_insert.
    apply np_zeros_length.
  - now rewrite Hn.
  - now rewrite Hn.
  - rewrite Hcnt. lia.
  - exists self2. split; [exact Hupd|].
    rewrite HE2, HE, Hg, Hl. unfold decay_traces. cbn [fmap list_fmap fst snd].
    now rewrite decay_unit_row.
Qed.

Lemma SarsaLambda_first_trace_witness :
  Freeway.SarsaLambda.E
    (Freeway.SarsaLambda.mk (Q2Qc (1 # 2)) 3 1 (Q2Qc (1 # 2))
       {[ "s" := [Q2Qc 4; 0; 0] ]}
       (<[ "u" := 1%nat ]> (<[ "u" := 0%nat ]> ∅))
       (incr_Nsa {[ "s" := {[ 0%nat := 2%nat ]} ]} "u" 2) [("u", [0; 0; 1])])
  = [("u", <[2%nat := 1]> (np_zeros 3))] /\
  exists self2,
    Freeway.SarsaLambda.update_Q
      (Freeway.SarsaLambda.mk (Q2Qc (1 # 2)) 3 1 (Q2Qc (1 # 2))
         {[ "s" := [Q2Qc 4; 0; 0] ]}
         (<[ "u" := 1%nat ]> (<[ "u" := 0%nat ]> ∅))
         (incr_Nsa {[ "s" := {[ 0%nat := 2%nat ]} ]} "u" 2)
         [("u", [0; 0; 1])])
      "u" "s" 2 0 1 = Ok self2 /\
    Freeway.SarsaLambda.E self2
    = [("u", <[2%nat := Q2Qc (1 # 2) * Q2Qc (1 # 2)]> (np_zeros 3))].
Proof.
  apply (SarsaLambda_first_trace two_traces _ "u" "s" (Draws 0 2) 2 0 1).
  - apply two_traces_rows_ok.
  - cbn. lia.
  - vm_compute. reflexivity.
Defined.

(** ** Linear approximation: feature vectors *)

(** X15. The shape of a feature vector. When [createFeature] /
    [get_features] returns, the vector is the output of the scaler followed
    by the action index and the constant [1], so its length is the
    scaler's output length plus two; the scaler was given every byte of
    the state in mode ['all'], and four numbers in mode ['mean']: the
    first two bytes, then the mean and the non-zero count of the others.
    Any other mode raises [UnboundLocalError]. Mode ['mean'] is taken on
    states of more than two bytes: on a shorter state the slice
    [state[2:]] is empty and [np.mean] answers [nan]. *)
Theorem feature_vector_shape (transform : list Qc -> result (list Qc))
  (feat_type state : string) (action : nat) :
  (feat_type = "mean" -> (2 < String.length state)%nat) ->
  (feat_type <> "all" -> feat_type <> "mean" ->
   feature_vector transform feat_type state action
   = Raise UnboundLocalError) /\
  (forall feature,
     feature_vector transform feat_type state action = Ok feature ->
     exists input scaled,
       transform input = Ok scaled /\
       feature = scaled ++ [of_nat action; 1] /\
       length feature = (length scaled + 2)%nat /\
       ((feat_type = "all" /\ input = frombuffer state) \/
        (feat_type = "mean" /\
         input = take 2 (frombuffer state)
                 ++ [np_mean (drop 2 (frombuffer state));
                     np_count_nonzero (drop 2 (frombuffer state))] /\
         drop 2 (frombuffer state) <> [] /\
         length input = 4%nat))).
Proof.
  intros Hlong. unfold feature_vector. split.
  - intros Hall Hmean. apply String.eqb_neq in Hall, Hmean.
    now rewrite Hall, Hmean.
  - intros feature H.
    destruct (String.eqb feat_type "all") eqn:Eall.
    + apply String.eqb_eq in Eall.
      apply bind_ok_inv in H as (scaled & Ht & H). injection H as <-.
      exists (frombuffer state), scaled. split; [exact Ht|].
      split; [reflexivity|]. split; [rewrite length_app; cbn; lia|].
      now left.
    + destruct (String.eqb feat_type "mean") eqn:Emean; [|discriminate].
      apply String.eqb_eq in Emean. specialize (Hlong Emean).
      apply bind_ok_inv in H as (scaled & Ht & H). injection H as <-.
      assert (Hl : length (frombuffer state) = String.length state).
      { unfold frombuffer. rewrite length_map.
        clear. induction state; cbn; congruence. }
      eexists. exists scaled. split; [exact Ht|].
      split; [reflexivity|]. split; [rewrite length_app; cbn; lia|].
      right. split; [exact Emean|]. split; [reflexivity|]. split.
      * intros E. apply (f_equal length) in E.
        rewrite length_drop, Hl in E. cbn in E. lia.
      * rewrite length_app, length_take, Hl. cbn [length]. lia.
Qed.

Lemma feature_vector_shape_witness :
  exists feature input scaled,
    feature_vector (fun x => Ok x) "mean" "abc" 1 = Ok feature /\
    Ok input = Ok scaled /\
    feature = scaled ++ [of_nat 1; 1] /\
    length feature = (length scaled + 2)%nat /\
    length input = 4%nat.
Proof.
  destruct (feature_vector_shape (fun x => Ok x) "mean" "abc" 1) as [_ H].
  { intros _. cbn. lia. }
  destruct (H (match feature_vector (fun x => Ok x) "mean" "abc" 1 with
               | Ok f => f
               | Raise _ => []
               end))
    as (input & scaled & Ht & Hf & Hlen & [[E _]|(_ & _ & _ & Hin)]).
  - vm_compute. reflexivity.
  - discriminate E.
  - eexists. exists input, scaled.
    split; [vm_compute; reflexivity|].
    split; [exact Ht|]. split; [exact Hf|]. split; [exact Hlen|exact Hin].
Defined.

(** ** Linear approximation: [update_W] *)

Lemma comprehension_first_raises {X : Type} (f : nat -> result X) (n : nat)
  (e : exn) :
  f 0%nat = Raise e -> comprehension f (S n) = Raise e.
Proof.
  intros H. unfold comprehension. cbn [seq for_each]. now rewrite H.
Qed.

(** X16. Learning before the scaler is fitted. On a freshly constructed
    [QLearningLinearApprox] with at least one action and a supported
    feature mode, [update_W] raises: [ZeroDivisionError] when the learning
    rate is [1 / Nsa] (nothing has been recorded), and sklearn's
    [NotFittedError] when the learning rate is fixed. *)
Theorem update_W_on_fresh_agent (alpha gamma N0 : Qc) (n weights_length : nat)
  (fixed_alpha : bool) (feat_type old_state new_state : string)
  (action : nat) (reward : Qc) :
  (0 < n)%nat -> feat_type = "all" \/ feat_type = "mean" ->
  Freeway.QLearningLinearApprox.update_W
    (Freeway.QLearningLinearApprox.init alpha gamma n N0 weights_length
       fixed_alpha feat_type)
    old_state new_state action reward
  = Raise (if fixed_alpha then NotFittedError else ZeroDivisionError).
Proof.
  intros Hn Hft. unfold Freeway.QLearningLinearApprox.update_W.
  cbn [Freeway.QLearningLinearApprox.init
       Freeway.QLearningLinearApprox.fixed_alpha
       Freeway.QLearningLinearApprox.Nsa
       Freeway.QLearningLinearApprox.alpha
       Freeway.QLearningLinearApprox.available_actions].
  destruct fixed_alpha.
  - cbn [bind]. destruct n as [|n]; [lia|].
    rewrite (comprehension_first_raises _ _ NotFittedError); [reflexivity|].
    unfold Freeway.QLearningLinearApprox.getApproximation,
      Freeway.QLearningLinearApprox.createFeature, feature_vector.
    cbn [Freeway.QLearningLinearApprox.scaler
         Freeway.QLearningLinearApprox.feat_type].
    destruct Hft as [-> | ->]; reflexivity.
  - rewrite dd_get_eq, dd_get_nat_eq. unfold peek.
    rewrite !lookup_empty. cbn [default from_option id].
    rewrite lookup_empty. cbn [default from_option id].
    now rewrite of_nat_0, py_div_zero.
Qed.

Lemma update_W_on_fresh_agent_witness :
  Freeway.QLearningLinearApprox.update_W
    (Freeway.QLearningLinearApprox.init (Q2Qc (1 # 10)) (Q2Qc (1 # 2)) 2 1 4
       true "mean")
    "ab" "cd" 1 1
  = Raise NotFittedError.
Proof.
  apply (update_W_on_fresh_agent (Q2Qc (1 # 10)) (Q2Qc (1 # 2)) 1 2 4 true
           "mean" "ab" "cd" 1 1).
  - lia.
  - now right.
Defined.

(** [f . (w + c f) = f . w + c (f . f)] on arrays of one length. *)
Lemma dot_after_step (f w : list Qc) (c : Qc) :
  length f = length w ->
  sum_list_Qc (zip_with Qcmult f (zip_with Qcplus w (Qcmult c <$> f)))
  = sum_list_Qc (zip_with Qcmult f w)
    + c * sum_list_Qc (zip_with Qcmult f f).
Proof.
  revert w. induction f as [|x f IH]; intros [|y w] H; try discriminate.
  - cbn. ring.
  - cbn [fmap list_fmap zip_with]. rewrite !sum_list_Qc_cons.
    rewrite IH by (cbn in H; lia). ring.
Qed.

Lemma np_dot_ok_inv (a b : list Qc) (x : Qc) :
  np_dot a b = Ok x ->
  length a = length b /\ x = sum_list_Qc (zip_with Qcmult a b).
Proof.
  unfold np_dot. destruct (length a =? length b)%nat eqn:E; cbn;
    intros H; [|discriminate].
  apply Nat.eqb_eq in E. now injection H as <-.
Qed.

(** The list built by a comprehension over [range(n)] has [n] entries,
    the values of the body in order. *)
Lemma comprehension_loop {X : Type} (f : nat -> result X) (k i : nat)
  (acc l : list X) :
  for_each (fun acc a => do x <- f a; Ok (acc ++ [x])) (seq i k) acc = Ok l ->
  exists l', l = acc ++ l' /\ length l' = k /\
    forall j, (j < k)%nat ->
      exists x, f (i + j)%nat = Ok x /\ l' !! j = Some x.
Proof.
  revert i acc. induction k as [|k IH]; intros i acc H.
  - cbn in H. injection H as <-. exists []. rewrite app_nil_r.
    split; [reflexivity|]. split; [reflexivity|]. intros j Hj. lia.
  - cbn [seq for_each] in H. apply bind_ok_inv in H as (acc1 & Hx & H).
    apply bind_ok_inv in Hx as (x & Hfx & Hx). injection Hx as <-.
    destruct (IH _ _ H) as (l' & -> & Hlen & Hall).
    exists (x :: l'). rewrite <- app_assoc. split; [reflexivity|].
    split; [cbn; lia|]. intros [|j] Hj.
    + exists x. rewrite Nat.add_0_r. split; [exact Hfx|reflexivity].
    + destruct (Hall j) as (y & Hy & Hl); [lia|].
      exists y. replace (i + S j)%nat with (S i + j)%nat by lia.
      split; [exact Hy|exact Hl].
Qed.

Lemma comprehension_spec {X : Type} (f : nat -> result X) (n : nat)
  (l : list X) :
  comprehension f n = Ok l ->
  length l = n /\
  forall a, (a < n)%nat -> exists x, f a = Ok x /\ l !! a = Some x.
Proof.
  unfold comprehension. intros H.
  destruct (comprehension_loop f n 0 [] l H) as (l' & -> & Hlen & Hall).
  split; [exact Hlen|]. intros a Ha. exact (Hall a Ha).
Qed.

(** X17. What one [update_W] does to the value it learns. When [update_W]
    returns, the weights have moved along the feature vector of
    [(old_state, action)] by the learning rate times the temporal
    difference error [reward + gamma * max_value - q_old], where
    [max_value] is the largest of the approximate values of [new_state]
    over all actions; the weight vector keeps its length, and the
    approximate value of [(old_state, action)] has changed by that factor
    times the squared norm of the feature vector. In mode ['mean'] the
    two states have more than two bytes, so that no mean of an empty
    slice is taken. *)
Theorem update_W_moves_value (self self' : Freeway.QLearningLinearApprox.agent)
  (old_state new_state : string) (action : nat) (reward : Qc) :
  (Freeway.QLearningLinearApprox.feat_type self = "mean" ->
   (2 < String.length old_state)%nat /\ (2 < String.length new_state)%nat) ->
  Freeway.QLearningLinearApprox.update_W self old_state new_state action
    reward = Ok self' ->
  exists feature q_old rate approx max_value,
    Freeway.QLearningLinearApprox.createFeature self old_state action
    = Ok feature /\
    Freeway.QLearningLinearApprox.getApproximation self old_state action
    = Ok q_old /\
    length approx = Freeway.QLearningLinearApprox.available_actions self /\
    (forall a, (a < Freeway.QLearningLinearApprox.available_actions self)%nat ->
       exists q,
         Freeway.QLearningLinearApprox.getApproximation self new_state a
         = Ok q /\ approx !! a = Some q) /\
    In max_value approx /\
    Forall (fun q => q <= max_value) approx /\
    (Freeway.QLearningLinearApprox.fixed_alpha self = true ->
     rate = Freeway.QLearningLinearApprox.alpha self) /\
    (Freeway.QLearningLinearApprox.fixed_alpha self = false ->
     rate = 1 / of_nat (Nsa_peek (Freeway.QLearningLinearApprox.Nsa self)
                                 old_state action)) /\
    Freeway.QLearningLinearApprox.W self'
    = zip_with Qcplus (Freeway.QLearningLinearApprox.W self)
        (Qcmult (rate * (reward
                         + Freeway.QLearningLinearApprox.gamma self * max_value
                         - q_old)) <$> feature) /\
    length (Freeway.QLearningLinearApprox.W self')
    = length (Freeway.QLearningLinearApprox.W self) /\
    Freeway.QLearningLinearApprox.getApproximation self' old_state action
    = Ok (q_old
          + rate * (reward
                    + Freeway.QLearningLinearApprox.gamma self * max_value
                    - q_old)
            * sum_list_Qc (zip_with Qcmult feature feature)).
Proof.
  intros _. unfold Freeway.QLearningLinearApprox.update_W. intros H.
  apply bind_ok_inv in H as ([rate nsa'] & Hrate & H).
  apply bind_ok_inv in H as (approx & Happrox & H).
  apply bind_ok_inv in H as (max_value & Hmax & H).
  apply bind_ok_inv in H as (q_old & Hq & H).
  apply bind_ok_inv in H as (feature & Hf & H).
  apply bind_ok_inv in H as (w' & Hw & H). injection H as <-.
  apply comprehension_spec in Happrox as [Hcount Hvalues].
  apply np_max_spec in Hmax as [Hin Hupper].
  pose proof Hq as Hq'.
  unfold Freeway.QLearningLinearApprox.getApproximation in Hq'.
  rewrite Hf in Hq'. cbn [bind] in Hq'.
  apply np_dot_ok_inv in Hq' as [Hlen ->].
  unfold array_op in Hw. rewrite length_fmap, <- Hlen, Nat.eqb_refl in Hw.
  injection Hw as <-.
  exists feature, (sum_list_Qc (zip_with Qcmult feature
                                  (Freeway.QLearningLinearApprox.W self))),
    rate, approx, max_value.
  split; [exact Hf|]. split; [exact Hq|]. split; [exact Hcount|].
  split; [exact Hvalues|]. split; [exact Hin|]. split; [exact Hupper|].
  split; [|split].
  - intros Hfix. rewrite Hfix in Hrate. now injection Hrate as <- _.
  - intros Hfix. rewrite Hfix in Hrate.
    rewrite dd_get_eq, dd_get_nat_eq in Hrate.
    apply bind_ok_inv in Hrate as (a & Ha & Hrate). injection Hrate as <- _.
    fold (Nsa_peek (Freeway.QLearningLinearApprox.Nsa self) old_state action)
      in Ha.
    unfold py_div in Ha. destruct (Qc_eqb _ 0); [discriminate|].
    now injection Ha as <-.
  - cbn [Freeway.QLearningLinearApprox.W]. split; [reflexivity|].
    assert (Hlen' : length (zip_with Qcplus
                              (Freeway.QLearningLinearApprox.W self)
                              (Qcmult (rate * (reward
                                 + Freeway.QLearningLinearApprox.gamma self
                                   * max_value
                                 - sum_list_Qc
                                     (zip_with Qcmult feature
                                        (Freeway.QLearningLinearApprox.W self))))
                               <$> feature))
                    = length (Freeway.QLearningLinearApprox.W self)).
    { rewrite length_zip_with, length_fmap. lia. }
    split; [exact Hlen'|].
    unfold Freeway.QLearningLinearApprox.getApproximation,
      Freeway.QLearningLinearApprox.createFeature in *.
    cbn [Freeway.QLearningLinearApprox.scaler
         Freeway.QLearningLinearApprox.feat_type
         Freeway.QLearningLinearApprox.W].
    rewrite Hf. cbn [bind]. unfold np_dot.
    rewrite Hlen', Hlen, Nat.eqb_refl. cbn [negb].
    now rewrite dot_after_step.
Qed.

Lemma update_W_moves_value_witness :
  exists feature q_old rate approx max_value,
    Freeway.QLearningLinearApprox.createFeature fitted_agent "abc" 1
    = Ok feature /\
    Freeway.QLearningLinearApprox.getApproximation fitted_agent "abc" 1
    = Ok q_old /\
    length approx
    = Freeway.QLearningLinearApprox.available_actions fitted_agent /\
    (forall a,
       (a < Freeway.QLearningLinearApprox.available_actions fitted_agent)%nat ->
       exists q,
         Freeway.QLearningLinearApprox.getApproximation fitted_agent "bcd" a
         = Ok q /\ approx !! a = Some q) /\
    In max_value approx /\
    Forall (fun q => q <= max_value) approx /\
    (Freeway.QLearningLinearApprox.fixed_alpha fitted_agent = true ->
     rate = Freeway.QLearningLinearApprox.alpha fitted_agent) /\
    (Freeway.QLearningLinearApprox.fixed_alpha fitted_agent = false ->
     rate = 1 / of_nat (Nsa_peek (Freeway.QLearningLinearApprox.Nsa fitted_agent)
                                 "abc" 1)) /\
    Freeway.QLearningLinearApprox.W fitted_agent_after
    = zip_with Qcplus (Freeway.QLearningLinearApprox.W fitted_agent)
        (Qcmult (rate * (1
                         + Freeway.QLearningLinearApprox.gamma fitted_agent
                           * max_value
                         - q_old)) <$> feature) /\
    length (Freeway.QLearningLinearApprox.W fitted_agent_after)
    = length (Freeway.QLearningLinearApprox.W fitted_agent) /\
    Freeway.QLearningLinearApprox.getApproximation fitted_agent_after "abc" 1
    = Ok (q_old
          + rate * (1
                    + Freeway.QLearningLinearApprox.gamma fitted_agent
                      * max_value
                    - q_old)
            * sum_list_Qc (zip_with Qcmult feature feature)).
Proof.
  apply (update_W_moves_value fitted_agent fitted_agent_after "abc" "bcd" 1 1).
  - intros _. cbn. lia.
  - vm_compute. reflexivity.
Defined.

(** ** Adam: the first step *)

Lemma zip_with_map_same {X Y Z' W' : Type} (f : Y -> Z' -> W') (g : X -> Y)
  (h : X -> Z') (l : list X) :
  zip_with f (map g l) (map h l) = map (fun x => f (g x) (h x)) l.
Proof.
  induction l as [|x l IH]; cbn; [reflexivity|]. now rewrite IH.
Qed.

Lemma bias_correction_first (b x : Qc) :
  1 - b <> 0 -> (b * 0 + (1 - b) * x) / (1 - b ^ 1) = x.
Proof.
  intros Hb. cbn [Qcpower]. field. exact Hb.
Qed.

(** The first step of Adam from zero moments, for any decay rates other
    than one: the bias corrections cancel the averaging. *)
Lemma adam_first_step_eq (np_sqrt : Qc -> Qc)
  (self : Freeway.SarsaLFAADAM.agent) (g : list Qc) :
  Freeway.SarsaLFAADAM.m self = Freeway.SarsaLFAADAM.Scalar 0 ->
  Freeway.SarsaLFAADAM.v self = Freeway.SarsaLFAADAM.Scalar 0 ->
  1 - Freeway.SarsaLFAADAM.beta_1 self <> 0 ->
  1 - Freeway.SarsaLFAADAM.beta_2 self <> 0 ->
  Freeway.SarsaLFAADAM.adam np_sqrt self (Freeway.SarsaLFAADAM.Array g) 1
  = Ok (Freeway.SarsaLFAADAM.Array
          (map (fun x => Freeway.SarsaLFAADAM.alpha self * x
                         / (np_sqrt (x ^ 2)
                            + Freeway.SarsaLFAADAM.epsilon self)) g),
        Freeway.SarsaLFAADAM.set_moments self
          (Freeway.SarsaLFAADAM.Array
             (map (fun x => (1 - Freeway.SarsaLFAADAM.beta_1 self) * x) g))
          (Freeway.SarsaLFAADAM.Array
             (map (fun x => (1 - Freeway.SarsaLFAADAM.beta_2 self) * x ^ 2)
                  g))).
Proof.
  intros Hm Hv Hb1 Hb2.
  unfold Freeway.SarsaLFAADAM.adam, Freeway.SarsaLFAADAM.adam_moments.
  rewrite Hm, Hv.
  cbn [Freeway.SarsaLFAADAM.nd_map Freeway.SarsaLFAADAM.nd_op bind].
  rewrite !map_map.
  cbn [Freeway.SarsaLFAADAM.set_moments Freeway.SarsaLFAADAM.m
       Freeway.SarsaLFAADAM.v Freeway.SarsaLFAADAM.beta_1
       Freeway.SarsaLFAADAM.beta_2 Freeway.SarsaLFAADAM.alpha
       Freeway.SarsaLFAADAM.epsilon Freeway.SarsaLFAADAM.nd_map
       Freeway.SarsaLFAADAM.nd_op Freeway.SarsaLFAADAM.adam_denominator].
  rewrite !map_map, !length_map, Nat.eqb_refl. cbn [bind].
  rewrite zip_with_map_same.
  apply f_equal. apply f_equal2.
  - apply f_equal. apply map_ext. intros x.
    rewrite (bias_correction_first _ x Hb1).
    rewrite (bias_correction_first _ (x ^ 2) Hb2).
    reflexivity.
  - apply f_equal2; apply f_equal; apply map_ext; intros x; ring.
Qed.

(** X18. The first Adam step. On a freshly constructed [SarsaLFAADAM]
    agent, [adam(g, 1)] returns, for every component [x] of the gradient,
    [0.001 * x / (sqrt(x ** 2) + 1e-4)]: the bias corrections cancel the
    moment averaging exactly, and the learning rate is the constant of the
    Adam block, whatever [alpha] the constructor was given. The moments
    left behind are [0.1 * g] and [0.001 * g ** 2]. *)
Theorem Adam_first_step (np_sqrt : Qc -> Qc) (gamma : Qc)
  (state_size n : nat) (N0 alpha lamb : Qc) (rand g : list Qc) :
  exists self',
    Freeway.SarsaLFAADAM.adam np_sqrt
      (Freeway.SarsaLFAADAM.init gamma state_size n N0 alpha lamb rand)
      (Freeway.SarsaLFAADAM.Array g) 1
    = Ok (Freeway.SarsaLFAADAM.Array
            (map (fun x => Q2Qc (1 # 1000) * x
                           / (np_sqrt (x ^ 2) + Q2Qc (1 # 10000))) g),
          self') /\
    Freeway.SarsaLFAADAM.m self'
    = Freeway.SarsaLFAADAM.Array (map (fun x => Q2Qc (1 # 10) * x) g) /\
    Freeway.SarsaLFAADAM.v self'
    = Freeway.SarsaLFAADAM.Array (map (fun x => Q2Qc (1 # 1000) * x ^ 2) g) /\
    Freeway.SarsaLFAADAM.weights self' = rand.
Proof.
  eexists. split.
  - rewrite adam_first_step_eq; [reflexivity | reflexivity | reflexivity
                                | discriminate | discriminate].
  - cbn [Freeway.SarsaLFAADAM.init Freeway.SarsaLFAADAM.set_alpha
         Freeway.SarsaLFAADAM.set_moments Freeway.SarsaLFAADAM.m
         Freeway.SarsaLFAADAM.v Freeway.SarsaLFAADAM.weights
         Freeway.SarsaLFAADAM.beta_1 Freeway.SarsaLFAADAM.beta_2].
    split; [reflexivity | split; reflexivity].
Qed.

(** ** Linear SARSA: [update] *)





(** ** Monte Carlo control with a fixed [epsilon] *)

Lemma fixed_epsilon_update_step (eps : Qc)
  (a : Freeway.MonteCarloControl.agent) (episode : Episode.t) (G : Qc)
  (t : nat) :
  Freeway.MonteCarloControlFixedEpsilon.update_step episode
    (G, with_fixed_epsilon eps a) t
  = do (G', a') <- Freeway.MonteCarloControl.update_step episode (G, a) t;
    Ok (G', with_fixed_epsilon eps a').
Proof.
  unfold Freeway.MonteCarloControlFixedEpsilon.update_step,
    Freeway.MonteCarloControl.update_step, with_fixed_epsilon.
  cbn [Freeway.MonteCarloControlFixedEpsilon.gamma
       Freeway.MonteCarloControlFixedEpsilon.available_actions
       Freeway.MonteCarloControlFixedEpsilon.epsilon
       Freeway.MonteCarloControlFixedEpsilon.Q
       Freeway.MonteCarloControlFixedEpsilon.Nsa
       Freeway.MonteCarloControlFixedEpsilon.state_visits
       Freeway.MonteCarloControlFixedEpsilon.pi].
  destruct (index (np_array_bytes (Episode.S episode)) t) as [s_t|e];
    cbn [bind]; [|reflexivity].
  rewrite !dd_get_eq.
  destruct (index (Episode.A episode) t) as [a_t|e]; cbn [bind];
    [|reflexivity].
  destruct (py_div 1 _) as [alpha|e]; cbn [bind]; [|reflexivity].
  destruct (index (Episode.R episode) (t + 1)) as [r|e]; cbn [bind];
    [|reflexivity].
  destruct (getitem _ a_t) as [cur|e]; cbn [bind]; [|reflexivity].
  destruct (setitem _ a_t _) as [row'|e]; cbn [bind]; [|reflexivity].
  destruct (np_argmax row') as [best|e]; cbn [bind]; reflexivity.
Qed.

Lemma fixed_epsilon_loop (eps : Qc) (episode : Episode.t) (ts : list nat)
  (a : Freeway.MonteCarloControl.agent) (G : Qc) :
  for_each (Freeway.MonteCarloControlFixedEpsilon.update_step episode) ts
    (G, with_fixed_epsilon eps a)
  = do (G', a') <- for_each (Freeway.MonteCarloControl.update_step episode)
                     ts (G, a);
    Ok (G', with_fixed_epsilon eps a').
Proof.
  revert a G. induction ts as [|t ts IH]; intros a G; [reflexivity|].
  cbn [for_each]. rewrite fixed_epsilon_update_step.
  destruct (Freeway.MonteCarloControl.update_step episode (G, a) t)
    as [[G1 a1]|e]; cbn [bind]; [|reflexivity].
  apply IH.
Qed.

(** X20. Learning does not look at the exploration parameter. Started on
    the same tables and given the same episode,
    [MonteCarloControlFixedEpsilon.update_policy] and
    [MonteCarloControl.update_policy] raise the same exception or return
    the same score and total reward and leave the same [Q], [Nsa],
    [state_visits] and [pi]; neither [epsilon] nor [N0] takes part. *)
Theorem FixedEpsilon_update_policy_as_MonteCarlo (eps : Qc)
  (a : Freeway.MonteCarloControl.agent) (episode : Episode.t) :
  Freeway.MonteCarloControlFixedEpsilon.update_policy
    (with_fixed_epsilon eps a) episode
  = do (res, a') <- Freeway.MonteCarloControl.update_policy a episode;
    Ok (res, with_fixed_epsilon eps a').
Proof.
  unfold Freeway.MonteCarloControlFixedEpsilon.update_policy,
    Freeway.MonteCarloControl.update_policy.
  rewrite fixed_epsilon_loop.
  destruct (for_each _ _ _) as [[G a']|e]; reflexivity.
Qed.

(** X21. [MonteCarloControlFixedEpsilon.act]. With a uniform sample below
    one: an [epsilon] outside [0, 1] is rejected by [np.random.choice];
    otherwise the agent explores exactly when the sample is at least
    [1 - epsilon], and else returns [pi[state]], which is action [1] for a
    state it has not learnt, the read recording that default in [pi]. *)
Theorem FixedEpsilon_act_cases
  (self : Freeway.MonteCarloControlFixedEpsilon.agent) (state : string)
  (rnd : draws) :
  u rnd < 1 ->
  Freeway.MonteCarloControlFixedEpsilon.act self state rnd
  = let eps := Freeway.MonteCarloControlFixedEpsilon.epsilon self in
    let pi := Freeway.MonteCarloControlFixedEpsilon.pi self in
    if Qc_ltb eps 0 || Qc_ltb 1 eps then Raise ValueError
    else if Qc_leb (1 - eps) (u rnd) then
      do a <- choice_int
                (Freeway.MonteCarloControlFixedEpsilon.available_actions self)
                (k rnd);
      Ok (a, self)
    else
      Ok (peek 1%nat pi state,
          Freeway.MonteCarloControlFixedEpsilon.mk
            (Freeway.MonteCarloControlFixedEpsilon.gamma self)
            (Freeway.MonteCarloControlFixedEpsilon.available_actions self)
            eps
            (Freeway.MonteCarloControlFixedEpsilon.Q self)
            (Freeway.MonteCarloControlFixedEpsilon.Nsa self)
            (Freeway.MonteCarloControlFixedEpsilon.state_visits self)
            (<[state := peek 1%nat pi state]> pi)).
Proof.
  intros Hu. cbv zeta.
  unfold Freeway.MonteCarloControlFixedEpsilon.act.
  set (eps := Freeway.MonteCarloControlFixedEpsilon.epsilon self).
  destruct (Qc_ltb eps 0) eqn:H0; cbn [orb].
  { apply Qc_ltb_lt in H0. rewrite choice_p_bad_probability by now left.
    reflexivity. }
  destruct (Qc_ltb 1 eps) eqn:H1.
  { apply Qc_ltb_lt in H1. rewrite choice_p_bad_probability by now right.
    reflexivity. }
  apply Qc_ltb_ge in H0, H1. rewrite choice_p_two by assumption.
  destruct (Qc_leb (1 - eps) (u rnd)); cbn [bind Nat.eqb negb].
  - destruct (choice_int _ _) as [a|e]; cbn [bind]; [|reflexivity].
    now destruct self.
  - rewrite dd_get_eq. reflexivity.
Qed.

Lemma FixedEpsilon_act_cases_witness :
  Freeway.MonteCarloControlFixedEpsilon.act
    (Freeway.MonteCarloControlFixedEpsilon.init (Q2Qc (1 # 2)) 3
       (Q2Qc (1 # 4)))
    "s" (Draws (Q2Qc (1 # 2)) 5)
  = Ok (1%nat,
        Freeway.MonteCarloControlFixedEpsilon.mk (Q2Qc (1 # 2)) 3
          (Q2Qc (1 # 4)) ∅ ∅ ∅ (<[("s" : string) := 1%nat]> ∅)).
Proof.
  apply (FixedEpsilon_act_cases
           (Freeway.MonteCarloControlFixedEpsilon.init (Q2Qc (1 # 2)) 3
              (Q2Qc (1 # 4)))
           "s" (Draws (Q2Qc (1 # 2)) 5)).
  reflexivity.
Defined.

(** ** Adam-corrected SARSA: [update] *)

(** X22. The linear SARSA agents cannot learn before [trainScaler]. On a
    freshly constructed [SarsaLFA] or [SarsaLFAADAM] agent the scaler is
    not fitted, and [update] raises sklearn's [NotFittedError] whatever
    the transition. *)
Theorem Sarsa_update_before_trainScaler (np_sqrt : Qc -> Qc) (gamma : Qc)
  (state_size n : nat) (N0 alpha lamb : Qc) (rand : list Qc)
  (old_s new_s : string) (old_a new_a : nat) (reward : Qc) (E : nat) :
  Freeway.SarsaLFA.update
    (Freeway.SarsaLFA.init gamma state_size n N0 alpha lamb rand)
    old_s new_s old_a new_a reward
  = Raise NotFittedError /\
  Freeway.SarsaLFAADAM.update np_sqrt
    (Freeway.SarsaLFAADAM.init gamma state_size n N0 alpha lamb rand)
    old_s new_s old_a new_a reward E
  = Raise NotFittedError.
Proof.
  split; reflexivity.
Qed.

Lemma zip_with_map_r {X Y Z' W' : Type} (f : X -> Z' -> W') (g : Y -> Z')
  (l : list X) (k : list Y) :
  zip_with f l (map g k) = zip_with (fun x y => f x (g y)) l k.
Proof.
  revert k. induction l as [|x l IH]; intros [|y k]; cbn; try reflexivity.
  now rewrite IH.
Qed.



